(** * meerkat.interactive.graph.store: the Store proxy and the argument unpacker

    A shallow embedding of [src/meerkat/interactive/graph/store.py].

    Python objects live in a heap indexed by addresses; an address is the
    object's identity ([is]).  A [Store] is a heap object carrying its
    node id, the wrapped value and the [backend_only] flag.  Methods are
    written in a small monad that threads the heap, the modification
    queue, the reactive flag and the registered operations, collects the
    warnings that were emitted, and may raise a Python exception. *)

From stdpp Require Import base option list gmap strings.
From Stdlib Require Import ZArith Lia.

Open Scope string_scope.
Open Scope list_scope.

(** ** Values and objects *)

(** Immutable scalars; they have no identity of interest. *)
Inductive scalar :=
  | SNone
  | SBool (b : bool)
  | SInt (z : Z)
  | SStr (s : string).

Definition addr := positive.

Inductive value :=
  | VScalar (c : scalar)
  | VRef (a : addr).

(** The identifier of [IdentifiableMixin] ([self.id]). *)
Definition NodeId := nat.

(** The attributes of a [Store] instance: [self.id], [self.__wrapped__]
    (the attribute of [wrapt.ObjectProxy]) and [self._self_backend_only]. *)
Record StoreObj := mkStore {
  Store_id : NodeId;
  __wrapped__ : value;
  _self_backend_only : bool
}.

(** Heap objects.  A dict keeps its entries in insertion order.  A
    reference to an address that the heap does not map cannot arise in a
    Python program; the functions below treat it as an object of some
    other class. *)
Inductive object :=
  | OList (items : list value)
  | OTuple (items : list value)
  | ODict (entries : list (value * value))
  | OIterator (rest : list value)
  | OStore (s : StoreObj).

(** [StoreModification(id=..., value=...)]. *)
Record StoreModification := mkMod {
  mod_id : NodeId;
  mod_value : value
}.

(** [OperationNode]: its own id, the function it stands for, and the ids
    of its input and output Stores. *)
Record OperationNode := mkOp {
  op_id : NodeId;
  op_fn : string;
  op_inputs : list NodeId;
  op_outputs : list NodeId
}.

Record world := mkWorld {
  heap : gmap addr object;
  next_id : NodeId;
  modification_queue : list StoreModification;
  reactive : bool;
  operations : list OperationNode
}.

Definition set_heap (h : gmap addr object) (w : world) : world :=
  mkWorld h (next_id w) (modification_queue w) (reactive w) (operations w).

Definition set_reactive (b : bool) (w : world) : world :=
  mkWorld (heap w) (next_id w) (modification_queue w) b (operations w).

(** ** Exceptions and the method monad *)

Inductive exn :=
  | RecursionError
  | TypeError
  | KeyError
  | IndexError
  | AttributeError
  | ZeroDivisionError
  | ValueError
  | OverflowError.

Inductive res (A : Type) :=
  | Ok (a : A)
  | Raise (e : exn).
Arguments Ok {A} a.
Arguments Raise {A} e.

Definition res_bind {A B} (r : res A) (k : A → res B) : res B :=
  match r with
  | Ok a => k a
  | Raise e => Raise e
  end.

(** A computation returns a result or raises, leaves a world behind and
    emits warnings ([warnings.warn]) in order. *)
Definition M (A : Type) : Type := world → res A * world * list string.

Definition ret {A} (a : A) : M A := λ w, (Ok a, w, []).

Definition raise {A} (e : exn) : M A := λ w, (Raise e, w, []).

Definition bind {A B} (m : M A) (k : A → M B) : M B := λ w,
  match m w with
  | (Ok a, w', ws) =>
      match k a w' with
      | (r, w'', ws') => (r, w'', ws ++ ws')
      end
  | (Raise e, w', ws) => (Raise e, w', ws)
  end.

Notation "'let!' x := m 'in' k" := (bind m (λ x, k))
  (at level 10, x pattern, m at level 100, k at level 200).
Notation "m ;;; k" := (bind m (λ _, k))
  (at level 100, k at level 200, right associativity).

Definition lift {A} (r : res A) : M A := λ w, (r, w, []).

Definition warn (msg : string) : M unit := λ w, (Ok tt, w, [msg]).

Definition get_heap : M (gmap addr object) := λ w, (Ok (heap w), w, []).

Definition put_object (a : addr) (o : object) : M unit :=
  λ w, (Ok tt, set_heap (<[a := o]> (heap w)) w, []).

(** Object creation: a fresh address, never used before. *)
Definition alloc (o : object) : M addr := λ w,
  let a := fresh (dom (heap w)) in
  (Ok a, set_heap (<[a := o]> (heap w)) w, []).

(** ** The execution context

    Modelled from the spec: [is_reactive] and [no_react] come from
    [meerkat.interactive.graph.reactivity], which is not part of the
    sources.  The context is a toggle; a scope sets it and restores the
    previous state on every exit path. *)
Definition is_reactive : M bool := λ w, (Ok (reactive w), w, []).

Definition no_react {A} (body : M A) : M A := λ w,
  match body (set_reactive false w) with
  | (r, w', ws) => (r, set_reactive (reactive w) w', ws)
  end.

(** ** Classes *)

Inductive pyclass :=
  | Cls_NoneType | Cls_bool | Cls_int | Cls_str
  | Cls_list | Cls_tuple | Cls_dict | Cls_iterator
  | Cls_Store
  | Cls_object.

(** [type(obj)]: the real class, which a proxy cannot hide. *)
Definition type_ (h : gmap addr object) (obj : value) : pyclass :=
  match obj with
  | VScalar SNone => Cls_NoneType
  | VScalar (SBool _) => Cls_bool
  | VScalar (SInt _) => Cls_int
  | VScalar (SStr _) => Cls_str
  | VRef a =>
      match h !! a with
      | Some (OList _) => Cls_list
      | Some (OTuple _) => Cls_tuple
      | Some (ODict _) => Cls_dict
      | Some (OIterator _) => Cls_iterator
      | Some (OStore _) => Cls_Store
      | None => Cls_object
      end
  end.

(** [isinstance(obj, Store)] with the instance itself. *)
Definition as_Store (h : gmap addr object) (obj : value)
  : option (addr * StoreObj) :=
  match obj with
  | VRef a =>
      match h !! a with
      | Some (OStore s) => Some (a, s)
      | _ => None
      end
  | VScalar _ => None
  end.

Definition isinstance_Store (h : gmap addr object) (obj : value) : bool :=
  bool_decide (is_Some (as_Store h obj)).

(** What a proxy forwards to: [ObjectProxy] hands [__class__], attribute
    lookups and [iter] to its wrapped object, which may be a proxy again. *)
Fixpoint ObjectProxy_target (limit : nat) (h : gmap addr object) (obj : value)
  : res value :=
  match as_Store h obj, limit with
  | None, _ => Ok obj
  | Some _, O => Raise RecursionError
  | Some (_, s), S limit => ObjectProxy_target limit h (__wrapped__ s)
  end.

(** [obj.__class__], the class that [isinstance] tests for every class
    other than the proxy's own. *)
Definition __class__ (limit : nat) (h : gmap addr object) (obj : value)
  : res pyclass :=
  res_bind (ObjectProxy_target limit h obj) (λ t, Ok (type_ h t)).

(** ** Store: construction and value *)

(** Modelled from the spec: [IdentifiableMixin] (absent from the sources)
    gives every new instance an identifier that no other node has; the
    registry hands out the next unused one. *)
Definition new_id : M NodeId := λ w,
  (Ok (next_id w),
   mkWorld (heap w) (S (next_id w)) (modification_queue w) (reactive w) (operations w),
   []).

Definition iterator_warning : string :=
  "Wrapping an iterator in a Store is not recommended. If the iterator is derived from an iterable, wrap the iterable:
    >>> store = mk.gui.Store(iterable)
    >>> iterator = iter(store)".

(** [Store(wrapped, backend_only)]: the constructor call, returning the
    new instance. *)
Definition Store___init__ (limit : nat) (wrapped : value) (backend_only : bool)
  : M addr :=
  let! h := get_heap in
  let! cls := lift (__class__ limit h wrapped) in
  (match cls with
   | Cls_iterator => warn iterator_warning
   | _ => ret tt
   end) ;;;
  let! i := new_id in
  alloc (OStore (mkStore i wrapped backend_only)).

(** Methods receive [self]; calling one on something that is not a Store
    is a [TypeError]. *)
Definition load_Store (self : addr) : M StoreObj := λ w,
  match heap w !! self with
  | Some (OStore s) => (Ok s, w, [])
  | _ => (Raise TypeError, w, [])
  end.

(** The [value] property. *)
Definition Store_value (self : addr) : M value :=
  let! s := load_Store self in
  ret (__wrapped__ s).

(** [type(self).__name__] for the Stores of the model, which are instances
    of [Store] itself.  (The instances of its subclass [_IteratorStore]
    come from [Store.__iter__] in a reactive scope and are not part of the
    model.) *)
Definition type___name__ (s : StoreObj) : string := "Store".

(** [make_store]. *)
Definition make_store (limit : nat) (v : value) : M value :=
  let! h := get_heap in
  if isinstance_Store h v then ret v
  else
    let! a := Store___init__ limit v false in
    ret (VRef a).

(** ** Hashing

    The builtin [hash] of scalars, of a tuple given its items' hashes, and
    of an object hashed by identity are parameters of the interpreter. *)
Record builtin_hash := mkHash {
  hash_scalar : scalar → Z;
  hash_tuple : list Z → Z;
  hash_object : addr → Z
}.

Fixpoint res_mapM {A B} (f : A → res B) (xs : list A) : res (list B) :=
  match xs with
  | [] => Ok []
  | x :: xs =>
      res_bind (f x) (λ y, res_bind (res_mapM f xs) (λ ys, Ok (y :: ys)))
  end.

(** [hash(obj)].  Lists and dicts are unhashable; a Store answers with
    [Store.__hash__], that is [hash(self.__wrapped__)]. *)
Fixpoint py_hash (bh : builtin_hash) (limit : nat) (h : gmap addr object)
    (obj : value) : res Z :=
  match limit with
  | O => Raise RecursionError
  | S limit =>
      match obj with
      | VScalar c => Ok (hash_scalar bh c)
      | VRef a =>
          match h !! a with
          | Some (OStore s) => py_hash bh limit h (__wrapped__ s)
          | Some (OTuple xs) =>
              res_bind (res_mapM (py_hash bh limit h) xs)
                (λ hs, Ok (hash_tuple bh hs))
          | Some (OList _) | Some (ODict _) => Raise TypeError
          | Some (OIterator _) | None => Ok (hash_object bh a)
          end
      end
  end.

Definition Store___hash__ (bh : builtin_hash) (limit : nat) (self : addr)
  : M Z :=
  let! s := load_Store self in
  let! h := get_heap in
  lift (py_hash bh limit h (__wrapped__ s)).

(** ** Truth value *)

Definition scalar_bool (c : scalar) : bool :=
  match c with
  | SNone => false
  | SBool b => b
  | SInt z => negb (Z.eqb z 0)
  | SStr s => negb (String.eqb s "")
  end.

Definition not_empty {A} (xs : list A) : bool :=
  match xs with
  | [] => false
  | _ :: _ => true
  end.

Definition bool_warning : string :=
  "bool(store) is not reactive. If you are using the store in a logical context and you want to preserve reactivity, you should use `mk.to_bool` (equivalent to `bool(store)`) or `mk.cnot` (equivalent to `not store`).".

(** [bool(obj)].  On a Store it calls [Store.__bool__], written out in
    place here and as a method below: warn when reactive, then
    [super().__bool__()], which is [bool(self.__wrapped__)]. *)
Fixpoint py_bool (limit : nat) (obj : value) : M bool :=
  match limit with
  | O => raise RecursionError
  | S limit =>
      let! h := get_heap in
      match obj with
      | VScalar c => ret (scalar_bool c)
      | VRef a =>
          match h !! a with
          | Some (OStore s) =>
              let! r := is_reactive in
              (if r then warn bool_warning else ret tt) ;;;
              py_bool limit (__wrapped__ s)
          | Some (OList xs) | Some (OTuple xs) => ret (not_empty xs)
          | Some (ODict kvs) => ret (not_empty kvs)
          | Some (OIterator _) | None => ret true
          end
      end
  end.

(** [Store.__bool__]. *)
Definition Store___bool__ (limit : nat) (self : addr) : M bool :=
  let! s := load_Store self in
  let! r := is_reactive in
  (if r then warn bool_warning else ret tt) ;;;
  py_bool limit (__wrapped__ s).

(** ** String conversion

    [str(obj)], [repr(obj)] and [format(obj)], for whether they return:
    the text is not needed.  A list, tuple or dict formats its items; one
    that is being formatted already prints as [[...]] (the interpreter
    keeps track of them), so a container that contains itself does
    return.  A Store hands over to its wrapped value: [Store.__repr__]
    calls [repr(self.__wrapped__)], and [str] and [format] go through the
    proxy.  Every level costs one unit of recursion depth. *)
Fixpoint py_format (limit : nat) (h : gmap addr object) (active : list addr)
    (obj : value) : res unit :=
  match limit with
  | O => Raise RecursionError
  | S limit =>
      match obj with
      | VScalar _ => Ok tt
      | VRef a =>
          match h !! a with
          | Some (OStore s) => py_format limit h active (__wrapped__ s)
          | Some (OList xs) | Some (OTuple xs) =>
              if bool_decide (a ∈ active) then Ok tt
              else
                res_bind (res_mapM (py_format limit h (a :: active)) xs)
                  (λ _, Ok tt)
          | Some (ODict d) =>
              if bool_decide (a ∈ active) then Ok tt
              else
                res_bind
                  (res_mapM
                     (λ kv, res_bind (py_format limit h (a :: active) kv.1)
                              (λ _, py_format limit h (a :: active) kv.2))
                     d)
                  (λ _, Ok tt)
          | Some (OIterator _) | None => Ok tt
          end
      end
  end.

(** ** Store.set *)

(** [isinstance(v, Store)]: one layer of Store taken off, as [set] does. *)
Definition unwrap_Store (h : gmap addr object) (v : value) : value :=
  match as_Store h v with
  | Some (_, t) => __wrapped__ t
  | None => v
  end.

(** The modification joins the end of the queue. *)
Definition enqueue (m : StoreModification) : M unit := λ w,
  (Ok tt,
   mkWorld (heap w) (next_id w) (modification_queue w ++ [m]) (reactive w)
     (operations w),
   []).

Section Propagation.

(** Modelled from the spec: [StoreModification.add_to_queue] lives in
    [meerkat.interactive.modification], outside the sources.  By §4.1 and
    §4.5 a [set] enqueues the modification and propagation runs before
    [set] returns.  What a propagation pass recomputes is decided by the
    computation descriptors of the registered operations, which no source
    file gives; the pass is therefore a parameter, and the properties of
    [set] are stated for every pass that keeps the contract
    [propagator_contract] below. *)
Variable trigger : M unit.

Definition add_to_queue (m : StoreModification) : M unit :=
  enqueue m ;;; trigger.

(** [Store.set].  The argument of [logging.debug] is an f-string, which
    formats [self.value] and [new_value] whether or not the record is
    logged; the text goes to the log and is not kept. *)
Definition Store_set (limit : nat) (self : addr) (new_value : value)
  : M unit :=
  let! s := load_Store self in
  let! h := get_heap in
  let new_value := unwrap_Store h new_value in
  lift (py_format limit h [] (__wrapped__ s)) ;;;
  lift (py_format limit h [] new_value) ;;;
  let mod_ := mkMod (Store_id s) new_value in
  put_object self
    (OStore (mkStore (Store_id s) new_value (_self_backend_only s))) ;;;
  add_to_queue mod_.

(** A run of [s.set(v)] calls, one after the other; an exception ends
    the run. *)
Fixpoint set_calls (limit : nat) (self : addr) (vs : list value) : M unit :=
  match vs with
  | [] => ret tt
  | v :: vs => Store_set limit self v ;;; set_calls limit self vs
  end.

End Propagation.

(** What the spec guarantees of a propagation pass, whatever it
    recomputes.  Results are written into existing Stores through the
    in-place path, so a Store stays a Store with its id and its
    [backend_only] flag (§3, §4.5); Stores come from wrapping and from
    reactive calls, not from propagation (§3, lifecycle); and a Store
    whose modification is pending keeps the value that was set: it is
    written before the pass begins, and a pass that would come back to it
    is a cycle, which is rejected with the Store keeping that value
    (§4.5, §8). *)
Definition propagator_contract (trigger : M unit) : Prop :=
  (∀ w a s, heap w !! a = Some (OStore s) →
     ∃ s', heap (trigger w).1.2 !! a = Some (OStore s')
           ∧ Store_id s' = Store_id s
           ∧ _self_backend_only s' = _self_backend_only s)
  ∧ (∀ w a s', heap (trigger w).1.2 !! a = Some (OStore s') →
       ∃ s, heap w !! a = Some (OStore s))
  ∧ (∀ w a s m, heap w !! a = Some (OStore s) →
       m ∈ modification_queue w → mod_id m = Store_id s →
       heap (trigger w).1.2 !! a = Some (OStore s)).

(** The pass over a graph without operations: nothing is downstream of
    any Store, so nothing is recomputed and the queue is consumed. *)
Definition no_operations : M unit := λ w,
  (Ok tt, mkWorld (heap w) (next_id w) [] (reactive w) (operations w), []).

(** ** Dict keys: hashability and equality *)

Definition no_hash : builtin_hash := mkHash (λ _, 0%Z) (λ _, 0%Z) (λ _, 0%Z).

(** Whether [hash(k)] succeeds; the number plays no role below. *)
Definition hashable (limit : nat) (h : gmap addr object) (k : value)
  : res unit :=
  res_bind (py_hash no_hash limit h k) (λ _, Ok tt).

Definition scalar_num (c : scalar) : option Z :=
  match c with
  | SBool b => Some (if b then 1 else 0)%Z
  | SInt z => Some z
  | _ => None
  end.

(** [c == d] on scalars; [True == 1] and [False == 0]. *)
Definition scalar_eq (c d : scalar) : bool :=
  match c, d with
  | SNone, SNone => true
  | SStr s, SStr t => String.eqb s t
  | _, _ =>
      match scalar_num c, scalar_num d with
      | Some x, Some y => Z.eqb x y
      | _, _ => false
      end
  end.

(** Item-wise comparison of two tuples: the first differing pair decides,
    then the lengths. *)
Fixpoint seq_eq (eq : value → value → res bool) (xs ys : list value)
  : res bool :=
  match xs, ys with
  | [], [] => Ok true
  | x :: xs, y :: ys =>
      res_bind (eq x y) (λ b, if b then seq_eq eq xs ys else Ok false)
  | _, _ => Ok false
  end.

(** [k0 is k or k0 == k], the test a dict applies to a stored key [k0] and
    a hashable key [k].  A Store on either side compares its wrapped value
    ([Store.__eq__], directly or reflected); a list or a dict is never
    equal to a hashable object; objects of other classes compare by
    identity.  For these classes equal keys have equal hashes, so comparing
    without looking at the hashes finds the same entry. *)
Fixpoint key_eq (limit : nat) (h : gmap addr object) (k0 k : value)
  : res bool :=
  match limit with
  | O => Raise RecursionError
  | S limit =>
      match as_Store h k0, as_Store h k with
      | Some (_, s), _ => key_eq limit h (__wrapped__ s) k
      | None, Some (_, t) => key_eq limit h k0 (__wrapped__ t)
      | None, None =>
          match k0, k with
          | VScalar c, VScalar d => Ok (scalar_eq c d)
          | VRef a, VRef b =>
              if bool_decide (a = b) then Ok true
              else
                match h !! a, h !! b with
                | Some (OTuple xs), Some (OTuple ys) =>
                    seq_eq (key_eq limit h) xs ys
                | _, _ => Ok false
                end
          | _, _ => Ok false
          end
      end
  end.

(** [d[k] = v] on the entries of a dict: an equal key keeps its place and
    its key object, a new key goes last. *)
Fixpoint dict_insert (eq : value → value → res bool)
    (d : list (value * value)) (k v : value) : res (list (value * value)) :=
  match d with
  | [] => Ok [(k, v)]
  | (k0, v0) :: d' =>
      res_bind (eq k0 k) (λ b,
        if b then Ok ((k0, v) :: d')
        else res_bind (dict_insert eq d' k v) (λ r, Ok ((k0, v0) :: r)))
  end.

Definition dict___setitem__ (limit : nat) (h : gmap addr object)
    (d : list (value * value)) (k v : value) : res (list (value * value)) :=
  res_bind (hashable limit h k) (λ _, dict_insert (key_eq limit h) d k v).

(** [del d[k]] on the entries of a dict. *)
Fixpoint dict_remove (eq : value → value → res bool)
    (d : list (value * value)) (k : value) : res (list (value * value)) :=
  match d with
  | [] => Raise KeyError
  | (k0, v0) :: d' =>
      res_bind (eq k0 k) (λ b,
        if b then Ok d'
        else res_bind (dict_remove eq d' k) (λ r, Ok ((k0, v0) :: r)))
  end.

Definition dict___delitem__ (limit : nat) (h : gmap addr object)
    (d : list (value * value)) (k : value) : res (list (value * value)) :=
  res_bind (hashable limit h k) (λ _, dict_remove (key_eq limit h) d k).



(** [operator.index(key)]: an int, a bool, or a proxy of one. *)
Definition py_index (limit : nat) (h : gmap addr object) (key : value)
  : res Z :=
  res_bind (ObjectProxy_target limit h key) (λ t,
    match t with
    | VScalar (SInt z) => Ok z
    | VScalar (SBool b) => Ok (if b then 1 else 0)%Z
    | _ => Raise TypeError
    end).

(** [del xs[i]] on the items of a list; a negative index counts from the
    end. *)
Definition list___delitem__ (xs : list value) (i : Z) : res (list value) :=
  let n := Z.of_nat (length xs) in
  let i := if Z.ltb i 0 then (i + n)%Z else i in
  if Z.ltb i 0 || Z.leb n i then Raise IndexError
  else Ok (delete (Z.to_nat i) xs).

(** What [del o[key]] leaves of a list or a dict. *)
Definition object_delitem (limit : nat) (h : gmap addr object) (o : object)
    (key : value) : res object :=
  match o with
  | ODict d => res_bind (dict___delitem__ limit h d key) (λ d', Ok (ODict d'))
  | OList xs =>
      res_bind (py_index limit h key) (λ i,
        res_bind (list___delitem__ xs i) (λ xs', Ok (OList xs')))
  | _ => Raise TypeError
  end.

(** [del obj[key]], mutating [obj]. *)
Definition py_delitem (limit : nat) (obj : addr) (key : value) : M unit :=
  let! h := get_heap in
  match h !! obj with
  | Some o =>
      let! o' := lift (object_delitem limit h o key) in
      put_object obj o'
  | None => raise TypeError
  end.

(** [v.copy()]: a proxy forwards the attribute to its target; lists and
    dicts return a new object with the same items. *)
Definition py_copy (limit : nat) (v : value) : M addr :=
  let! h := get_heap in
  let! t := lift (ObjectProxy_target limit h v) in
  match t with
  | VRef a =>
      match h !! a with
      | Some (OList xs) => alloc (OList xs)
      | Some (ODict d) => alloc (ODict d)
      | _ => raise AttributeError
      end
  | VScalar _ => raise AttributeError
  end.

Definition delitem_warning (s : StoreObj) : string :=
  type___name__ s ++ ".__delitem__ is out-of-place.".

(** The function that [Store.__delitem__] is before [@_reactive] is
    applied to it. *)
Definition Store___delitem___body (limit : nat) (self : addr) (key : value)
  : M value :=
  let! s := load_Store self in
  let! obj := py_copy limit (__wrapped__ s) in
  py_delitem limit obj key ;;;
  warn (delitem_warning s) ;;;
  let! new := Store___init__ limit (VRef obj) (_self_backend_only s) in
  ret (VRef new).

(** ** Slices

    [__setslice__] and [__delslice__] copy the wrapped value and apply
    [obj[i:j] = value] or [del obj[i:j]] to the copy.  They are the slice
    hooks of Python 2: on Python 3 the interpreter never calls them (a
    slice goes to [__setitem__] and [__delitem__] as a [slice] object),
    so what is modelled here is a call of the method by name. *)

(** A bound of [slice(i, j)] on a sequence of length [n]: a negative
    bound counts from the end, and the result is clamped to [0, n]. *)
Definition slice_bound (n i : Z) : Z :=
  let i := if Z.ltb i 0 then (i + n)%Z else i in
  if Z.ltb i 0 then 0%Z else if Z.ltb n i then n else i.

(** A bound given as an argument: [None] stands for the default, anything
    else must be an index. *)
Definition slice_arg (limit : nat) (h : gmap addr object) (default : Z)
    (key : value) : res Z :=
  match key with
  | VScalar SNone => Ok default
  | _ => py_index limit h key
  end.

(** [xs[i:j] = vs] on the items of a list: the slice is empty when the
    upper bound lies below the lower one. *)
Definition list___setslice__ (xs : list value) (i j : Z) (vs : list value)
  : list value :=
  let n := Z.of_nat (length xs) in
  let lo := slice_bound n i in
  let hi := Z.max lo (slice_bound n j) in
  take (Z.to_nat lo) xs ++ vs ++ drop (Z.to_nat hi) xs.

(** [del xs[i:j]] on the items of a list. *)
Definition list___delslice__ (xs : list value) (i j : Z) : list value :=
  let n := Z.of_nat (length xs) in
  let lo := slice_bound n i in
  let hi := Z.max lo (slice_bound n j) in
  take (Z.to_nat lo) xs ++ drop (Z.to_nat hi) xs.

(** [list(value)], as slice assignment does to its right-hand side: the
    items of a list or tuple, the keys of a dict, the characters of a str,
    what is left of an iterator (which is used up); a proxy hands over to
    its target ([Store.__iter__] outside a reactive scope). *)
Definition py_list_of (limit : nat) (v : value) : M (list value) :=
  let! h := get_heap in
  let! t := lift (ObjectProxy_target limit h v) in
  match t with
  | VScalar (SStr s) =>
      ret (map (λ c, VScalar (SStr (String c EmptyString)))
             (String.list_ascii_of_string s))
  | VScalar _ => raise TypeError
  | VRef a =>
      match h !! a with
      | Some (OList xs) | Some (OTuple xs) => ret xs
      | Some (ODict d) => ret (map fst d)
      | Some (OIterator rest) => put_object a (OIterator []) ;;; ret rest
      | _ => raise TypeError
      end
  end.

(** [del obj[i:j]], mutating [obj].  Only a list takes a slice: a dict
    would have to hash it (slices are unhashable before Python 3.12). *)
Definition py_delslice (limit : nat) (obj : addr) (i j : value) : M unit :=
  let! h := get_heap in
  match h !! obj with
  | Some (OList xs) =>
      let n := Z.of_nat (length xs) in
      let! lo := lift (slice_arg limit h 0%Z i) in
      let! hi := lift (slice_arg limit h n j) in
      put_object obj (OList (list___delslice__ xs lo hi))
  | _ => raise TypeError
  end.

(** [obj[i:j] = v], mutating [obj]: the bounds are converted first, then
    the value is listed. *)
Definition py_setslice (limit : nat) (obj : addr) (i j v : value)
  : M unit :=
  let! h := get_heap in
  match h !! obj with
  | Some (OList xs) =>
      let n := Z.of_nat (length xs) in
      let! lo := lift (slice_arg limit h 0%Z i) in
      let! hi := lift (slice_arg limit h n j) in
      let! vs := py_list_of limit v in
      put_object obj (OList (list___setslice__ xs lo hi vs))
  | _ => raise TypeError
  end.

Definition setslice_warning (s : StoreObj) : string :=
  type___name__ s ++ ".__setslice__ is out-of-place.".

Definition delslice_warning (s : StoreObj) : string :=
  type___name__ s ++ ".__delslice__ is out-of-place.".

(** [Store.__setslice__] before [@_reactive] is applied. *)
Definition Store___setslice___body (limit : nat) (self : addr) (i j v : value)
  : M value :=
  let! s := load_Store self in
  let! obj := py_copy limit (__wrapped__ s) in
  py_setslice limit obj i j v ;;;
  warn (setslice_warning s) ;;;
  let! new := Store___init__ limit (VRef obj) (_self_backend_only s) in
  ret (VRef new).

(** [Store.__delslice__] before [@_reactive] is applied. *)
Definition Store___delslice___body (limit : nat) (self : addr) (i j : value)
  : M value :=
  let! s := load_Store self in
  let! obj := py_copy limit (__wrapped__ s) in
  py_delslice limit obj i j ;;;
  warn (delslice_warning s) ;;;
  let! new := Store___init__ limit (VRef obj) (_self_backend_only s) in
  ret (VRef new).

(** ** The argument unpacker *)

(** [for x in obj: x, stores_i = f(x); unpacked.append(x);
    stores.extend(stores_i)]. *)
Fixpoint unpack_seq (f : value → M (value * list addr)) (xs : list value)
    (unpacked : list value) (stores : list addr)
  : M (list value * list addr) :=
  match xs with
  | [] => ret (unpacked, stores)
  | x :: xs =>
      let! (x', stores_i) := f x in
      unpack_seq f xs (unpacked ++ [x']) (stores ++ stores_i)
  end.

(** [for k, v in obj.items(): ...; unpacked[k] = v; stores.extend(stores_i_k);
    stores.extend(stores_i_v)]. *)
Fixpoint unpack_items (f : value → M (value * list addr)) (limit : nat)
    (kvs : list (value * value)) (unpacked : list (value * value))
    (stores : list addr) : M (list (value * value) * list addr) :=
  match kvs with
  | [] => ret (unpacked, stores)
  | (k, v) :: kvs =>
      let! (k', stores_i_k) := f k in
      let! (v', stores_i_v) := f v in
      let! h := get_heap in
      let! unpacked := lift (dict___setitem__ limit h unpacked k' v') in
      unpack_items f limit kvs unpacked (stores ++ stores_i_k ++ stores_i_v)
  end.

(** [_type(unpacked)] in the sequence branch: [_type] is [list], [tuple],
    or [Store] when the Store at hand wraps another Store.  The result is
    a new object in every case but one: [tuple([])] is the interpreter's
    only empty tuple, which is given a new address here like the others;
    what is said below about the address of a result is therefore not
    claimed for an empty tuple. *)
Definition construct_seq (limit : nat) (_type : pyclass)
    (unpacked : list value) : M value :=
  match _type with
  | Cls_list => let! a := alloc (OList unpacked) in ret (VRef a)
  | Cls_tuple => let! a := alloc (OTuple unpacked) in ret (VRef a)
  | Cls_Store =>
      let! l := alloc (OList unpacked) in
      let! a := Store___init__ limit (VRef l) false in
      ret (VRef a)
  | _ => raise TypeError
  end.

(** [_type(unpacked)] in the mapping branch. *)
Definition construct_dict (limit : nat) (_type : pyclass)
    (unpacked : list (value * value)) : M value :=
  match _type with
  | Cls_dict => let! a := alloc (ODict unpacked) in ret (VRef a)
  | Cls_Store =>
      let! d := alloc (ODict unpacked) in
      let! a := Store___init__ limit (VRef d) false in
      ret (VRef a)
  | _ => raise TypeError
  end.

(** The items [iter(obj)] yields when [obj.__class__] is [list] or [tuple]. *)
Definition seq_items (h : gmap addr object) (target : value) : list value :=
  match target with
  | VRef a =>
      match h !! a with
      | Some (OList xs) | Some (OTuple xs) => xs
      | _ => []
      end
  | VScalar _ => []
  end.

(** [obj.items()] when [obj.__class__] is [dict]. *)
Definition dict_items (h : gmap addr object) (target : value)
  : list (value * value) :=
  match target with
  | VRef a =>
      match h !! a with
      | Some (ODict d) => d
      | _ => []
      end
  | VScalar _ => []
  end.

(** [_unpack_stores_from_object(obj, unpack_nested)].  [limit] is the
    depth of recursion the interpreter still allows; exceeding it raises
    [RecursionError].  [isinstance(obj, (list, tuple))] and
    [isinstance(obj, dict)] look at [obj.__class__], so a Store that wraps
    a container enters the container branches. *)
Fixpoint _unpack_stores_from_object (limit : nat) (obj : value)
    (unpack_nested : bool) : M (value * list addr) :=
  match limit with
  | O => raise RecursionError
  | S limit =>
      no_react (
        let! h := get_heap in
        match as_Store h obj, unpack_nested with
        | Some (self, s), false => ret (__wrapped__ s, [self])
        | is_Store, _ =>
            let _type :=
              match is_Store with
              | Some (_, s) => type_ h (__wrapped__ s)
              | None => type_ h obj
              end in
            let self :=
              match is_Store with
              | Some (a, _) => [a]
              | None => []
              end in
            let! target := lift (ObjectProxy_target limit h obj) in
            match type_ h target with
            | Cls_list | Cls_tuple =>
                let! (unpacked, stores) :=
                  unpack_seq
                    (λ x, _unpack_stores_from_object limit x unpack_nested)
                    (seq_items h target) [] [] in
                let stores := stores ++ self in
                let! r := construct_seq limit _type unpacked in
                ret (r, stores)
            | Cls_dict =>
                let! (unpacked, stores) :=
                  unpack_items
                    (λ x, _unpack_stores_from_object limit x unpack_nested)
                    limit (dict_items h target) [] [] in
                let stores := stores ++ self in
                let! r := construct_dict limit _type unpacked in
                ret (r, stores)
            | _ =>
                match is_Store with
                | Some (a, s) => ret (__wrapped__ s, [a])
                | None => ret (obj, [])
                end
            end
        end)
  end.

(** ** The reactive call interceptor *)

(** The ids of the Stores among [stores], in order. *)
Definition Store_ids (h : gmap addr object) (stores : list addr)
  : list NodeId :=
  omap (λ a, match h !! a with
             | Some (OStore s) => Some (Store_id s)
             | _ => None
             end) stores.

(** Modelled from the spec: the node registry (outside the sources) gives
    an [OperationNode] the next unused id and keeps the nodes in the order
    of their creation (§3, §4.5). *)
Definition register_operation (fn : string) (inputs outputs : list NodeId)
  : M unit :=
  let! i := new_id in
  λ w, (Ok tt,
        mkWorld (heap w) (next_id w) (modification_queue w) (reactive w)
          (operations w ++ [mkOp i fn inputs outputs]),
        []).

(** The argument packer over the arguments of a call: each one is
    unpacked in the default mode. *)
Definition pack_args (limit : nat) (args : list value)
  : M (list value * list addr) :=
  unpack_seq (λ x, _unpack_stores_from_object limit x false) args [] [].

(** Modelled from the spec: [_reactive] comes from
    [meerkat.interactive.graph.reactivity], which is not part of the
    sources; this is §4.3.  The arguments go through the argument packer
    in its default mode.  Outside a reactive scope the function is called
    on the raw arguments and its result returned; no node is created.
    Inside one the function is called with reactivity suspended, its
    result is wrapped in a fresh Store, and one [OperationNode] is
    registered, with the collected Stores as inputs and the new Store as
    output; if the packer or the function raises, nothing is wrapped or
    registered.  The result is wrapped as one object, whatever it is:
    §4.3 also lets a tuple or sequence result be wrapped item by item,
    without saying when, and makes no exception for a result that is a
    Store already.

    The receiver of a method is handed over as it is (the bodies read
    [self.__wrapped__] and [self._self_backend_only], which only a Store
    has) and counts as the first input. *)
Definition _reactive (limit : nat) (fn : string) (self : addr)
    (args : list value) (body : list value → M value) : M value :=
  let! r := is_reactive in
  if r then
    let! (raw_args, stores) := pack_args limit args in
    let! result := no_react (body raw_args) in
    let! out := Store___init__ limit result false in
    let! h := get_heap in
    register_operation fn (Store_ids h (self :: stores)) (Store_ids h [out]) ;;;
    ret (VRef out)
  else
    let! (raw_args, _) := pack_args limit args in
    body raw_args.

(** ** Operators

    [Store.__add__] and the like are [@_reactive] around
    [super().__add__(other)], which is [ObjectProxy]'s
    [self.__wrapped__ + other]; the reflected ones ([__radd__], ...)
    compute [other + self.__wrapped__]. *)
Inductive binop :=
  | Op_add | Op_sub | Op_mul | Op_div | Op_truediv | Op_floordiv | Op_mod
  | Op_pow | Op_lshift | Op_rshift | Op_and | Op_xor | Op_or.

Definition binop_name (op : binop) : string :=
  match op with
  | Op_add => "add" | Op_sub => "sub" | Op_mul => "mul" | Op_div => "div"
  | Op_truediv => "truediv" | Op_floordiv => "floordiv" | Op_mod => "mod"
  | Op_pow => "pow" | Op_lshift => "lshift" | Op_rshift => "rshift"
  | Op_and => "and" | Op_xor => "xor" | Op_or => "or"
  end.

Definition method_name (op : binop) (reflected : bool) : string :=
  "__" ++ (if reflected then "r" else "") ++ binop_name op ++ "__".

(** What the interpreter's operators give on operands that are not
    proxies, where the result is not a new list, tuple or dict: a number,
    a str, a bool, [None], or an exception.  These are values, so which
    one comes out is left to the interpreter, as the hash is.  Whether
    dicts have the union operator [|] depends on its version (3.9 and
    later). *)
Record builtin_ops := mkOps {
  binop_scalar : binop → gmap addr object → value → value → res scalar;
  dict_union : bool
}.

(** [xs * n] on the items of a sequence. *)
Definition seq_repeat (n : Z) (xs : list value) : list value :=
  concat (replicate (Z.to_nat n) xs).

(** [d1 | d2] on the entries of two dicts: [d1]'s entries, then [d2]'s
    set one by one. *)
Fixpoint dict_update (limit : nat) (h : gmap addr object)
    (d new : list (value * value)) : res (list (value * value)) :=
  match new with
  | [] => Ok d
  | (k, v) :: new =>
      res_bind (dict___setitem__ limit h d k v) (λ d',
        dict_update limit h d' new)
  end.

(** The operators of lists, tuples and dicts that build a container:
    concatenation, repetition and union.  The result is a new object,
    except that an exact tuple is returned as it is where the result
    equals it (concatenation with an empty tuple, repetition once or of an
    empty tuple). *)
Definition container_binop (bo : builtin_ops) (limit : nat) (op : binop)
    (h : gmap addr object) (x y : value) : option (res (value + object)) :=
  match op, x, y with
  | Op_add, VRef a, VRef b =>
      match h !! a, h !! b with
      | Some (OList xs), Some (OList ys) => Some (Ok (inr (OList (xs ++ ys))))
      | Some (OTuple xs), Some (OTuple ys) =>
          match xs, ys with
          | [], _ => Some (Ok (inl y))
          | _, [] => Some (Ok (inl x))
          | _, _ => Some (Ok (inr (OTuple (xs ++ ys))))
          end
      | _, _ => None
      end
  | Op_mul, VRef a, VScalar c | Op_mul, VScalar c, VRef a =>
      match h !! a, scalar_num c with
      | Some (OList xs), Some n => Some (Ok (inr (OList (seq_repeat n xs))))
      | Some (OTuple xs), Some n =>
          if bool_decide (xs = []) || Z.eqb n 1 then Some (Ok (inl (VRef a)))
          else Some (Ok (inr (OTuple (seq_repeat n xs))))
      | _, _ => None
      end
  | Op_or, VRef a, VRef b =>
      match h !! a, h !! b with
      | Some (ODict d1), Some (ODict d2) =>
          if dict_union bo
          then Some (res_bind (dict_update limit h d1 d2)
                       (λ d, Ok (inr (ODict d))))
          else None
      | _, _ => None
      end
  | _, _, _ => None
  end.

(** [x op y] on operands that are not proxies. *)
Definition builtin_binop (bo : builtin_ops) (limit : nat) (op : binop)
    (x y : value) : M value :=
  let! h := get_heap in
  match container_binop bo limit op h x y with
  | Some r =>
      let! r := lift r in
      match r with
      | inl v => ret v
      | inr o => let! a := alloc o in ret (VRef a)
      end
  | None =>
      let! c := lift (binop_scalar bo op h x y) in
      ret (VScalar c)
  end.

(** [Store.__add__(self, other)] and, with [reflected], [Store.__radd__],
    for every operator.  An operand that is a Store answers with its own
    method: the left one with the operator, otherwise the right one with
    the reflected operator. *)
Fixpoint Store___op__ (bo : builtin_ops) (limit : nat) (op : binop)
    (reflected : bool) (self : addr) (other : value) : M value :=
  match limit with
  | O => raise RecursionError
  | S limit =>
      _reactive limit (method_name op reflected) self [other] (λ raw_args,
        match raw_args with
        | [other] =>
            let! s := load_Store self in
            let x := if reflected then other else __wrapped__ s in
            let y := if reflected then __wrapped__ s else other in
            let! h := get_heap in
            match as_Store h x, as_Store h y with
            | Some (a, _), _ => Store___op__ bo limit op false a y
            | None, Some (b, _) => Store___op__ bo limit op true b x
            | None, None => builtin_binop bo limit op x y
            end
        | _ => raise TypeError
        end)
  end.

(** ** In-place operators *)

Definition inplace_warning (s : StoreObj) (op : binop) : string :=
  type___name__ s ++ ".__i" ++ binop_name op ++ "__ is out-of-place. Use __"
    ++ binop_name op ++ "__ instead.".

(** [Store.__iadd__] and the twelve like it: the warning, then
    [self.__add__(other)]. *)
Definition Store___iop__ (bo : builtin_ops) (limit : nat) (op : binop)
    (self : addr) (other : value) : M value :=
  let! s := load_Store self in
  warn (inplace_warning s op) ;;;
  Store___op__ bo limit op false self other.

Definition Store___iadd__ bo limit := Store___iop__ bo limit Op_add.
Definition Store___isub__ bo limit := Store___iop__ bo limit Op_sub.
Definition Store___imul__ bo limit := Store___iop__ bo limit Op_mul.
Definition Store___idiv__ bo limit := Store___iop__ bo limit Op_div.
Definition Store___itruediv__ bo limit := Store___iop__ bo limit Op_truediv.
Definition Store___ifloordiv__ bo limit := Store___iop__ bo limit Op_floordiv.
Definition Store___imod__ bo limit := Store___iop__ bo limit Op_mod.
Definition Store___ipow__ bo limit := Store___iop__ bo limit Op_pow.
Definition Store___ilshift__ bo limit := Store___iop__ bo limit Op_lshift.
Definition Store___irshift__ bo limit := Store___iop__ bo limit Op_rshift.
Definition Store___iand__ bo limit := Store___iop__ bo limit Op_and.
Definition Store___ixor__ bo limit := Store___iop__ bo limit Op_xor.
Definition Store___ior__ bo limit := Store___iop__ bo limit Op_or.

(** The in-place method of each operator. *)
Definition inplace_method (op : binop)
  : builtin_ops → nat → addr → value → M value :=
  match op with
  | Op_add => Store___iadd__
  | Op_sub => Store___isub__
  | Op_mul => Store___imul__
  | Op_div => Store___idiv__
  | Op_truediv => Store___itruediv__
  | Op_floordiv => Store___ifloordiv__
  | Op_mod => Store___imod__
  | Op_pow => Store___ipow__
  | Op_lshift => Store___ilshift__
  | Op_rshift => Store___irshift__
  | Op_and => Store___iand__
  | Op_xor => Store___ixor__
  | Op_or => Store___ior__
  end.

(** ** The out-of-place container methods *)

(** [Store.__delitem__]. *)
Definition Store___delitem__ (limit : nat) (self : addr) (key : value)
  : M value :=
  _reactive limit "__delitem__" self [key] (λ raw_args,
    match raw_args with
    | [key] => Store___delitem___body limit self key
    | _ => raise TypeError
    end).

(** [Store.__setslice__]. *)
Definition Store___setslice__ (limit : nat) (self : addr) (i j v : value)
  : M value :=
  _reactive limit "__setslice__" self [i; j; v] (λ raw_args,
    match raw_args with
    | [i; j; v] => Store___setslice___body limit self i j v
    | _ => raise TypeError
    end).

(** [Store.__delslice__]. *)
Definition Store___delslice__ (limit : nat) (self : addr) (i j : value)
  : M value :=
  _reactive limit "__delslice__" self [i; j] (λ raw_args,
    match raw_args with
    | [i; j] => Store___delslice___body limit self i j
    | _ => raise TypeError
    end).

(** ** Argument trees

    The tree an acyclic argument denotes: what one sees when following the
    references from a value.  A Store node keeps the address of the Store
    and the tree of its wrapped value; an iterator is a leaf known by its
    address. *)
#[local] Set Warnings "-register-all".
Inductive tree :=
  | TScalar (c : scalar)
  | TIterator (a : addr)
  | TStore (a : addr) (t : tree)
  | TList (ts : list tree)
  | TTuple (ts : list tree)
  | TDict (kvs : list (tree * tree)).

Fixpoint opt_mapM {A B} (f : A → option B) (xs : list A) : option (list B) :=
  match xs with
  | [] => Some []
  | x :: xs =>
      match f x, opt_mapM f xs with
      | Some y, Some ys => Some (y :: ys)
      | _, _ => None
      end
  end.

Definition read_pair {A B} (f : A → option B) (kv : A * A) : option (B * B) :=
  match f kv.1, f kv.2 with
  | Some k, Some v => Some (k, v)
  | _, _ => None
  end.

(** Reading the tree of depth below [n] that [v] denotes in [h]; [None]
    when the structure is deeper, in particular when it is cyclic, or when
    it refers to an object outside the heap. *)
Fixpoint read_tree (n : nat) (h : gmap addr object) (v : value) : option tree :=
  match n with
  | O => None
  | S n =>
      match v with
      | VScalar c => Some (TScalar c)
      | VRef a =>
          match h !! a with
          | Some (OStore s) => TStore a <$> read_tree n h (__wrapped__ s)
          | Some (OList xs) => TList <$> opt_mapM (read_tree n h) xs
          | Some (OTuple xs) => TTuple <$> opt_mapM (read_tree n h) xs
          | Some (ODict d) => TDict <$> opt_mapM (read_pair (read_tree n h)) d
          | Some (OIterator _) => Some (TIterator a)
          | None => None
          end
      end
  end.

(** The spec's account of unpacking, on trees: every Store is replaced by
    its raw wrapped value, the containers keep their types and order ... *)
Fixpoint raw_of (t : tree) : tree :=
  match t with
  | TStore _ t => t
  | TList ts => TList (map raw_of ts)
  | TTuple ts => TTuple (map raw_of ts)
  | TDict kvs => TDict (map (λ kv, (raw_of kv.1, raw_of kv.2)) kvs)
  | TScalar _ | TIterator _ => t
  end.

(** ... and the Stores are collected in walk order (for a dict entry, the
    key before the value). *)
Fixpoint stores_of (t : tree) : list addr :=
  match t with
  | TStore a _ => [a]
  | TList ts | TTuple ts => concat (map stores_of ts)
  | TDict kvs => concat (map (λ kv, stores_of kv.1 ++ stores_of kv.2) kvs)
  | TScalar _ | TIterator _ => []
  end.

(** No Store anywhere in the tree. *)
Fixpoint store_free (t : tree) : bool :=
  match t with
  | TStore _ _ => false
  | TList ts | TTuple ts => forallb store_free ts
  | TDict kvs => forallb (λ kv, store_free kv.1 && store_free kv.2) kvs
  | TScalar _ | TIterator _ => true
  end.

(** No Store nested inside another Store. *)
Fixpoint flat (t : tree) : bool :=
  match t with
  | TStore _ t => store_free t
  | TList ts | TTuple ts => forallb flat ts
  | TDict kvs => forallb (λ kv, flat kv.1 && flat kv.2) kvs
  | TScalar _ | TIterator _ => true
  end.

(** Trees of hashable values. *)
Fixpoint hashable_tree (t : tree) : bool :=
  match t with
  | TScalar _ | TIterator _ => true
  | TStore _ t => hashable_tree t
  | TTuple ts => forallb hashable_tree ts
  | TList _ | TDict _ => false
  end.

Fixpoint list_eqb {A} (eq : A → A → bool) (xs ys : list A) : bool :=
  match xs, ys with
  | [], [] => true
  | x :: xs, y :: ys => eq x y && list_eqb eq xs ys
  | _, _ => false
  end.

(** [==] on the trees of hashable, Store-free values. *)
Fixpoint tree_key_eq (t u : tree) : bool :=
  match t, u with
  | TScalar c, TScalar d => scalar_eq c d
  | TIterator a, TIterator b => bool_decide (a = b)
  | TTuple ts, TTuple us => list_eqb tree_key_eq ts us
  | _, _ => false
  end.

(** Deep unpacking on trees: with [unpack_nested=True] a Store that wraps
    a container is unpacked along with the Stores inside it, so that no
    Store remains ... *)
Fixpoint strip (t : tree) : tree :=
  match t with
  | TStore _ t => strip t
  | TList ts => TList (map strip ts)
  | TTuple ts => TTuple (map strip ts)
  | TDict kvs => TDict (map (λ kv, (strip kv.1, strip kv.2)) kvs)
  | TScalar _ | TIterator _ => t
  end.

(** ... and such a Store is collected after the Stores found inside it. *)
Fixpoint stores_deep (t : tree) : list addr :=
  match t with
  | TStore a t => stores_deep t ++ [a]
  | TList ts | TTuple ts => concat (map stores_deep ts)
  | TDict kvs => concat (map (λ kv, stores_deep kv.1 ++ stores_deep kv.2) kvs)
  | TScalar _ | TIterator _ => []
  end.

Definition is_TStore (t : tree) : bool :=
  match t with
  | TStore _ _ => true
  | _ => false
  end.

(** No Store wraps a Store directly (Stores inside a wrapped container
    are fine). *)
Fixpoint proper (t : tree) : bool :=
  match t with
  | TStore _ t => negb (is_TStore t) && proper t
  | TList ts | TTuple ts => forallb proper ts
  | TDict kvs => forallb (λ kv, proper kv.1 && proper kv.2) kvs
  | TScalar _ | TIterator _ => true
  end.

(** The keys of a Python dict are hashable and pairwise unequal; a Store
    hashes and compares as its wrapped value, so this is stated on the
    keys with their Stores stripped. *)
Fixpoint distinct_keys (ks : list tree) : bool :=
  match ks with
  | [] => true
  | k :: ks => forallb (λ k', negb (tree_key_eq k k')) ks && distinct_keys ks
  end.

Fixpoint dicts_ok (t : tree) : bool :=
  match t with
  | TStore _ t => dicts_ok t
  | TList ts | TTuple ts => forallb dicts_ok ts
  | TDict kvs =>
      forallb (λ kv, dicts_ok kv.1 && dicts_ok kv.2) kvs
      && forallb (λ kv, hashable_tree (strip kv.1)) kvs
      && distinct_keys (map (λ kv, strip kv.1) kvs)
  | TScalar _ | TIterator _ => true
  end.

(** ** What the unpacker is checked against *)

(** What the argument unpacks to, the Stores collected, and the trees
    covered, by mode. *)
Definition unpacked_tree (unpack_nested : bool) : tree → tree :=
  if unpack_nested then strip else raw_of.

Definition collected (unpack_nested : bool) : tree → list addr :=
  if unpack_nested then stores_deep else stores_of.

Definition sound (unpack_nested : bool) (t : tree) : bool :=
  (if unpack_nested then proper t else flat t) && dicts_ok t.

(** What a call may change: the heap only grows, and nothing else moves;
    in particular no operation is registered. *)
Definition frame (w w' : world) : Prop :=
  heap w ⊆ heap w'
  ∧ next_id w' = next_id w
  ∧ modification_queue w' = modification_queue w
  ∧ reactive w' = reactive w
  ∧ operations w' = operations w.

(** What a call in the default mode can do: grow the heap and nothing
    else, emit no warning, and raise nothing but [RecursionError] and
    [TypeError]. *)
Definition quiet {A} (w : world) (r : res A * world * list string) : Prop :=
  frame w r.1.2
  ∧ r.2 = []
  ∧ ∀ e, r.1.1 = Raise e → e = RecursionError ∨ e = TypeError.

(** [a] is the address of a Store. *)
Definition is_Store_at (h : gmap addr object) (a : addr) : Prop :=
  ∃ s, h !! a = Some (OStore s).

(** No Store was created on the way from [w] to [w']: every Store of [w']
    is a Store of [w], with the same attributes. *)
Definition no_new_Store (w w' : world) : Prop :=
  ∀ a s, heap w' !! a = Some (OStore s) → heap w !! a = Some (OStore s).

(** [contains h v x]: the list, tuple or dict [v] has [x] among its items,
    keys or values.  These are the objects the default walk descends
    into; it does not descend into a Store. *)
Inductive contains (h : gmap addr object) : value → value → Prop :=
  | contains_list a xs x :
      h !! a = Some (OList xs) → x ∈ xs → contains h (VRef a) x
  | contains_tuple a xs x :
      h !! a = Some (OTuple xs) → x ∈ xs → contains h (VRef a) x
  | contains_key a d k v :
      h !! a = Some (ODict d) → (k, v) ∈ d → contains h (VRef a) k
  | contains_value a d k v :
      h !! a = Some (ODict d) → (k, v) ∈ d → contains h (VRef a) v.

(** A container that transitively contains itself. *)
Definition cyclic (h : gmap addr object) (v : value) : Prop :=
  tc (contains h) v v.

(** What a call in either mode can do: add objects to the heap and use
    up identifiers, and nothing else; it emits no warning and raises
    nothing but [RecursionError] and [TypeError]. *)
Definition calm {A} (w : world) (r : res A * world * list string) : Prop :=
  heap w ⊆ heap r.1.2
  ∧ (next_id w ≤ next_id r.1.2)%nat
  ∧ modification_queue r.1.2 = modification_queue w
  ∧ reactive r.1.2 = reactive w
  ∧ r.2 = []
  ∧ ∀ e, r.1.1 = Raise e → e = RecursionError ∨ e = TypeError.

(** What a call of an operator or of an out-of-place method may change:
    objects are added to the heap and none is altered, identifiers are
    used up and operations registered; nothing is queued and the reactive
    flag is as before. *)
Definition grows {A} (w : world) (r : res A * world * list string) : Prop :=
  heap w ⊆ heap r.1.2
  ∧ (next_id w ≤ next_id r.1.2)%nat
  ∧ modification_queue r.1.2 = modification_queue w
  ∧ reactive r.1.2 = reactive w.

(** ** What the out-of-place methods are checked against *)

(** What [del obj[key]], [del obj[i:j]] and [obj[i:j] = v] do to the copy
    that the out-of-place methods make: either raise and leave the world
    alone, or replace the copy by a list or a dict. *)
Definition mutates_copy (mutate : addr → M unit) : Prop :=
  ∀ c w1,
    (∃ e, mutate c w1 = (Raise e, w1, []))
    ∨ (∃ o', mutate c w1 = (Ok tt, set_heap (<[c := o']> (heap w1)) w1, [])
         ∧ match o' with OList _ | ODict _ => True | _ => False end).

(** What an out-of-place method called on the Store [s] in the world [w],
    outside a reactive scope, may leave behind.  In every case the
    objects of [w] are as they were, nothing is queued, no operation is
    registered and the reactive flag is as before.  On success the result
    is a new Store around a new list or dict, with the next identifier
    and [s]'s [backend_only] flag, and [msg] is the one warning.  On
    failure there is no warning, no identifier is used up and no Store is
    created. *)
Definition out_of_place_outcome (msg : string) (s : StoreObj) (w : world)
    (r : res value * world * list string) : Prop :=
  heap w ⊆ heap r.1.2
  ∧ modification_queue r.1.2 = modification_queue w
  ∧ reactive r.1.2 = reactive w
  ∧ operations r.1.2 = operations w
  ∧ match r.1.1 with
    | Ok v =>
        ∃ copy new o',
          v = VRef new
          ∧ r.2 = [msg]
          ∧ next_id r.1.2 = S (next_id w)
          ∧ heap w !! copy = None
          ∧ heap w !! new = None
          ∧ copy ≠ new
          ∧ heap r.1.2 !! new
            = Some (OStore (mkStore (next_id w) (VRef copy)
                              (_self_backend_only s)))
          ∧ heap r.1.2 !! copy = Some o'
          ∧ match o' with OList _ | ODict _ => True | _ => False end
    | Raise e => r.2 = [] ∧ next_id r.1.2 = next_id w ∧ no_new_Store w r.1.2
    end.

(** ** Worked examples *)

(** storeX = Store(10), storeY = Store(20),
    arg = {"a": storeX, "b": [storeY, 5]} *)
Definition scenario_world : world :=
  mkWorld
    (list_to_map
       [ (1%positive, OStore (mkStore 0%nat (VScalar (SInt 10)) false));
         (2%positive, OStore (mkStore 1%nat (VScalar (SInt 20)) false));
         (3%positive, OList [VRef 2%positive; VScalar (SInt 5)]);
         (4%positive, ODict [ (VScalar (SStr "a"), VRef 1%positive);
                              (VScalar (SStr "b"), VRef 3%positive) ]) ])
    2%nat [] true [].

(** storeL = Store([storeY, 5]) on top of the scenario. *)
Definition nested_world : world :=
  mkWorld (<[5%positive := OStore (mkStore 2%nat (VRef 3%positive) false)]>
             (heap scenario_world))
          3%nat [] true [].

(** s = Store(1), then s.set(2). *)
Definition one_store_world : world :=
  mkWorld {[ 1%positive := OStore (mkStore 7%nat (VScalar (SInt 1)) false) ]}
          8%nat [] false [].

(** l = []; l.append(l) *)
Definition cyclic_world : world :=
  mkWorld {[ 1%positive := OList [VRef 1%positive] ]} 0%nat [] false [].

(** s = Store({"a": 1, "b": 2}, backend_only=True); del s["a"] *)
Definition dict_store_world : world :=
  mkWorld
    (<[2%positive := OStore (mkStore 0%nat (VRef 1%positive) true)]>
       {[ 1%positive := ODict [ (VScalar (SStr "a"), VScalar (SInt 1));
                                (VScalar (SStr "b"), VScalar (SInt 2)) ] ]})
    1%nat [] true [].

(** A builtin hash to compute with: an int hashes to itself, as small
    non-negative ints do in CPython, and everything else to zero. *)
Definition int_hash : builtin_hash :=
  mkHash (λ c, match c with SInt z => z | _ => 0%Z end) (λ _, 0%Z) (λ _, 0%Z).

(** Builtin operators to compute with: [+], [-] and [*] on ints; the
    other operators and operands are left out and answer [TypeError]. *)
Definition int_ops : builtin_ops :=
  mkOps
    (λ op _ x y,
       match x, y with
       | VScalar (SInt a), VScalar (SInt b) =>
           match op with
           | Op_add => Ok (SInt (a + b))
           | Op_sub => Ok (SInt (a - b))
           | Op_mul => Ok (SInt (a * b))
           | _ => Raise TypeError
           end
       | _, _ => Raise TypeError
       end)
    true.

(** * Properties *)

(** ** Basic facts about worlds and the heap *)

Lemma set_reactive_restore (w : world) (b : bool) :
  set_reactive (reactive w) (set_reactive b w) = w.
Proof. by destruct w. Qed.

Lemma fresh_addr_unused (h : gmap addr object) : h !! fresh (dom h) = None.
Proof. apply not_elem_of_dom, is_fresh. Qed.

Lemma alloc_extends (h : gmap addr object) (o : object) :
  h ⊆ <[fresh (dom h) := o]> h.
Proof. apply insert_subseteq, fresh_addr_unused. Qed.

Lemma as_Store_Some h a s :
  h !! a = Some (OStore s) → as_Store h (VRef a) = Some (a, s).
Proof. intros H. simpl. by rewrite H. Qed.

Lemma isinstance_Store_true h a s :
  h !! a = Some (OStore s) → isinstance_Store h (VRef a) = true.
Proof.
  intros H. unfold isinstance_Store. rewrite (as_Store_Some _ _ _ H).
  apply bool_decide_eq_true. eauto.
Qed.

Lemma isinstance_Store_false h v :
  as_Store h v = None → isinstance_Store h v = false.
Proof.
  intros H. unfold isinstance_Store. rewrite H.
  apply bool_decide_eq_false. by intros [? ?].
Qed.

(** ** Running the monad *)

Lemma bind_pure {A B} (m : M A) (k : A → M B) (w : world) (a : A) :
  m w = (Ok a, w, []) → bind m k w = k a w.
Proof. intros H. unfold bind. rewrite H. by destruct (k a w) as [[??]?]. Qed.

Lemma bind_Ok {A B} (m : M A) (k : A → M B) (w w' : world) (a : A) ws :
  m w = (Ok a, w', ws) →
  bind m k w = ((k a w').1.1, (k a w').1.2, ws ++ (k a w').2).
Proof. intros H. unfold bind. rewrite H. by destruct (k a w') as [[??]?]. Qed.

Lemma bind_Raise {A B} (m : M A) (k : A → M B) (w w' : world) e ws :
  m w = (Raise e, w', ws) → bind m k w = (Raise e, w', ws).
Proof. intros H. unfold bind. by rewrite H. Qed.

Lemma bind_get_heap {B} (k : gmap addr object → M B) (w : world) :
  bind get_heap k w = k (heap w) w.
Proof. by apply bind_pure. Qed.

Lemma bind_is_reactive {B} (k : bool → M B) (w : world) :
  bind is_reactive k w = k (reactive w) w.
Proof. by apply bind_pure. Qed.

Lemma bind_ret {A B} (a : A) (k : A → M B) (w : world) :
  bind (ret a) k w = k a w.
Proof. by apply bind_pure. Qed.

Lemma bind_lift_Ok {A B} (a : A) (k : A → M B) (w : world) :
  bind (lift (Ok a)) k w = k a w.
Proof. by apply bind_pure. Qed.

Lemma bind_lift_Raise {A B} e (k : A → M B) (w : world) :
  bind (lift (Raise e)) k w = (Raise e, w, []).
Proof. by apply bind_Raise. Qed.

Lemma bind_raise {A B} e (k : A → M B) (w : world) :
  bind (raise e) k w = (Raise e, w, []).
Proof. by apply bind_Raise. Qed.

Lemma bind_warn {B} (msg : string) (k : unit → M B) (w : world) :
  bind (warn msg) k w = ((k tt w).1.1, (k tt w).1.2, msg :: (k tt w).2).
Proof. by rewrite (bind_Ok _ _ w w tt [msg]). Qed.

Lemma bind_load_Store {B} (k : StoreObj → M B) (w : world) self s :
  heap w !! self = Some (OStore s) → bind (load_Store self) k w = k s w.
Proof. intros H. apply bind_pure. unfold load_Store. by rewrite H. Qed.

(** ** make_store *)

Lemma ObjectProxy_target_not_Store limit h v :
  as_Store h v = None → ObjectProxy_target limit h v = Ok v.
Proof. intros H. destruct limit; simpl; by rewrite H. Qed.

Lemma Store___init___not_Store (limit : nat) (w : world) (v : value) (b : bool) :
  as_Store (heap w) v = None →
  let a := fresh (dom (heap w)) in
  Store___init__ limit v b w =
    (Ok a,
     mkWorld (<[a := OStore (mkStore (next_id w) v b)]> (heap w))
             (S (next_id w)) (modification_queue w) (reactive w) (operations w),
     match type_ (heap w) v with
     | Cls_iterator => [iterator_warning]
     | _ => []
     end).
Proof.
  intros H a. unfold Store___init__, bind, get_heap, lift, __class__.
  rewrite (ObjectProxy_target_not_Store _ _ _ H). simpl.
  destruct (type_ (heap w) v); reflexivity.
Qed.

(** C9. [make_store] returns a Store unchanged, without touching the
    world; it wraps anything else in a new Store, at an address and with an
    id not in use before; so applying it to its own result changes
    nothing. *)
Theorem make_store_idempotent (limit : nat) (w : world) (v : value) :
  (∀ a s, v = VRef a → heap w !! a = Some (OStore s) →
     make_store limit v w = (Ok v, w, []))
  ∧ (as_Store (heap w) v = None →
     ∃ a w' ws,
       make_store limit v w = (Ok (VRef a), w', ws)
       ∧ heap w !! a = None
       ∧ heap w' = <[a := OStore (mkStore (next_id w) v false)]> (heap w)
       ∧ next_id w' = S (next_id w))
  ∧ (∃ r w' ws,
       make_store limit v w = (Ok r, w', ws)
       ∧ make_store limit r w' = (Ok r, w', [])).
Proof.
  assert (Hstore : ∀ w a s, heap w !! a = Some (OStore s) →
            make_store limit (VRef a) w = (Ok (VRef a), w, [])).
  { intros w0 a s H. unfold make_store, bind, get_heap.
    rewrite (isinstance_Store_true _ _ _ H). reflexivity. }
  assert (Hother : as_Store (heap w) v = None →
            make_store limit v w =
              (Ok (VRef (fresh (dom (heap w)))),
               mkWorld (<[fresh (dom (heap w)) :=
                            OStore (mkStore (next_id w) v false)]> (heap w))
                       (S (next_id w)) (modification_queue w) (reactive w) (operations w),
               match type_ (heap w) v with
               | Cls_iterator => [iterator_warning]
               | _ => []
               end ++ [])).
  { intros H. unfold make_store. unfold bind at 1. unfold get_heap.
    rewrite (isinstance_Store_false _ _ H). simpl.
    unfold bind at 1. rewrite (Store___init___not_Store limit w v false H).
    reflexivity. }
  split; [|split].
  - intros a s -> H. by apply (Hstore w a s).
  - intros H. rewrite (Hother H). do 3 eexists.
    split; [reflexivity|]. split; [apply fresh_addr_unused|]. done.
  - destruct (as_Store (heap w) v) as [[a s]|] eqn:E.
    + destruct v as [c|a']; [done|]. simpl in E.
      destruct (heap w !! a') as [[| | | |s']|] eqn:Ha; try done.
      exists (VRef a'), w, []. split; by apply (Hstore w a' s').
    + rewrite (Hother eq_refl). do 3 eexists. split; [reflexivity|].
      eapply Hstore. simpl. apply lookup_insert_eq.
Qed.

(** ** Store.__bool__ *)

(** [bool] reads the world and leaves it alone; the reactive flag decides
    the warnings only. *)
Lemma py_bool_pure (limit : nat) (v : value) (w : world) :
  (py_bool limit v w).1.2 = w
  ∧ ∀ b, (py_bool limit v (set_reactive b w)).1.1 = (py_bool limit v w).1.1.
Proof.
  revert v w. induction limit as [|limit IH]; intros v w; [done|].
  simpl. split; [|intros b]; rewrite !bind_get_heap; simpl;
    (destruct v as [c|a]; [done|]);
    (destruct (heap w !! a) as [[xs|xs|d|it|s]|]; try done);
    rewrite !bind_is_reactive; simpl;
    destruct (IH (__wrapped__ s) w) as [Hw Hb].
  - destruct (reactive w); [rewrite bind_warn|rewrite bind_ret]; done.
  - specialize (Hb b).
    assert (Hf : (py_bool limit (__wrapped__ s) (set_reactive b w)).1.1
                 = (py_bool limit (__wrapped__ s) w).1.1) by done.
    destruct b, (reactive w); rewrite ?bind_warn, ?bind_ret; simpl; done.
Qed.

Lemma py_bool_Store (limit : nat) (w : world) (a : addr) (s : StoreObj) :
  heap w !! a = Some (OStore s) →
  py_bool (S limit) (VRef a) w =
    ((py_bool limit (__wrapped__ s) w).1.1,
     (py_bool limit (__wrapped__ s) w).1.2,
     (if reactive w then [bool_warning] else [])
       ++ (py_bool limit (__wrapped__ s) w).2).
Proof.
  intros H. simpl. rewrite bind_get_heap. simpl. rewrite H.
  rewrite bind_is_reactive.
  destruct (reactive w); [by rewrite bind_warn|rewrite bind_ret].
  by destruct (py_bool limit (__wrapped__ s) w) as [[??]?].
Qed.

Lemma Store___bool___run (limit : nat) (w : world) (self : addr)
    (s : StoreObj) :
  heap w !! self = Some (OStore s) →
  Store___bool__ limit self w =
    ((py_bool limit (__wrapped__ s) w).1.1,
     (py_bool limit (__wrapped__ s) w).1.2,
     (if reactive w then [bool_warning] else [])
       ++ (py_bool limit (__wrapped__ s) w).2).
Proof.
  intros H. unfold Store___bool__.
  rewrite (bind_load_Store _ _ self s) by done. rewrite bind_is_reactive.
  destruct (reactive w); [by rewrite bind_warn|rewrite bind_ret].
  by destruct (py_bool limit (__wrapped__ s) w) as [[??]?].
Qed.

(** [bool] of a Store is [Store.__bool__]. *)
Lemma py_bool_is_Store___bool__ (limit : nat) (w : world) (self : addr)
    (s : StoreObj) :
  heap w !! self = Some (OStore s) →
  py_bool (S limit) (VRef self) w = Store___bool__ limit self w.
Proof.
  intros H. by rewrite (py_bool_Store _ _ _ _ H), (Store___bool___run _ _ _ _ H).
Qed.

(** C6. [bool(s)] is the truth value of the wrapped value, a plain bool;
    it is the same in a reactive and in a non-reactive context, where
    nothing is raised on account of the context; the world is untouched;
    a reactive context adds the warning, in front of whatever the wrapped
    value's own [bool] emits.  When the wrapped value is not itself a
    Store, a bool is returned and the warning is all that is emitted. *)
Theorem Store_bool_plain (limit : nat) (w : world) (self : addr)
    (s : StoreObj) :
  heap w !! self = Some (OStore s) →
  (Store___bool__ limit self w).1.1
    = (py_bool limit (__wrapped__ s) w).1.1
  ∧ (∀ b, (Store___bool__ limit self (set_reactive b w)).1.1
          = (Store___bool__ limit self w).1.1)
  ∧ (Store___bool__ limit self w).1.2 = w
  ∧ (Store___bool__ limit self w).2
    = (if reactive w then [bool_warning] else [])
        ++ (py_bool limit (__wrapped__ s) w).2
  ∧ (as_Store (heap w) (__wrapped__ s) = None →
     ∃ b : bool,
       Store___bool__ (S limit) self w
         = (Ok b, w, if reactive w then [bool_warning] else [])).
Proof.
  intros H.
  assert (Hplain : as_Store (heap w) (__wrapped__ s) = None →
            ∃ b : bool, py_bool (S limit) (__wrapped__ s) w = (Ok b, w, [])).
  { intros Hn. simpl. rewrite bind_get_heap.
    destruct (__wrapped__ s) as [c|a]; [by eexists|]. simpl in Hn.
    destruct (heap w !! a) as [[xs|xs|d|it|s']|]; try done; by eexists. }
  destruct (py_bool_pure limit (__wrapped__ s) w) as [Hp1 Hp2].
  rewrite (Store___bool___run limit w self s H). simpl.
  repeat split; try done.
  - intros b. rewrite (Store___bool___run limit (set_reactive b w) self s H).
    apply Hp2.
  - intros Hn. destruct (Hplain Hn) as [b Hb]. exists b.
    rewrite (Store___bool___run (S limit) w self s H), Hb. simpl.
    by rewrite app_nil_r.
Qed.

Lemma Store_bool_plain_witness :
  (Store___bool__ 2 1%positive scenario_world).1.1
    = (py_bool 2 (VScalar (SInt 10)) scenario_world).1.1
  ∧ (∀ b, (Store___bool__ 2 1%positive (set_reactive b scenario_world)).1.1
          = (Store___bool__ 2 1%positive scenario_world).1.1)
  ∧ (Store___bool__ 2 1%positive scenario_world).1.2 = scenario_world
  ∧ (Store___bool__ 2 1%positive scenario_world).2
    = (if reactive scenario_world then [bool_warning] else [])
        ++ (py_bool 2 (VScalar (SInt 10)) scenario_world).2
  ∧ (as_Store (heap scenario_world) (VScalar (SInt 10)) = None →
     ∃ b : bool,
       Store___bool__ 3 1%positive scenario_world
         = (Ok b, scenario_world,
            if reactive scenario_world then [bool_warning] else [])).
Proof.
  apply (Store_bool_plain 2 scenario_world 1%positive
           (mkStore 0%nat (VScalar (SInt 10)) false)).
  reflexivity.
Defined.

(** bool(Store(10)) in a reactive context: [True], with the warning. *)
Example bool_example :
  Store___bool__ 2 1%positive scenario_world
    = (Ok true, scenario_world, [bool_warning]).
Proof. reflexivity. Qed.

(** ** The unpacker, case by case *)

Lemma no_react_run {A} (m : M A) (w : world) :
  no_react m w =
    ((m (set_reactive false w)).1.1,
     set_reactive (reactive w) (m (set_reactive false w)).1.2,
     (m (set_reactive false w)).2).
Proof. unfold no_react. by destruct (m (set_reactive false w)) as [[??]?]. Qed.

Lemma unpack_scalar limit c un w :
  _unpack_stores_from_object (S limit) (VScalar c) un w
    = (Ok (VScalar c, []), w, []).
Proof.
  cbn [_unpack_stores_from_object]. rewrite no_react_run, bind_get_heap.
  cbn [as_Store]. rewrite ObjectProxy_target_not_Store by done.
  rewrite bind_lift_Ok. destruct un, c; simpl; by rewrite set_reactive_restore.
Qed.

Lemma unpack_Store_shallow limit a s w :
  heap w !! a = Some (OStore s) →
  _unpack_stores_from_object (S limit) (VRef a) false w
    = (Ok (__wrapped__ s, [a]), w, []).
Proof.
  intros H. cbn [_unpack_stores_from_object].
  rewrite no_react_run, bind_get_heap. simpl. rewrite H. simpl.
  by rewrite set_reactive_restore.
Qed.

Lemma unpack_list limit a xs un w :
  heap w !! a = Some (OList xs) →
  _unpack_stores_from_object (S limit) (VRef a) un w =
    no_react
      (let! (unpacked, stores) :=
         unpack_seq (λ x, _unpack_stores_from_object limit x un) xs [] [] in
       let! a' := alloc (OList unpacked) in
       ret (VRef a', stores ++ [])) w.
Proof.
  intros H. cbn [_unpack_stores_from_object].
  rewrite !no_react_run, bind_get_heap. simpl. rewrite H.
  rewrite ObjectProxy_target_not_Store by (simpl; by rewrite H).
  destruct un; rewrite bind_lift_Ok; simpl; rewrite H; reflexivity.
Qed.

Lemma unpack_tuple limit a xs un w :
  heap w !! a = Some (OTuple xs) →
  _unpack_stores_from_object (S limit) (VRef a) un w =
    no_react
      (let! (unpacked, stores) :=
         unpack_seq (λ x, _unpack_stores_from_object limit x un) xs [] [] in
       let! a' := alloc (OTuple unpacked) in
       ret (VRef a', stores ++ [])) w.
Proof.
  intros H. cbn [_unpack_stores_from_object].
  rewrite !no_react_run, bind_get_heap. simpl. rewrite H.
  rewrite ObjectProxy_target_not_Store by (simpl; by rewrite H).
  destruct un; rewrite bind_lift_Ok; simpl; rewrite H; reflexivity.
Qed.

Lemma unpack_dict limit a d un w :
  heap w !! a = Some (ODict d) →
  _unpack_stores_from_object (S limit) (VRef a) un w =
    no_react
      (let! (unpacked, stores) :=
         unpack_items (λ x, _unpack_stores_from_object limit x un)
           limit d [] [] in
       let! a' := alloc (ODict unpacked) in
       ret (VRef a', stores ++ [])) w.
Proof.
  intros H. cbn [_unpack_stores_from_object].
  rewrite !no_react_run, bind_get_heap. simpl. rewrite H.
  rewrite ObjectProxy_target_not_Store by (simpl; by rewrite H).
  destruct un; rewrite bind_lift_Ok; simpl; rewrite H; reflexivity.
Qed.

Lemma unpack_iterator limit a it un w :
  heap w !! a = Some (OIterator it) →
  _unpack_stores_from_object (S limit) (VRef a) un w
    = (Ok (VRef a, []), w, []).
Proof.
  intros H. cbn [_unpack_stores_from_object].
  rewrite !no_react_run, bind_get_heap. simpl. rewrite H.
  rewrite ObjectProxy_target_not_Store by (simpl; by rewrite H).
  destruct un; rewrite bind_lift_Ok; simpl; rewrite H; simpl;
    by rewrite set_reactive_restore.
Qed.

Lemma unpack_outside limit a un w :
  heap w !! a = None →
  _unpack_stores_from_object (S limit) (VRef a) un w
    = (Ok (VRef a, []), w, []).
Proof.
  intros H. cbn [_unpack_stores_from_object].
  rewrite !no_react_run, bind_get_heap. simpl. rewrite H.
  rewrite ObjectProxy_target_not_Store by (simpl; by rewrite H).
  destruct un; rewrite bind_lift_Ok; simpl; rewrite H; simpl;
    by rewrite set_reactive_restore.
Qed.

Lemma frame_refl w : frame w w.
Proof. by repeat split. Qed.

Lemma frame_trans w1 w2 w3 : frame w1 w2 → frame w2 w3 → frame w1 w3.
Proof.
  intros (?&?&?&?&?) (?&?&?&?&?). repeat split; try congruence.
  by etrans.
Qed.

Lemma frame_alloc w o : frame w (alloc o w).1.2.
Proof. repeat split; simpl; try done. apply alloc_extends. Qed.

(** A scope that suspends reactivity hands back a world in the frame of
    the one it started from when its body stays in the frame. *)
Lemma frame_no_react w w1 :
  frame (set_reactive false w) w1 → frame w (set_reactive (reactive w) w1).
Proof. intros (?&?&?&?&?). by repeat split. Qed.

(** ** Trees: induction and reading *)

Lemma tree_ind' (P : tree → Prop) :
  (∀ c, P (TScalar c)) →
  (∀ a, P (TIterator a)) →
  (∀ a t, P t → P (TStore a t)) →
  (∀ ts, Forall P ts → P (TList ts)) →
  (∀ ts, Forall P ts → P (TTuple ts)) →
  (∀ kvs, Forall (λ kv, P kv.1 ∧ P kv.2) kvs → P (TDict kvs)) →
  ∀ t, P t.
Proof.
  intros Hs Hi Hst Hl Ht Hd.
  fix IH 1. intros [c|a|a t|ts|ts|kvs].
  - apply Hs.
  - apply Hi.
  - apply Hst, IH.
  - apply Hl. induction ts as [|t ts IHts]; constructor; [apply IH|apply IHts].
  - apply Ht. induction ts as [|t ts IHts]; constructor; [apply IH|apply IHts].
  - apply Hd. induction kvs as [|[k v] kvs IHkvs]; constructor;
      [split; apply IH|apply IHkvs].
Qed.

Lemma opt_mapM_cons_Some {A B} (f : A → option B) x xs ys :
  opt_mapM f (x :: xs) = Some ys →
  ∃ y ys', ys = y :: ys' ∧ f x = Some y ∧ opt_mapM f xs = Some ys'.
Proof.
  simpl. destruct (f x) as [y|]; [|done].
  destruct (opt_mapM f xs) as [ys'|]; [|done].
  intros [= <-]. eauto.
Qed.

Lemma opt_mapM_mono {A B} (f g : A → option B) xs ys :
  (∀ x y, f x = Some y → g x = Some y) →
  opt_mapM f xs = Some ys → opt_mapM g xs = Some ys.
Proof.
  intros Hfg. revert ys. induction xs as [|x xs IH]; intros ys H; [done|].
  apply opt_mapM_cons_Some in H as (y & ys' & -> & Hx & Hxs).
  simpl. by rewrite (Hfg _ _ Hx), (IH _ Hxs).
Qed.

Lemma opt_mapM_app {A B} (f : A → option B) xs1 xs2 ys1 ys2 :
  opt_mapM f xs1 = Some ys1 → opt_mapM f xs2 = Some ys2 →
  opt_mapM f (xs1 ++ xs2) = Some (ys1 ++ ys2).
Proof.
  revert ys1. induction xs1 as [|x xs1 IH]; intros ys1 H1 H2.
  - by injection H1 as <-.
  - apply opt_mapM_cons_Some in H1 as (y & ys' & -> & Hx & Hxs).
    simpl. by rewrite Hx, (IH _ Hxs H2).
Qed.

Lemma read_pair_mono {A B} (f g : A → option B) kv r :
  (∀ x y, f x = Some y → g x = Some y) →
  read_pair f kv = Some r → read_pair g kv = Some r.
Proof.
  intros Hfg. unfold read_pair.
  destruct (f kv.1) as [k|] eqn:Ek; [|done].
  destruct (f kv.2) as [v|] eqn:Ev; [|done].
  intros [= <-]. by rewrite (Hfg _ _ Ek), (Hfg _ _ Ev).
Qed.

(** A tree read in a heap is read in every larger heap ... *)
Lemma read_tree_heap_mono n h h' v t :
  h ⊆ h' → read_tree n h v = Some t → read_tree n h' v = Some t.
Proof.
  intros Hsub. revert v t. induction n as [|n IH]; intros v t; [done|].
  simpl. destruct v as [c|a]; [done|].
  destruct (h !! a) as [o|] eqn:Ha; [|done].
  rewrite (lookup_weaken _ _ _ _ Ha Hsub).
  destruct o as [xs|xs|d|it|s]; try done.
  - destruct (opt_mapM (read_tree n h) xs) as [ts|] eqn:E; [|done].
    by rewrite (opt_mapM_mono _ _ _ _ IH E).
  - destruct (opt_mapM (read_tree n h) xs) as [ts|] eqn:E; [|done].
    by rewrite (opt_mapM_mono _ _ _ _ IH E).
  - destruct (opt_mapM (read_pair (read_tree n h)) d) as [ts|] eqn:E; [|done].
    rewrite (opt_mapM_mono _ (read_pair (read_tree n h')) _ _
               (λ kv r, read_pair_mono _ _ kv r IH) E). done.
  - destruct (read_tree n h (__wrapped__ s)) as [t'|] eqn:E; [|done].
    by rewrite (IH _ _ E).
Qed.

Lemma read_tree_unfold n h v :
  read_tree (S n) h v =
    match v with
    | VScalar c => Some (TScalar c)
    | VRef a =>
        match h !! a with
        | Some (OStore s) => TStore a <$> read_tree n h (__wrapped__ s)
        | Some (OList xs) => TList <$> opt_mapM (read_tree n h) xs
        | Some (OTuple xs) => TTuple <$> opt_mapM (read_tree n h) xs
        | Some (ODict d) => TDict <$> opt_mapM (read_pair (read_tree n h)) d
        | Some (OIterator _) => Some (TIterator a)
        | None => None
        end
    end.
Proof. reflexivity. Qed.

(** ... and with every larger allowance of depth. *)
Lemma read_tree_S n h v t :
  read_tree n h v = Some t → read_tree (S n) h v = Some t.
Proof.
  revert v t. induction n as [|n IH]; intros v t; [done|].
  intros H. rewrite read_tree_unfold in H. rewrite read_tree_unfold.
  destruct v as [c|a]; [done|].
  destruct (h !! a) as [[xs|xs|d|it|s]|] eqn:Ha; try done.
  - destruct (opt_mapM (read_tree n h) xs) as [ts|] eqn:E; [|done].
    by rewrite (opt_mapM_mono _ _ _ _ IH E).
  - destruct (opt_mapM (read_tree n h) xs) as [ts|] eqn:E; [|done].
    by rewrite (opt_mapM_mono _ _ _ _ IH E).
  - destruct (opt_mapM (read_pair (read_tree n h)) d) as [ts|] eqn:E; [|done].
    rewrite (opt_mapM_mono _ (read_pair (read_tree (S n) h)) _ _
               (λ kv r, read_pair_mono _ _ kv r IH) E). done.
  - destruct (read_tree n h (__wrapped__ s)) as [t'|] eqn:E; [|done].
    by rewrite (IH _ _ E).
Qed.

Lemma read_tree_fuel_mono (n m : nat) h v t :
  (n ≤ m)%nat → read_tree n h v = Some t → read_tree m h v = Some t.
Proof. induction 1; [done|]. intros Hr. by apply read_tree_S, IHle. Qed.

Lemma strip_store_free t : store_free (strip t) = true.
Proof.
  induction t as [c|a|a t IH|ts IH|ts IH|kvs IH] using tree_ind'; simpl;
    try done.
  - induction IH as [|t ts Ht _ IHts]; simpl; [done|]. by rewrite Ht, IHts.
  - induction IH as [|t ts Ht _ IHts]; simpl; [done|]. by rewrite Ht, IHts.
  - induction IH as [|[k v] kvs [Hk Hv] _ IHkvs]; simpl in *; [done|].
    by rewrite Hk, Hv, IHkvs.
Qed.

Lemma store_free_strip t : store_free t = true → strip t = t.
Proof.
  induction t as [c|a|a t IH|ts IH|ts IH|kvs IH] using tree_ind'; simpl;
    try done.
  - intros H. f_equal. induction IH as [|t ts Ht _ IHts]; simpl in *; [done|].
    apply andb_prop in H as [H1 H2]. by rewrite (Ht H1), (IHts H2).
  - intros H. f_equal. induction IH as [|t ts Ht _ IHts]; simpl in *; [done|].
    apply andb_prop in H as [H1 H2]. by rewrite (Ht H1), (IHts H2).
  - intros H. f_equal.
    induction IH as [|[k v] kvs [Hk Hv] _ IHkvs]; simpl in *; [done|].
    apply andb_prop in H as [[H1 H1']%andb_prop H2].
    by rewrite (Hk H1), (Hv H1'), (IHkvs H2).
Qed.

Lemma store_free_stores_deep t : store_free t = true → stores_deep t = [].
Proof.
  induction t as [c|a|a t IH|ts IH|ts IH|kvs IH] using tree_ind'; simpl;
    try done.
  - intros H. induction IH as [|t ts Ht _ IHts]; simpl in *; [done|].
    apply andb_prop in H as [H1 H2]. by rewrite (Ht H1), (IHts H2).
  - intros H. induction IH as [|t ts Ht _ IHts]; simpl in *; [done|].
    apply andb_prop in H as [H1 H2]. by rewrite (Ht H1), (IHts H2).
  - intros H.
    induction IH as [|[k v] kvs [Hk Hv] _ IHkvs]; simpl in *; [done|].
    apply andb_prop in H as [[H1 H1']%andb_prop H2].
    by rewrite (Hk H1), (Hv H1'), (IHkvs H2).
Qed.

(** On a tree with no Store inside a Store the two modes agree. *)
Lemma flat_raw_strip t : flat t = true → raw_of t = strip t.
Proof.
  induction t as [c|a|a t IH|ts IH|ts IH|kvs IH] using tree_ind'; simpl;
    try done.
  - intros H. by rewrite store_free_strip.
  - intros H. f_equal. induction IH as [|t ts Ht _ IHts]; simpl in *; [done|].
    apply andb_prop in H as [H1 H2]. by rewrite (Ht H1), (IHts H2).
  - intros H. f_equal. induction IH as [|t ts Ht _ IHts]; simpl in *; [done|].
    apply andb_prop in H as [H1 H2]. by rewrite (Ht H1), (IHts H2).
  - intros H. f_equal.
    induction IH as [|[k v] kvs [Hk Hv] _ IHkvs]; simpl in *; [done|].
    apply andb_prop in H as [[H1 H1']%andb_prop H2].
    by rewrite (Hk H1), (Hv H1'), (IHkvs H2).
Qed.

Lemma flat_stores_deep t : flat t = true → stores_deep t = stores_of t.
Proof.
  induction t as [c|a|a t IH|ts IH|ts IH|kvs IH] using tree_ind'; simpl;
    try done.
  - intros H. by rewrite store_free_stores_deep.
  - intros H. induction IH as [|t ts Ht _ IHts]; simpl in *; [done|].
    apply andb_prop in H as [H1 H2]. by rewrite (Ht H1), (IHts H2).
  - intros H. induction IH as [|t ts Ht _ IHts]; simpl in *; [done|].
    apply andb_prop in H as [H1 H2]. by rewrite (Ht H1), (IHts H2).
  - intros H.
    induction IH as [|[k v] kvs [Hk Hv] _ IHkvs]; simpl in *; [done|].
    apply andb_prop in H as [[H1 H1']%andb_prop H2].
    by rewrite (Hk H1), (Hv H1'), (IHkvs H2).
Qed.

Lemma store_free_proper t : store_free t = true → proper t = true.
Proof.
  induction t as [c|a|a t IH|ts IH|ts IH|kvs IH] using tree_ind'; simpl;
    try done.
  - intros H. induction IH as [|t ts Ht _ IHts]; simpl in *; [done|].
    apply andb_prop in H as [H1 H2]. by rewrite (Ht H1), (IHts H2).
  - intros H. induction IH as [|t ts Ht _ IHts]; simpl in *; [done|].
    apply andb_prop in H as [H1 H2]. by rewrite (Ht H1), (IHts H2).
  - intros H.
    induction IH as [|[k v] kvs [Hk Hv] _ IHkvs]; simpl in *; [done|].
    apply andb_prop in H as [[H1 H1']%andb_prop H2].
    by rewrite (Hk H1), (Hv H1'), (IHkvs H2).
Qed.

Lemma flat_proper t : flat t = true → proper t = true.
Proof.
  induction t as [c|a|a t IH|ts IH|ts IH|kvs IH] using tree_ind'; simpl;
    try done.
  - intros H. rewrite (store_free_proper _ H), andb_true_r.
    by destruct t.
  - intros H. induction IH as [|t ts Ht _ IHts]; simpl in *; [done|].
    apply andb_prop in H as [H1 H2]. by rewrite (Ht H1), (IHts H2).
  - intros H. induction IH as [|t ts Ht _ IHts]; simpl in *; [done|].
    apply andb_prop in H as [H1 H2]. by rewrite (Ht H1), (IHts H2).
  - intros H.
    induction IH as [|[k v] kvs [Hk Hv] _ IHkvs]; simpl in *; [done|].
    apply andb_prop in H as [[H1 H1']%andb_prop H2].
    by rewrite (Hk H1), (Hv H1'), (IHkvs H2).
Qed.

Lemma scalar_eq_refl c : scalar_eq c c = true.
Proof.
  destruct c as [|b|z|s]; simpl; try done.
  - by destruct b.
  - apply Z.eqb_refl.
  - apply String.eqb_refl.
Qed.

Lemma tree_key_eq_refl t :
  hashable_tree t = true → store_free t = true → tree_key_eq t t = true.
Proof.
  induction t as [c|a|a t IH|ts IH|ts IH|kvs IH] using tree_ind'; simpl;
    try done.
  - intros _ _. apply scalar_eq_refl.
  - intros _ _. by apply bool_decide_eq_true.
  - induction IH as [|t ts Ht _ IHts]; simpl; [done|].
    intros [H1 H2]%andb_prop [H3 H4]%andb_prop.
    by rewrite (Ht H1 H3), (IHts H2 H4).
Qed.

(** ** Keys: the heap-level tests agree with the trees *)

Lemma key_eq_unfold limit h k0 k :
  key_eq (S limit) h k0 k =
    match as_Store h k0, as_Store h k with
    | Some (_, s), _ => key_eq limit h (__wrapped__ s) k
    | None, Some (_, t) => key_eq limit h k0 (__wrapped__ t)
    | None, None =>
        match k0, k with
        | VScalar c, VScalar d => Ok (scalar_eq c d)
        | VRef a, VRef b =>
            if bool_decide (a = b) then Ok true
            else
              match h !! a, h !! b with
              | Some (OTuple xs), Some (OTuple ys) =>
                  seq_eq (key_eq limit h) xs ys
              | _, _ => Ok false
              end
        | _, _ => Ok false
        end
    end.
Proof. reflexivity. Qed.

Lemma py_hash_unfold bh limit h obj :
  py_hash bh (S limit) h obj =
    match obj with
    | VScalar c => Ok (hash_scalar bh c)
    | VRef a =>
        match h !! a with
        | Some (OStore s) => py_hash bh limit h (__wrapped__ s)
        | Some (OTuple xs) =>
            res_bind (res_mapM (py_hash bh limit h) xs)
              (λ hs, Ok (hash_tuple bh hs))
        | Some (OList _) | Some (ODict _) => Raise TypeError
        | Some (OIterator _) | None => Ok (hash_object bh a)
        end
    end.
Proof. reflexivity. Qed.

(** A value whose tree is hashable has a hash. *)
Lemma py_hash_ok bh (n limit : nat) h v t :
  (n ≤ limit)%nat → read_tree n h v = Some t → hashable_tree t = true →
  ∃ z, py_hash bh limit h v = Ok z.
Proof.
  revert limit v t. induction n as [|n IH]; intros limit v t Hle; [done|].
  destruct limit as [|limit]; [lia|]. assert (n ≤ limit)%nat as Hle' by lia.
  rewrite read_tree_unfold, py_hash_unfold.
  destruct v as [c|a]; [eauto|].
  destruct (h !! a) as [[xs|xs|d|it|s]|]; try done.
  - destruct (opt_mapM _ xs); [|done]. by intros [= <-]. 
  - destruct (opt_mapM (read_tree n h) xs) as [ts|] eqn:E; [|done].
    intros [= <-]. simpl. intros Hh.
    assert (∃ zs, res_mapM (py_hash bh limit h) xs = Ok zs) as [zs ->];
      [|simpl; eauto].
    revert ts E Hh. induction xs as [|x xs IHxs]; intros ts E Hh; [by eexists|].
    apply opt_mapM_cons_Some in E as (t' & ts' & -> & Hx & Hxs).
    simpl in Hh. apply andb_prop in Hh as [Ht Hts].
    destruct (IH limit x t' Hle' Hx Ht) as [z Hz].
    destruct (IHxs ts' Hxs Hts) as [zs Hzs].
    simpl. rewrite Hz. simpl. rewrite Hzs. simpl. eauto.
  - destruct (opt_mapM _ d); [|done]. by intros [= <-].
  - eauto.
  - destruct (read_tree n h (__wrapped__ s)) as [t'|] eqn:E; [|done].
    intros [= <-]. simpl. intros Hh. by eapply IH.
Qed.

Lemma hashable_ok (n limit : nat) h v t :
  (n ≤ limit)%nat → read_tree n h v = Some t → hashable_tree t = true →
  hashable limit h v = Ok tt.
Proof.
  intros Hle Hr Hh. unfold hashable.
  by destruct (py_hash_ok no_hash n limit h v t Hle Hr Hh) as [z ->].
Qed.

Lemma read_tree_store_free_not_Store n h v t :
  read_tree n h v = Some t → store_free t = true → as_Store h v = None.
Proof.
  destruct n as [|n]; [done|]. rewrite read_tree_unfold.
  destruct v as [c|a]; [done|]. simpl.
  destruct (h !! a) as [[xs|xs|d|it|s]|]; try done.
  destruct (read_tree n h (__wrapped__ s)); [|done]. by intros [= <-].
Qed.

(** On hashable, Store-free keys, the dict's key test is [tree_key_eq]. *)
Lemma key_eq_ok (n limit : nat) h k0 k t0 t :
  (n ≤ limit)%nat →
  read_tree n h k0 = Some t0 → read_tree n h k = Some t →
  hashable_tree t0 = true → store_free t0 = true →
  hashable_tree t = true → store_free t = true →
  key_eq limit h k0 k = Ok (tree_key_eq t0 t).
Proof.
  revert limit k0 k t0 t.
  induction n as [|n IH]; intros limit k0 k t0 t Hle; [done|].
  destruct limit as [|limit]; [lia|]. assert (n ≤ limit)%nat as Hle' by lia.
  intros H0 H Hh0 Hs0 Hh Hs. rewrite key_eq_unfold.
  rewrite (read_tree_store_free_not_Store _ _ _ _ H0 Hs0).
  rewrite (read_tree_store_free_not_Store _ _ _ _ H Hs).
  rewrite read_tree_unfold in H0, H.
  destruct k0 as [c|a], k as [d|b].
  - injection H0 as <-. injection H as <-. done.
  - injection H0 as <-.
    destruct (h !! b) as [[xs|xs|dd|it|s]|]; try done.
    + destruct (opt_mapM _ xs); [|done]. by injection H as <-.
    + destruct (opt_mapM _ xs); [|done]. by injection H as <-.
    + destruct (opt_mapM _ dd); [|done]. by injection H as <-.
    + by injection H as <-.
    + destruct (read_tree n h (__wrapped__ s)); [|done]. by injection H as <-.
  - injection H as <-.
    destruct (h !! a) as [[xs|xs|dd|it|s]|]; try done.
    + destruct (opt_mapM _ xs); [|done]. by injection H0 as <-.
    + destruct (opt_mapM _ xs); [|done]. by injection H0 as <-.
    + destruct (opt_mapM _ dd); [|done]. by injection H0 as <-.
    + by injection H0 as <-.
    + destruct (read_tree n h (__wrapped__ s)); [|done]. by injection H0 as <-.
  - case_bool_decide as Hab.
    { subst b. rewrite H0 in H. injection H as <-.
      by rewrite tree_key_eq_refl. }
    destruct (h !! a) as [[xs|xs|dd|it|s]|] eqn:Ea; try done.
    + destruct (opt_mapM _ xs); [|done]. by injection H0 as <-.
    + destruct (opt_mapM (read_tree n h) xs) as [ts|] eqn:Exs; [|done].
      injection H0 as <-.
      destruct (h !! b) as [[ys|ys|dd|it|s]|] eqn:Eb; try done.
      * destruct (opt_mapM _ ys); [|done]. by injection H as <-.
      * destruct (opt_mapM (read_tree n h) ys) as [us|] eqn:Eys; [|done].
        injection H as <-. simpl in *.
        clear Ea Eb Hab. revert ys ts us Exs Eys Hh0 Hs0 Hh Hs.
        induction xs as [|x xs IHxs]; intros ys ts us Exs Eys Hh0 Hs0 Hh Hs.
        { injection Exs as <-. destruct ys as [|y ys]; [by injection Eys as <-|].
          apply opt_mapM_cons_Some in Eys as (u & us' & -> & _ & _). done. }
        apply opt_mapM_cons_Some in Exs as (t1 & ts' & -> & Hx & Hxs).
        destruct ys as [|y ys]; [by injection Eys as <-|].
        apply opt_mapM_cons_Some in Eys as (u & us' & -> & Hy & Hys).
        simpl in *.
        apply andb_prop in Hh0 as [Hh1 Hh0]. apply andb_prop in Hs0 as [Hs1 Hs0].
        apply andb_prop in Hh as [Hh2 Hh]. apply andb_prop in Hs as [Hs2 Hs].
        rewrite (IH limit x y t1 u Hle' Hx Hy Hh1 Hs1 Hh2 Hs2). simpl.
        destruct (tree_key_eq t1 u); [|done]. simpl.
        by apply IHxs.
      * destruct (opt_mapM _ dd); [|done]. by injection H as <-.
      * by injection H as <-.
      * destruct (read_tree n h (__wrapped__ s)); [|done]. by injection H as <-.
    + destruct (opt_mapM _ dd); [|done]. by injection H0 as <-.
    + injection H0 as <-.
      destruct (h !! b) as [[ys|ys|dd|it'|s]|] eqn:Eb; try done.
      * destruct (opt_mapM _ ys); [|done]. by injection H as <-.
      * destruct (opt_mapM _ ys); [|done]. by injection H as <-.
      * destruct (opt_mapM _ dd); [|done]. by injection H as <-.
      * injection H as <-. simpl. by rewrite bool_decide_eq_false_2.
      * destruct (read_tree n h (__wrapped__ s)); [|done]. by injection H as <-.
    + destruct (read_tree n h (__wrapped__ s)); [|done]. by injection H0 as <-.
Qed.

Lemma dict_insert_new (n limit : nat) h acc tacc k v tk :
  (n ≤ limit)%nat →
  opt_mapM (read_pair (read_tree n h)) acc = Some tacc →
  forallb (λ kv, hashable_tree kv.1 && store_free kv.1) tacc = true →
  forallb (λ k0, negb (tree_key_eq k0 tk)) (map fst tacc) = true →
  read_tree n h k = Some tk →
  hashable_tree tk = true → store_free tk = true →
  dict_insert (key_eq limit h) acc k v = Ok (acc ++ [(k, v)]).
Proof.
  intros Hle Hacc Hok Hne Hk Hh Hs. revert tacc Hacc Hok Hne.
  induction acc as [|[k0 v0] acc IH]; intros tacc Hacc Hok Hne; [done|].
  apply opt_mapM_cons_Some in Hacc as ([tk0 tv0] & tacc' & -> & Hkv & Hacc).
  unfold read_pair in Hkv. simpl in Hkv.
  destruct (read_tree n h k0) as [tk0'|] eqn:Hk0; [|done].
  destruct (read_tree n h v0) as [tv0'|]; [|done].
  injection Hkv as -> ->. simpl in Hok, Hne.
  apply andb_prop in Hok as [[Hh0 Hs0]%andb_prop Hok].
  apply andb_prop in Hne as [Hne0 Hne].
  simpl. rewrite (key_eq_ok n limit h k0 k tk0 tk Hle Hk0 Hk Hh0 Hs0 Hh Hs).
  simpl. apply negb_true_iff in Hne0. rewrite Hne0.
  by rewrite (IH tacc' Hacc Hok Hne).
Qed.

Lemma distinct_keys_middle ks k ks' :
  distinct_keys (ks ++ k :: ks') = true →
  forallb (λ k0, negb (tree_key_eq k0 k)) ks = true.
Proof.
  induction ks as [|k0 ks IH]; simpl; [done|].
  intros [H1 H2]%andb_prop. rewrite (IH H2), andb_true_r.
  rewrite forallb_app in H1. apply andb_prop in H1 as [_ H1].
  simpl in H1. by apply andb_prop in H1 as [H1 _].
Qed.

(** ** The loops of the unpacker on readable arguments *)

Section Loops.
(** The mode at hand: what a tree unpacks to, the Stores it yields, and
    the trees it is sound on, where unpacking removes every Store. *)
Variable raw : tree → tree.
Variable stores : tree → list addr.
Variable ok : tree → bool.
Hypothesis ok_strip : ∀ t, ok t = true → raw t = strip t.

Variable n : nat.
Variable f : value → M (value * list addr).
Hypothesis f_reads : ∀ x t w,
  read_tree n (heap w) x = Some t → ok t = true →
  ∃ x' w',
    f x w = (Ok (x', stores t), w', [])
    ∧ read_tree n (heap w') x' = Some (raw t)
    ∧ frame w w'.

Lemma unpack_seq_reads xs : ∀ ts w acc sacc,
  opt_mapM (read_tree n (heap w)) xs = Some ts →
  forallb ok ts = true →
  ∃ us w',
    unpack_seq f xs acc sacc w
      = (Ok (acc ++ us, sacc ++ concat (map stores ts)), w', [])
    ∧ opt_mapM (read_tree n (heap w')) us = Some (map raw ts)
    ∧ frame w w'.
Proof.
  induction xs as [|x xs IH]; intros ts w acc sacc Hr Hfl.
  - injection Hr as <-. exists [], w. simpl. rewrite !app_nil_r.
    split; [done|]. split; [done|apply frame_refl].
  - apply opt_mapM_cons_Some in Hr as (t & ts' & -> & Hx & Hxs).
    simpl in Hfl. apply andb_prop in Hfl as [Hfl1 Hfl].
    destruct (f_reads x t w Hx Hfl1) as (x' & w1 & Hrun & Hx' & Hfr1).
    destruct (IH ts' w1 (acc ++ [x']) (sacc ++ stores t))
      as (us & w2 & Hrun2 & Hus & Hfr2); try done.
    { eapply opt_mapM_mono; [|exact Hxs].
      intros ??. apply read_tree_heap_mono, Hfr1. }
    exists (x' :: us), w2. cbn [unpack_seq].
    rewrite (bind_Ok _ _ w w1 (x', stores t) []) by done.
    simpl. rewrite Hrun2. simpl.
    rewrite <- !app_assoc. simpl. split; [done|]. split.
    + rewrite (read_tree_heap_mono _ _ _ _ _ (proj1 Hfr2) Hx').
      by rewrite Hus.
    + by eapply frame_trans.
Qed.

Lemma unpack_items_reads (limit : nat) kvs : (n ≤ limit)%nat →
  ∀ tkvs w acc sacc tacc,
  opt_mapM (read_pair (read_tree n (heap w))) kvs = Some tkvs →
  forallb (λ kv, ok kv.1 && ok kv.2) tkvs = true →
  forallb (λ kv, hashable_tree (strip kv.1)) tkvs = true →
  distinct_keys (map fst tacc ++ map (λ kv, strip kv.1) tkvs) = true →
  forallb (λ kv, hashable_tree kv.1 && store_free kv.1) tacc = true →
  opt_mapM (read_pair (read_tree n (heap w))) acc = Some tacc →
  ∃ us w',
    unpack_items f limit kvs acc sacc w
      = (Ok (acc ++ us,
             sacc ++ concat (map (λ kv, stores kv.1 ++ stores kv.2) tkvs)),
         w', [])
    ∧ opt_mapM (read_pair (read_tree n (heap w'))) (acc ++ us)
      = Some (tacc ++ map (λ kv, (raw kv.1, raw kv.2)) tkvs)
    ∧ frame w w'.
Proof.
  intros Hle.
  induction kvs as [|[k v] kvs IH];
    intros tkvs w acc sacc tacc Hr Hfl Hh Hdist Hacc_ok Hacc.
  - injection Hr as <-. exists [], w. simpl. rewrite !app_nil_r.
    split; [done|]. split; [done|apply frame_refl].
  - apply opt_mapM_cons_Some in Hr as ([tk tv] & tkvs' & -> & Hkv & Hkvs).
    unfold read_pair in Hkv. simpl in Hkv.
    destruct (read_tree n (heap w) k) as [tk'|] eqn:Hk; [|done].
    destruct (read_tree n (heap w) v) as [tv'|] eqn:Hv; [|done].
    injection Hkv as -> ->.
    simpl in Hfl, Hh, Hdist.
    apply andb_prop in Hfl as [[Hflk Hflv]%andb_prop Hfl].
    apply andb_prop in Hh as [Hhk Hh].
    destruct (f_reads k tk w Hk Hflk) as (k' & w1 & Hrun1 & Hk' & Hfr1).
    pose proof (read_tree_heap_mono _ _ _ _ _ (proj1 Hfr1) Hv) as Hv1.
    destruct (f_reads v tv w1 Hv1 Hflv) as (v' & w2 & Hrun2 & Hv' & Hfr2).
    pose proof (frame_trans _ _ _ Hfr1 Hfr2) as Hfr12.
    pose proof (read_tree_heap_mono _ _ _ _ _ (proj1 Hfr2) Hk') as Hk2.
    assert (Hacc2 : opt_mapM (read_pair (read_tree n (heap w2))) acc
                    = Some tacc).
    { eapply opt_mapM_mono; [|exact Hacc]. intros ??.
      apply read_pair_mono. intros ??.
      apply read_tree_heap_mono, Hfr12. }
    assert (Hkvs2 : opt_mapM (read_pair (read_tree n (heap w2))) kvs
                    = Some tkvs').
    { eapply opt_mapM_mono; [|exact Hkvs]. intros ??.
      apply read_pair_mono. intros ??.
      apply read_tree_heap_mono, Hfr12. }
    pose proof (ok_strip _ Hflk) as Hrk.
    pose proof (strip_store_free tk) as Hsk.
    rewrite <- Hrk in Hhk, Hsk, Hdist.
    assert (Hins : dict___setitem__ limit (heap w2) acc k' v'
                   = Ok (acc ++ [(k', v')])).
    { unfold dict___setitem__.
      rewrite (hashable_ok n limit _ _ _ Hle Hk2 Hhk). simpl.
      eapply (dict_insert_new n limit); try done.
      by eapply distinct_keys_middle. }
    destruct (IH tkvs' w2 (acc ++ [(k', v')])
                (sacc ++ stores tk ++ stores tv)
                (tacc ++ [(raw tk, raw tv)]))
      as (us & w3 & Hrun3 & Hus & Hfr3); try done.
    { rewrite map_app, <- app_assoc. done. }
    { rewrite forallb_app. simpl. by rewrite Hacc_ok, Hhk, Hsk. }
    { apply opt_mapM_app; [done|]. simpl. unfold read_pair. simpl.
      by rewrite Hk2, Hv'. }
    exists ((k', v') :: us), w3. cbn [unpack_items].
    rewrite (bind_Ok _ _ w w1 (k', stores tk) []) by done. simpl.
    rewrite (bind_Ok _ _ w1 w2 (v', stores tv) []) by done. simpl.
    rewrite bind_get_heap, Hins, bind_lift_Ok, Hrun3. simpl.
    rewrite <- !app_assoc in *. simpl in *. split; [done|]. split; [done|].
    by eapply frame_trans.
Qed.
End Loops.

(** ** Unpacking a readable argument *)

Lemma ObjectProxy_target_wrapped (limit : nat) h a s :
  (0 < limit)%nat → h !! a = Some (OStore s) →
  as_Store h (__wrapped__ s) = None →
  ObjectProxy_target limit h (VRef a) = Ok (__wrapped__ s).
Proof.
  intros Hpos Ha Hn. destruct limit as [|limit]; [lia|].
  cbn [ObjectProxy_target]. rewrite (as_Store_Some _ _ _ Ha).
  by apply ObjectProxy_target_not_Store.
Qed.

(** The Store that wraps a container, with [unpack_nested=True]. *)
Lemma unpack_Store_deep_list (limit : nat) a s b xs w :
  (0 < limit)%nat →
  heap w !! a = Some (OStore s) → __wrapped__ s = VRef b →
  heap w !! b = Some (OList xs) →
  _unpack_stores_from_object (S limit) (VRef a) true w =
    no_react
      (let! (unpacked, stores) :=
         unpack_seq (λ x, _unpack_stores_from_object limit x true)
           xs [] [] in
       let! a' := alloc (OList unpacked) in
       ret (VRef a', stores ++ [a])) w.
Proof.
  intros Hpos Ha Hw Hb. cbn [_unpack_stores_from_object].
  rewrite !no_react_run, bind_get_heap.
  change (heap (set_reactive false w)) with (heap w).
  rewrite (as_Store_Some _ _ _ Ha).
  rewrite (ObjectProxy_target_wrapped _ _ _ _ Hpos Ha)
    by (rewrite Hw; simpl; by rewrite Hb).
  rewrite bind_lift_Ok, Hw. cbn [type_ seq_items]. rewrite Hb. reflexivity.
Qed.

Lemma unpack_Store_deep_tuple (limit : nat) a s b xs w :
  (0 < limit)%nat →
  heap w !! a = Some (OStore s) → __wrapped__ s = VRef b →
  heap w !! b = Some (OTuple xs) →
  _unpack_stores_from_object (S limit) (VRef a) true w =
    no_react
      (let! (unpacked, stores) :=
         unpack_seq (λ x, _unpack_stores_from_object limit x true)
           xs [] [] in
       let! a' := alloc (OTuple unpacked) in
       ret (VRef a', stores ++ [a])) w.
Proof.
  intros Hpos Ha Hw Hb. cbn [_unpack_stores_from_object].
  rewrite !no_react_run, bind_get_heap.
  change (heap (set_reactive false w)) with (heap w).
  rewrite (as_Store_Some _ _ _ Ha).
  rewrite (ObjectProxy_target_wrapped _ _ _ _ Hpos Ha)
    by (rewrite Hw; simpl; by rewrite Hb).
  rewrite bind_lift_Ok, Hw. cbn [type_ seq_items]. rewrite Hb. reflexivity.
Qed.

Lemma unpack_Store_deep_dict (limit : nat) a s b d w :
  (0 < limit)%nat →
  heap w !! a = Some (OStore s) → __wrapped__ s = VRef b →
  heap w !! b = Some (ODict d) →
  _unpack_stores_from_object (S limit) (VRef a) true w =
    no_react
      (let! (unpacked, stores) :=
         unpack_items (λ x, _unpack_stores_from_object limit x true)
           limit d [] [] in
       let! a' := alloc (ODict unpacked) in
       ret (VRef a', stores ++ [a])) w.
Proof.
  intros Hpos Ha Hw Hb. cbn [_unpack_stores_from_object].
  rewrite !no_react_run, bind_get_heap.
  change (heap (set_reactive false w)) with (heap w).
  rewrite (as_Store_Some _ _ _ Ha).
  rewrite (ObjectProxy_target_wrapped _ _ _ _ Hpos Ha)
    by (rewrite Hw; simpl; by rewrite Hb).
  rewrite bind_lift_Ok, Hw. cbn [type_ dict_items]. rewrite Hb. reflexivity.
Qed.

(** The Store that wraps anything but a container or a Store. *)
Lemma unpack_Store_leaf (limit : nat) a s un w :
  (0 < limit)%nat →
  heap w !! a = Some (OStore s) →
  match type_ (heap w) (__wrapped__ s) with
  | Cls_list | Cls_tuple | Cls_dict | Cls_Store => False
  | _ => True
  end →
  _unpack_stores_from_object (S limit) (VRef a) un w
    = (Ok (__wrapped__ s, [a]), w, []).
Proof.
  intros Hpos Ha Hty. destruct un; [|by apply unpack_Store_shallow].
  assert (Hn : as_Store (heap w) (__wrapped__ s) = None).
  { destruct (__wrapped__ s) as [c|b]; [done|]. simpl in *.
    by destruct (heap w !! b) as [[]|]. }
  cbn [_unpack_stores_from_object].
  rewrite !no_react_run, bind_get_heap.
  change (heap (set_reactive false w)) with (heap w).
  rewrite (as_Store_Some _ _ _ Ha).
  rewrite (ObjectProxy_target_wrapped _ _ _ _ Hpos Ha Hn).
  rewrite bind_lift_Ok.
  destruct (type_ (heap w) (__wrapped__ s)); try done; simpl;
    by rewrite set_reactive_restore.
Qed.

Lemma sound_strip un t : sound un t = true → unpacked_tree un t = strip t.
Proof.
  destruct un; [done|]. intros [H _]%andb_prop. by apply flat_raw_strip.
Qed.

Lemma sound_items (un : bool) ts :
  (if un then forallb proper ts else forallb flat ts) = true →
  forallb dicts_ok ts = true →
  forallb (sound un) ts = true.
Proof.
  induction ts as [|t ts IH]; simpl; [done|]. unfold sound at 1.
  destruct un; simpl; intros [H1 H2]%andb_prop [H3 H4]%andb_prop;
    by rewrite H1, H3, IH.
Qed.

Lemma sound_entries (un : bool) (kvs : list (tree * tree)) :
  (if un then forallb (λ kv, proper kv.1 && proper kv.2) kvs
   else forallb (λ kv, flat kv.1 && flat kv.2) kvs) = true →
  forallb (λ kv, dicts_ok kv.1 && dicts_ok kv.2) kvs = true →
  forallb (λ kv, sound un kv.1 && sound un kv.2) kvs = true.
Proof.
  induction kvs as [|[k v] kvs IH]; simpl; [done|]. unfold sound at 1 2.
  destruct un; simpl;
    intros [[H1 H1']%andb_prop H2]%andb_prop [[H3 H3']%andb_prop H4]%andb_prop;
    by rewrite H1, H1', H3, H3', IH.
Qed.

Lemma read_tree_alloc_list n w us ts b :
  opt_mapM (read_tree n (heap w)) us = Some ts →
  read_tree (S n) (heap (set_reactive b (alloc (OList us) w).1.2))
    (VRef (fresh (dom (heap w)))) = Some (TList ts).
Proof.
  intros H. rewrite read_tree_unfold. simpl. rewrite lookup_insert_eq.
  erewrite opt_mapM_mono; [| |exact H]; [done|].
  intros ??. apply read_tree_heap_mono, alloc_extends.
Qed.

Lemma read_tree_alloc_tuple n w us ts b :
  opt_mapM (read_tree n (heap w)) us = Some ts →
  read_tree (S n) (heap (set_reactive b (alloc (OTuple us) w).1.2))
    (VRef (fresh (dom (heap w)))) = Some (TTuple ts).
Proof.
  intros H. rewrite read_tree_unfold. simpl. rewrite lookup_insert_eq.
  erewrite opt_mapM_mono; [| |exact H]; [done|].
  intros ??. apply read_tree_heap_mono, alloc_extends.
Qed.

Lemma read_tree_alloc_dict n w us ts b :
  opt_mapM (read_pair (read_tree n (heap w))) us = Some ts →
  read_tree (S n) (heap (set_reactive b (alloc (ODict us) w).1.2))
    (VRef (fresh (dom (heap w)))) = Some (TDict ts).
Proof.
  intros H. rewrite read_tree_unfold. simpl. rewrite lookup_insert_eq.
  erewrite opt_mapM_mono; [| |exact H]; [done|].
  intros ??. apply read_pair_mono. intros ??.
  apply read_tree_heap_mono, alloc_extends.
Qed.

Lemma unpack_reads (n : nat) : ∀ un (limit : nat) v t w,
  (n ≤ limit)%nat →
  read_tree n (heap w) v = Some t → sound un t = true →
  ∃ v' w',
    _unpack_stores_from_object limit v un w = (Ok (v', collected un t), w', [])
    ∧ read_tree n (heap w') v' = Some (unpacked_tree un t)
    ∧ frame w w'.
Proof.
  induction n as [|n IH]; intros un limit v t w Hle Hr Hok; [done|].
  destruct limit as [|limit]; [lia|]. assert (n ≤ limit)%nat as Hle' by lia.
  pose proof (sound_strip un) as ok_strip.
  assert (f_reads : ∀ x t w,
    read_tree n (heap w) x = Some t → sound un t = true →
    ∃ x' w',
      _unpack_stores_from_object limit x un w = (Ok (x', collected un t), w', [])
      ∧ read_tree n (heap w') x' = Some (unpacked_tree un t)
      ∧ frame w w') by (intros; by apply IH).
  rewrite read_tree_unfold in Hr. destruct v as [c|a].
  { injection Hr as <-. exists (VScalar c), w. rewrite unpack_scalar.
    split; [by destruct un|]. split; [by destruct un|apply frame_refl]. }
  unfold sound in Hok. apply andb_prop in Hok as [Hfl Hd].
  destruct (heap w !! a) as [[xs|xs|d|it|s]|] eqn:Ha; [| | | | |done].
  - (* list *)
    destruct (opt_mapM (read_tree n (heap w)) xs) as [ts|] eqn:E; [|done].
    injection Hr as <-. simpl in Hd.
    assert (Hoks : forallb (sound un) ts = true)
      by (apply sound_items; [by destruct un|done]).
    destruct (unpack_seq_reads (unpacked_tree un) (collected un) (sound un)
                n _ f_reads xs ts (set_reactive false w) [] [])
      as (us & w1 & Hrun & Hus & Hfr); [done|done|].
    rewrite (unpack_list _ _ _ _ _ Ha), no_react_run.
    rewrite (bind_Ok _ _ _ w1 (us, concat (map (collected un) ts)) [])
      by done.
    simpl. rewrite app_nil_r. do 2 eexists.
    split; [by destruct un|]. split.
    + destruct un; by apply read_tree_alloc_list.
    + apply frame_no_react. eapply frame_trans; [exact Hfr|].
      apply (frame_alloc w1).
  - (* tuple *)
    destruct (opt_mapM (read_tree n (heap w)) xs) as [ts|] eqn:E; [|done].
    injection Hr as <-. simpl in Hd.
    assert (Hoks : forallb (sound un) ts = true)
      by (apply sound_items; [by destruct un|done]).
    destruct (unpack_seq_reads (unpacked_tree un) (collected un) (sound un)
                n _ f_reads xs ts (set_reactive false w) [] [])
      as (us & w1 & Hrun & Hus & Hfr); [done|done|].
    rewrite (unpack_tuple _ _ _ _ _ Ha), no_react_run.
    rewrite (bind_Ok _ _ _ w1 (us, concat (map (collected un) ts)) [])
      by done.
    simpl. rewrite app_nil_r. do 2 eexists.
    split; [by destruct un|]. split.
    + destruct un; by apply read_tree_alloc_tuple.
    + apply frame_no_react. eapply frame_trans; [exact Hfr|].
      apply (frame_alloc w1).
  - (* dict *)
    destruct (opt_mapM (read_pair (read_tree n (heap w))) d) as [tkvs|] eqn:E;
      [|done].
    injection Hr as <-. simpl in Hd.
    apply andb_prop in Hd as [[Hd Hh]%andb_prop Hdist].
    assert (Hoks : forallb (λ kv, sound un kv.1 && sound un kv.2) tkvs = true)
      by (apply sound_entries; [by destruct un|done]).
    destruct (unpack_items_reads (unpacked_tree un) (collected un) (sound un)
                ok_strip n _ f_reads limit d Hle' tkvs
                (set_reactive false w) [] [] [])
      as (us & w1 & Hrun & Hus & Hfr); try done.
    rewrite (unpack_dict _ _ _ _ _ Ha), no_react_run.
    rewrite (bind_Ok _ _ _ w1
               (us, concat (map (λ kv, collected un kv.1 ++ collected un kv.2)
                              tkvs))
               []) by done.
    simpl. rewrite app_nil_r. do 2 eexists.
    split; [by destruct un|]. split.
    + destruct un; by apply read_tree_alloc_dict.
    + apply frame_no_react. eapply frame_trans; [exact Hfr|].
      apply (frame_alloc w1).
  - (* iterator *)
    injection Hr as <-. exists (VRef a), w.
    rewrite (unpack_iterator _ _ _ _ _ Ha). split; [by destruct un|].
    split; [|apply frame_refl]. rewrite read_tree_unfold, Ha. by destruct un.
  - (* Store *)
    destruct (read_tree n (heap w) (__wrapped__ s)) as [t'|] eqn:E; [|done].
    injection Hr as <-. destruct un.
    2:{ exists (__wrapped__ s), w.
        rewrite (unpack_Store_shallow _ _ _ _ Ha). split; [done|].
        split; [|apply frame_refl]. by apply read_tree_S. }
    simpl in Hfl, Hd. apply andb_prop in Hfl as [Hns Hpr].
    destruct n as [|n1]; [done|]. assert (0 < limit)%nat as Hpos by lia.
    pose proof E as E'. rewrite read_tree_unfold in E'.
    destruct (__wrapped__ s) as [c|b] eqn:Hw.
    { injection E' as <-. exists (VScalar c), w.
      rewrite (unpack_Store_leaf _ _ s) by (by rewrite ?Hw; try destruct c).
      rewrite Hw. split; [done|]. split; [done|apply frame_refl]. }
    destruct (heap w !! b) as [[xs|xs|d|it|s']|] eqn:Hb; [| | | | |done].
    + (* wraps a list *)
      destruct (opt_mapM (read_tree n1 (heap w)) xs) as [ts|] eqn:Exs; [|done].
      injection E' as <-. simpl in Hpr, Hd.
      assert (Hoks : forallb (sound true) ts = true) by by apply sound_items.
      destruct (unpack_seq_reads strip stores_deep (sound true)
                  (S n1) _ f_reads xs ts (set_reactive false w) [] [])
        as (us & w1 & Hrun & Hus & Hfr); [|done|].
      { eapply opt_mapM_mono; [|exact Exs]. intros ??. apply read_tree_S. }
      rewrite (unpack_Store_deep_list _ _ _ _ _ _ Hpos Ha Hw Hb), no_react_run.
      rewrite (bind_Ok _ _ _ w1 (us, concat (map stores_deep ts)) []) by done.
      exists (VRef (fresh (dom (heap w1)))),
        (set_reactive (reactive w) (alloc (OList us) w1).1.2).
      split; [reflexivity|]. split.
      * by apply read_tree_alloc_list.
      * apply frame_no_react. eapply frame_trans; [exact Hfr|].
        apply (frame_alloc w1).
    + (* wraps a tuple *)
      destruct (opt_mapM (read_tree n1 (heap w)) xs) as [ts|] eqn:Exs; [|done].
      injection E' as <-. simpl in Hpr, Hd.
      assert (Hoks : forallb (sound true) ts = true) by by apply sound_items.
      destruct (unpack_seq_reads strip stores_deep (sound true)
                  (S n1) _ f_reads xs ts (set_reactive false w) [] [])
        as (us & w1 & Hrun & Hus & Hfr); [|done|].
      { eapply opt_mapM_mono; [|exact Exs]. intros ??. apply read_tree_S. }
      rewrite (unpack_Store_deep_tuple _ _ _ _ _ _ Hpos Ha Hw Hb), no_react_run.
      rewrite (bind_Ok _ _ _ w1 (us, concat (map stores_deep ts)) []) by done.
      exists (VRef (fresh (dom (heap w1)))),
        (set_reactive (reactive w) (alloc (OTuple us) w1).1.2).
      split; [reflexivity|]. split.
      * by apply read_tree_alloc_tuple.
      * apply frame_no_react. eapply frame_trans; [exact Hfr|].
        apply (frame_alloc w1).
    + (* wraps a dict *)
      destruct (opt_mapM (read_pair (read_tree n1 (heap w))) d) as [tkvs|]
        eqn:Ed; [|done].
      injection E' as <-. simpl in Hpr, Hd.
      apply andb_prop in Hd as [[Hd Hh]%andb_prop Hdist].
      assert (Hoks : forallb (λ kv, sound true kv.1 && sound true kv.2) tkvs
                     = true) by by apply sound_entries.
      destruct (unpack_items_reads strip stores_deep (sound true)
                  ok_strip (S n1) _ f_reads limit d Hle' tkvs
                  (set_reactive false w) [] [] [])
        as (us & w1 & Hrun & Hus & Hfr); try done.
      { eapply opt_mapM_mono; [|exact Ed]. intros ??.
        apply read_pair_mono. intros ??. apply read_tree_S. }
      rewrite (unpack_Store_deep_dict _ _ _ _ _ _ Hpos Ha Hw Hb), no_react_run.
      rewrite (bind_Ok _ _ _ w1
                 (us, concat (map (λ kv, stores_deep kv.1 ++ stores_deep kv.2)
                                tkvs))
                 []) by done.
      exists (VRef (fresh (dom (heap w1)))),
        (set_reactive (reactive w) (alloc (ODict us) w1).1.2).
      split; [reflexivity|]. split.
      * by apply read_tree_alloc_dict.
      * apply frame_no_react. eapply frame_trans; [exact Hfr|].
        apply (frame_alloc w1).
    + (* wraps an iterator *)
      injection E' as <-. exists (VRef b), w.
      rewrite (unpack_Store_leaf _ _ s) by (by rewrite ?Hw; simpl; rewrite ?Hb).
      rewrite Hw. split; [done|]. split; [|apply frame_refl].
      rewrite read_tree_unfold. by rewrite Hb.
    + (* wraps a Store: excluded *)
      destruct (read_tree n1 (heap w) (__wrapped__ s')); [|done].
      by injection E' as <-.
Qed.

(** C2. An argument that reads as a tree of scalars, iterators, Stores,
    lists, tuples and dicts, with no Store inside a Store and with proper
    dict keys, unpacks (in either mode, given the depth the tree needs) to
    a value that reads as the same tree with every Store replaced by its
    wrapped value, which leaves no Store in it, together with the Stores
    in walk order; existing objects are left alone, no identifier is
    handed out and nothing is queued. *)
Theorem unpack_replaces_Stores (n limit : nat) (unpack_nested : bool)
    (w : world) (obj : value) (t : tree) :
  (n ≤ limit)%nat →
  read_tree n (heap w) obj = Some t →
  flat t = true → dicts_ok t = true →
  ∃ obj' w',
    _unpack_stores_from_object limit obj unpack_nested w
      = (Ok (obj', stores_of t), w', [])
    ∧ read_tree n (heap w') obj' = Some (raw_of t)
    ∧ store_free (raw_of t) = true
    ∧ frame w w'.
Proof.
  intros Hle Hr Hfl Hd.
  destruct (unpack_reads n unpack_nested limit obj t w Hle Hr)
    as (obj' & w' & Hrun & Hread & Hfr).
  { unfold sound. destruct unpack_nested; by rewrite ?Hfl, ?flat_proper, Hd. }
  exists obj', w'. rewrite (flat_raw_strip _ Hfl).
  split; [|split; [|split; [apply strip_store_free|done]]].
  - rewrite Hrun. destruct unpack_nested; simpl; [|done].
    by rewrite flat_stores_deep.
  - rewrite Hread. destruct unpack_nested; simpl; [done|].
    by rewrite flat_raw_strip.
Qed.

(** The scenario of the spec: [{"a": storeX, "b": [storeY, 5]}] with
    [storeX = Store(10)] and [storeY = Store(20)] unpacks to
    [{"a": 10, "b": [20, 5]}] and collects [storeX], [storeY]. *)
Lemma unpack_replaces_Stores_witness :
  ∃ obj' w',
    _unpack_stores_from_object 1000 (VRef 4%positive) false scenario_world
      = (Ok (obj', [1%positive; 2%positive]), w', [])
    ∧ read_tree 4 (heap w') obj'
      = Some (TDict [ (TScalar (SStr "a"), TScalar (SInt 10));
                      (TScalar (SStr "b"),
                       TList [TScalar (SInt 20); TScalar (SInt 5)]) ])
    ∧ store_free
        (TDict [ (TScalar (SStr "a"), TScalar (SInt 10));
                 (TScalar (SStr "b"),
                  TList [TScalar (SInt 20); TScalar (SInt 5)]) ]) = true
    ∧ frame scenario_world w'.
Proof.
  apply (unpack_replaces_Stores 4 1000 false scenario_world (VRef 4%positive)
    (TDict [ (TScalar (SStr "a"), TStore 1%positive (TScalar (SInt 10)));
             (TScalar (SStr "b"),
              TList [TStore 2%positive (TScalar (SInt 20));
                     TScalar (SInt 5)]) ])).
  - lia.
  - reflexivity.
  - reflexivity.
  - reflexivity.
Defined.

(** C3. By default a Store unpacks to its wrapped value, as it is, and
    is the only Store collected, whatever the value holds; the world is
    untouched.  With [unpack_nested=True], when the wrapped value reads as
    a tree in which no Store wraps a Store directly, the result reads as
    that tree with all Stores stripped, and the Stores inside are
    collected before the Store itself. *)
Theorem unpack_shallow_by_default (limit : nat) (w : world) (self : addr)
    (s : StoreObj) :
  heap w !! self = Some (OStore s) →
  _unpack_stores_from_object (S limit) (VRef self) false w
    = (Ok (__wrapped__ s, [self]), w, [])
  ∧ ∀ (n : nat) t,
      (n ≤ limit)%nat →
      read_tree n (heap w) (__wrapped__ s) = Some t →
      is_TStore t = false → proper t = true → dicts_ok t = true →
      ∃ obj' w',
        _unpack_stores_from_object (S limit) (VRef self) true w
          = (Ok (obj', stores_deep t ++ [self]), w', [])
        ∧ read_tree (S n) (heap w') obj' = Some (strip t)
        ∧ frame w w'.
Proof.
  intros H. split; [by apply unpack_Store_shallow|].
  intros n t Hle Hr Hns Hpr Hd.
  apply (unpack_reads (S n) true (S limit) (VRef self) (TStore self t) w).
  - lia.
  - rewrite read_tree_unfold, H, Hr. done.
  - unfold sound. simpl. by rewrite Hns, Hpr, Hd.
Qed.

Lemma unpack_shallow_by_default_witness :
  _unpack_stores_from_object 1000 (VRef 5%positive) false nested_world
    = (Ok (VRef 3%positive, [5%positive]), nested_world, [])
  ∧ ∀ (n : nat) t,
      (n ≤ 999)%nat →
      read_tree n (heap nested_world) (VRef 3%positive) = Some t →
      is_TStore t = false → proper t = true → dicts_ok t = true →
      ∃ obj' w',
        _unpack_stores_from_object 1000 (VRef 5%positive) true nested_world
          = (Ok (obj', stores_deep t ++ [5%positive]), w', [])
        ∧ read_tree (S n) (heap w') obj' = Some (strip t)
        ∧ frame nested_world w'.
Proof.
  apply (unpack_shallow_by_default 999 nested_world 5%positive
           (mkStore 2%nat (VRef 3%positive) false)).
  reflexivity.
Defined.

(** On [Store([storeY, 5])]: the default returns the list itself and the
    outer Store only; deep unpacking returns a new list [[20, 5]] and
    collects [storeY] before the outer Store. *)
Example unpack_nested_example :
  (_unpack_stores_from_object 10 (VRef 5%positive) false nested_world).1.1
    = Ok (VRef 3%positive, [5%positive])
  ∧ ∃ obj' w',
      _unpack_stores_from_object 10 (VRef 5%positive) true nested_world
        = (Ok (obj', [2%positive; 5%positive]), w', [])
      ∧ read_tree 3 (heap w') obj'
        = Some (TList [TScalar (SInt 20); TScalar (SInt 5)]).
Proof.
  split; [reflexivity|]. do 2 eexists.
  split; [vm_compute; reflexivity|]. vm_compute. reflexivity.
Qed.

(** ** Every outcome of the default mode *)

Lemma res_mapM_errors {A B} (f : A → res B) xs e :
  res_mapM f xs = Raise e → ∃ x, x ∈ xs ∧ f x = Raise e.
Proof.
  induction xs as [|x xs IH]; [done|]. simpl.
  destruct (f x) as [y|e'] eqn:Ex; simpl.
  - destruct (res_mapM f xs) as [ys|e'']; simpl; [done|].
    intros [= <-]. destruct (IH eq_refl) as (x' & Hin & Hx').
    exists x'. split; [by right|done].
  - intros [= <-]. exists x. split; [by left|done].
Qed.

Lemma py_hash_errors bh limit h v e :
  py_hash bh limit h v = Raise e → e = RecursionError ∨ e = TypeError.
Proof.
  revert v. induction limit as [|limit IH]; intros v.
  { simpl. intros [= <-]. by left. }
  rewrite py_hash_unfold. destruct v as [c|a]; [done|].
  destruct (h !! a) as [[xs|xs|d|it|s]|]; try done.
  - intros [= <-]. by right.
  - destruct (res_mapM (py_hash bh limit h) xs) as [zs|e'] eqn:E; [done|].
    simpl. intros [= <-].
    apply res_mapM_errors in E as (x & _ & Hx). by eapply IH.
  - intros [= <-]. by right.
  - apply IH.
Qed.

Lemma seq_eq_errors (eq : value → value → res bool) (P : exn → Prop) xs ys e :
  (∀ x y e, eq x y = Raise e → P e) →
  seq_eq eq xs ys = Raise e → P e.
Proof.
  intros Heq. revert ys. induction xs as [|x xs IH]; intros [|y ys]; try done.
  simpl. destruct (eq x y) as [[]|e'] eqn:E; simpl; try done.
  - apply IH.
  - intros [= <-]. by eapply Heq.
Qed.

Lemma key_eq_errors limit h k0 k e :
  key_eq limit h k0 k = Raise e → e = RecursionError.
Proof.
  revert k0 k e. induction limit as [|limit IH]; intros k0 k e.
  { simpl. by intros [= <-]. }
  rewrite key_eq_unfold.
  destruct (as_Store h k0) as [[? s]|]; [apply IH|].
  destruct (as_Store h k) as [[? t]|]; [apply IH|].
  destruct k0 as [c|a], k as [d|b]; try done.
  case_bool_decide; [done|].
  destruct (h !! a) as [[xs|xs|dd|it|s]|]; try done.
  destruct (h !! b) as [[ys|ys|dd|it|s]|]; try done.
  apply (seq_eq_errors _ (λ e, e = RecursionError)). apply IH.
Qed.

Lemma dict_insert_errors (eq : value → value → res bool) (P : exn → Prop)
    d k v e :
  (∀ x y e, eq x y = Raise e → P e) →
  dict_insert eq d k v = Raise e → P e.
Proof.
  intros Heq. induction d as [|[k0 v0] d IH]; [done|]. simpl.
  destruct (eq k0 k) as [[]|e'] eqn:E; simpl; try done.
  - destruct (dict_insert eq d k v); simpl; [done|].
    intros [= <-]. by apply IH.
  - intros [= <-]. by eapply Heq.
Qed.

Lemma dict___setitem___errors limit h d k v e :
  dict___setitem__ limit h d k v = Raise e →
  e = RecursionError ∨ e = TypeError.
Proof.
  unfold dict___setitem__, hashable.
  destruct (py_hash no_hash limit h k) as [z|e'] eqn:E; simpl.
  - apply (dict_insert_errors _ (λ e, e = RecursionError ∨ e = TypeError)).
    intros x y e' He'. left. by eapply key_eq_errors.
  - intros [= <-]. by eapply py_hash_errors.
Qed.

Lemma quiet_frame_trans {A} w w1 (r : res A * world * list string) :
  frame w w1 → quiet w1 r → quiet w r.
Proof.
  intros Hfr (H1 & H2 & H3). split; [by eapply frame_trans|done].
Qed.

Section QuietLoops.
Variable f : value → M (value * list addr).
Hypothesis f_quiet : ∀ x w, quiet w (f x w).

Lemma unpack_seq_quiet xs : ∀ acc sacc w,
  quiet w (unpack_seq f xs acc sacc w).
Proof.
  induction xs as [|x xs IH]; intros acc sacc w.
  - split; [apply frame_refl|done].
  - cbn [unpack_seq]. destruct (f_quiet x w) as (Hfr & Hws & He).
    destruct (f x w) as [[[[x' si]|e] w1] ws] eqn:E; simpl in *; subst ws.
    + rewrite (bind_Ok _ _ w w1 (x', si) []) by done. simpl.
      destruct (IH (acc ++ [x']) (sacc ++ si) w1) as (H1 & H2 & H3).
      split; [by eapply frame_trans|]. split; done.
    + rewrite (bind_Raise _ _ w w1 e []) by done.
      split; [done|]. split; [done|]. simpl. intros e' [= <-]. by apply He.
Qed.

Lemma unpack_items_quiet limit kvs : ∀ acc sacc w,
  quiet w (unpack_items f limit kvs acc sacc w).
Proof.
  induction kvs as [|[k v] kvs IH]; intros acc sacc w.
  - split; [apply frame_refl|done].
  - cbn [unpack_items]. destruct (f_quiet k w) as (Hfr & Hws & He).
    destruct (f k w) as [[[[k' sk]|e] w1] ws] eqn:E; simpl in *; subst ws.
    2:{ rewrite (bind_Raise _ _ w w1 e []) by done.
        split; [done|]. split; [done|]. simpl. intros e' [= <-].
        by apply He. }
    rewrite (bind_Ok _ _ w w1 (k', sk) []) by done. simpl.
    destruct (f_quiet v w1) as (Hfr' & Hws' & He').
    destruct (f v w1) as [[[[v' sv]|e] w2] ws] eqn:E'; simpl in *; subst ws.
    2:{ rewrite (bind_Raise _ _ w1 w2 e []) by done.
        split; [by eapply frame_trans|]. split; [done|]. simpl.
        intros e' [= <-]. by apply He'. }
    rewrite (bind_Ok _ _ w1 w2 (v', sv) []) by done. simpl.
    rewrite bind_get_heap.
    destruct (dict___setitem__ limit (heap w2) acc k' v') as [d'|e] eqn:Ed.
    + rewrite bind_lift_Ok.
      destruct (IH d' (sacc ++ sk ++ sv) w2) as (H1 & H2 & H3).
      split; [|split; done].
      eapply frame_trans; [|exact H1]. by eapply frame_trans.
    + rewrite bind_lift_Raise. split; [by eapply frame_trans|].
      split; [done|]. simpl. intros e' [= <-].
      by eapply dict___setitem___errors.
Qed.
End QuietLoops.

Lemma quiet_no_react_bind {A B} (m : M A) (k : A → M B) w :
  (∀ w0, quiet w0 (m w0)) → (∀ a w1, quiet w1 (k a w1)) →
  quiet w (no_react (bind m k) w).
Proof.
  intros Hm Hk. rewrite no_react_run.
  destruct (Hm (set_reactive false w)) as (Hfr & Hws & He).
  destruct (m (set_reactive false w)) as [[[a|e] w1] ws] eqn:E;
    simpl in *; subst ws.
  - rewrite (bind_Ok _ _ _ w1 a []) by done. simpl.
    destruct (Hk a w1) as (Hfr' & Hws' & He').
    split; [|done]. apply frame_no_react. by eapply frame_trans.
  - rewrite (bind_Raise _ _ _ w1 e []) by done. simpl.
    split; [by apply frame_no_react|]. split; [done|].
    intros e' [= <-]. by apply He.
Qed.

Lemma unpack_shallow_quiet limit v w :
  quiet w (_unpack_stores_from_object limit v false w).
Proof.
  revert v w. induction limit as [|limit IH]; intros v w.
  { split; [apply frame_refl|]. split; [done|].
    simpl. intros e [= <-]. by left. }
  assert (Hret : ∀ r : value * list addr, quiet w (Ok r, w, [])).
  { intros r. split; [apply frame_refl|done]. }
  destruct v as [c|a]; [rewrite unpack_scalar; apply Hret|].
  destruct (heap w !! a) as [[xs|xs|d|it|s]|] eqn:Ha.
  - rewrite (unpack_list _ _ _ _ _ Ha). apply quiet_no_react_bind.
    + intros w0. by apply unpack_seq_quiet.
    + intros [us ss] w1. split; [apply (frame_alloc w1)|done].
  - rewrite (unpack_tuple _ _ _ _ _ Ha). apply quiet_no_react_bind.
    + intros w0. by apply unpack_seq_quiet.
    + intros [us ss] w1. split; [apply (frame_alloc w1)|done].
  - rewrite (unpack_dict _ _ _ _ _ Ha). apply quiet_no_react_bind.
    + intros w0. by apply unpack_items_quiet.
    + intros [us ss] w1. split; [apply (frame_alloc w1)|done].
  - rewrite (unpack_iterator _ _ _ _ _ Ha). apply Hret.
  - rewrite (unpack_Store_shallow _ _ _ _ Ha). apply Hret.
  - rewrite (unpack_outside _ _ _ _ Ha). apply Hret.
Qed.

(** ** Cyclic containers *)

Lemma contains_mono h h' v x : h ⊆ h' → contains h v x → contains h' v x.
Proof.
  intros Hsub [a xs y Ha Hin|a xs y Ha Hin|a d k y Ha Hin|a d k y Ha Hin];
    pose proof (lookup_weaken _ _ _ _ Ha Hsub).
  - by eapply contains_list.
  - by eapply contains_tuple.
  - by eapply contains_key.
  - by eapply contains_value.
Qed.

Lemma nsteps_contains_mono h h' n v x :
  h ⊆ h' → nsteps (contains h) n v x → nsteps (contains h') n v x.
Proof.
  intros Hsub. induction 1 as [|n v y x Hc _ IH]; [constructor|].
  econstructor; [by eapply contains_mono|done].
Qed.

(** From a cyclic container there are walks of every length. *)
Lemma cyclic_walks h v (n : nat) :
  cyclic h v → ∃ x, nsteps (contains h) n v x.
Proof.
  intros Hc. cut (∃ x, nsteps (contains h) n v x ∧ rtc (contains h) x v).
  { intros (x & H & _). eauto. }
  induction n as [|n (x & Hn & Hback)].
  { exists v. split; constructor. }
  destruct Hback as [|x y v Hxy Hyv].
  - (* back at the start: go round again *)
    unfold cyclic in Hc. inversion Hc as [? y Hstep|? y ? Hstep Hrest]; subst.
    + exists x. split; [by eapply nsteps_r|constructor].
    + exists y. split; [by eapply nsteps_r|by apply tc_rtc].
  - exists y. split; [by eapply nsteps_r|done].
Qed.

Section OkLoops.
Variable f : value → M (value * list addr).
Hypothesis f_quiet : ∀ x w, quiet w (f x w).

(** When the loop completes, the call on each item completed, in a world
  that extends the initial one. *)
Lemma unpack_seq_Ok_inv xs : ∀ acc sacc w r w' ws y,
unpack_seq f xs acc sacc w = (Ok r, w', ws) → y ∈ xs →
∃ w0 r0 w1 ws1, frame w w0 ∧ f y w0 = (Ok r0, w1, ws1).
Proof.
induction xs as [|x xs IH]; intros acc sacc w r w' ws y Hrun Hin.
{ by apply elem_of_nil in Hin. }
cbn [unpack_seq] in Hrun. destruct (f_quiet x w) as (Hfr & _ & _).
destruct (f x w) as [[[[x' si]|e] w1] ws1] eqn:E.
2:{ by rewrite (bind_Raise _ _ w w1 e ws1) in Hrun. }
apply elem_of_cons in Hin as [->|Hin].
{ exists w. do 3 eexists. split; [apply frame_refl|exact E]. }
rewrite (bind_Ok _ _ w w1 (x', si) ws1) in Hrun by done. simpl in *.
destruct (unpack_seq f xs (acc ++ [x']) (sacc ++ si) w1)
  as [[[r'|e] w2] ws2] eqn:E2; [|done].
destruct (IH _ _ _ _ _ _ y E2 Hin) as (w0 & r0 & w3 & ws3 & Hfr0 & Hy).
exists w0, r0, w3, ws3. split; [by eapply frame_trans|done].
Qed.

Lemma unpack_items_Ok_inv limit kvs : ∀ acc sacc w r w' ws k v y,
unpack_items f limit kvs acc sacc w = (Ok r, w', ws) →
(k, v) ∈ kvs → y = k ∨ y = v →
∃ w0 r0 w1 ws1, frame w w0 ∧ f y w0 = (Ok r0, w1, ws1).
Proof.
induction kvs as [|[k0 v0] kvs IH];
  intros acc sacc w r w' ws k v y Hrun Hin Hy.
{ by apply elem_of_nil in Hin. }
cbn [unpack_items] in Hrun. destruct (f_quiet k0 w) as (Hfr & _ & _).
destruct (f k0 w) as [[[[k' sk]|e] w1] ws1] eqn:E.
2:{ by rewrite (bind_Raise _ _ w w1 e ws1) in Hrun. }
rewrite (bind_Ok _ _ w w1 (k', sk) ws1) in Hrun by done. simpl in *.
destruct (f_quiet v0 w1) as (Hfr' & _ & _).
destruct (f v0 w1) as [[[[v' sv]|e] w2] ws2] eqn:E'.
2:{ by rewrite (bind_Raise _ _ w1 w2 e ws2) in Hrun. }
rewrite (bind_Ok _ _ w1 w2 (v', sv) ws2) in Hrun by done. simpl in *.
apply elem_of_cons in Hin as [[= -> ->]|Hin].
{ destruct Hy as [->| ->].
  - exists w. do 3 eexists. split; [apply frame_refl|exact E].
  - exists w1. do 3 eexists. split; [done|exact E']. }
rewrite bind_get_heap in Hrun.
destruct (dict___setitem__ limit (heap w2) acc k' v') as [d'|e] eqn:Ed.
2:{ by rewrite bind_lift_Raise in Hrun. }
rewrite bind_lift_Ok in Hrun.
destruct (unpack_items f limit kvs d' (sacc ++ sk ++ sv) w2)
  as [[[r'|e] w3] ws3] eqn:E3; [|done].
destruct (IH _ _ _ _ _ _ k v y E3 Hin Hy) as (w0 & r0 & w4 & ws4 & Hfr0 & Hy').
exists w0, r0, w4, ws4. split; [|done].
eapply frame_trans; [|exact Hfr0]. by eapply frame_trans.
Qed.
End OkLoops.

Lemma no_react_bind_Ok_inv {A B} (m : M A) (k : A → M B) w r w' ws :
  no_react (bind m k) w = (Ok r, w', ws) →
  ∃ a w1 ws1, m (set_reactive false w) = (Ok a, w1, ws1).
Proof.
  rewrite no_react_run. unfold bind.
  destruct (m (set_reactive false w)) as [[[a|e] w1] ws1]; [eauto|done].
Qed.

(** A call that returns has walked to the end of every chain of
    containers below its argument: none is as long as the depth allowed. *)
Lemma unpack_Ok_bounded limit : ∀ v w r w' ws x,
  _unpack_stores_from_object limit v false w = (Ok r, w', ws) →
  ¬ nsteps (contains (heap w)) limit v x.
Proof.
  induction limit as [|limit IH]; intros v w r w' ws x Hrun Hwalk; [done|].
  inversion Hwalk as [|? ? y ? Hc Hrest]; subst.
  assert (Hsub : ∀ w0 r0 w1 ws1,
            frame (set_reactive false w) w0 →
            _unpack_stores_from_object limit y false w0 = (Ok r0, w1, ws1) →
            False).
  { intros w0 r0 w1 ws1 Hfr Hy. eapply (IH y w0); [exact Hy|].
    eapply nsteps_contains_mono; [|exact Hrest]. apply Hfr. }
  pose proof (λ x w, unpack_shallow_quiet limit x w) as Hq.
  inversion Hc as [a xs ? Ha Hin|a xs ? Ha Hin|a d ? vv Ha Hin|a d kk ? Ha Hin];
    subst.
  - rewrite (unpack_list _ _ _ _ _ Ha) in Hrun.
    apply no_react_bind_Ok_inv in Hrun as ([us ss] & w1 & ws1 & Hseq).
    destruct (unpack_seq_Ok_inv _ Hq _ _ _ _ _ _ _ y Hseq Hin)
      as (w0 & r0 & w2 & ws2 & Hfr & Hy).
    by eapply Hsub.
  - rewrite (unpack_tuple _ _ _ _ _ Ha) in Hrun.
    apply no_react_bind_Ok_inv in Hrun as ([us ss] & w1 & ws1 & Hseq).
    destruct (unpack_seq_Ok_inv _ Hq _ _ _ _ _ _ _ y Hseq Hin)
      as (w0 & r0 & w2 & ws2 & Hfr & Hy).
    by eapply Hsub.
  - rewrite (unpack_dict _ _ _ _ _ Ha) in Hrun.
    apply no_react_bind_Ok_inv in Hrun as ([us ss] & w1 & ws1 & Hseq).
    destruct (unpack_items_Ok_inv _ Hq _ _ _ _ _ _ _ _ y vv y Hseq Hin)
      as (w0 & r0 & w2 & ws2 & Hfr & Hy); [by left|].
    by eapply Hsub.
  - rewrite (unpack_dict _ _ _ _ _ Ha) in Hrun.
    apply no_react_bind_Ok_inv in Hrun as ([us ss] & w1 & ws1 & Hseq).
    destruct (unpack_items_Ok_inv _ Hq _ _ _ _ _ _ _ _ kk y y Hseq Hin)
      as (w0 & r0 & w2 & ws2 & Hfr & Hy); [by right|].
    by eapply Hsub.
Qed.

(** C4, as stated, fails: on a list that contains itself the walk goes on
    until the recursion limit is exceeded, here Python's default of 1000,
    and what is raised is [RecursionError]. *)
Lemma unpack_cyclic_overflows :
  cyclic (heap cyclic_world) (VRef 1%positive)
  ∧ (_unpack_stores_from_object 1000 (VRef 1%positive) false cyclic_world).1.1
    = Raise RecursionError.
Proof.
  split.
  - apply tc_once. eapply contains_list; [reflexivity|]. by left.
  - vm_compute. reflexivity.
Qed.

(** C4, amended.  On a list, tuple or dict that contains itself through
    items, keys and values, unpacking never returns, whatever depth the
    interpreter allows: it raises, and what it raises is [RecursionError]
    or the [TypeError] of an unhashable key; no warning is emitted;
    existing objects are left as they were, no identifier is handed out
    and nothing is queued. *)
Theorem unpack_cyclic_raises (limit : nat) (w : world) (obj : value) :
  cyclic (heap w) obj →
  ∃ e w',
    _unpack_stores_from_object limit obj false w = (Raise e, w', [])
    ∧ (e = RecursionError ∨ e = TypeError)
    ∧ frame w w'.
Proof.
  intros Hc. destruct (unpack_shallow_quiet limit obj w) as (Hfr & Hws & He).
  destruct (_unpack_stores_from_object limit obj false w)
    as [[[r|e] w'] ws] eqn:E; simpl in *; subst ws.
  - destruct (cyclic_walks _ _ limit Hc) as [x Hx].
    by destruct (unpack_Ok_bounded limit obj w r w' [] x E).
  - exists e, w'. split; [done|]. split; [by apply He|done].
Qed.

Lemma unpack_cyclic_raises_witness :
  ∃ e w',
    _unpack_stores_from_object 1000 (VRef 1%positive) false cyclic_world
      = (Raise e, w', [])
    ∧ (e = RecursionError ∨ e = TypeError)
    ∧ frame cyclic_world w'.
Proof.
  apply (unpack_cyclic_raises 1000 cyclic_world (VRef 1%positive)).
  apply tc_once. eapply contains_list; [reflexivity|]. by left.
Defined.

(** A list that contains itself only through a Store is walked without
    trouble by default: the Store is not entered. *)
Example unpack_cycle_through_Store :
  let w := mkWorld
             (<[2%positive := OStore (mkStore 0%nat (VRef 1%positive) false)]>
                {[ 1%positive := OList [VRef 2%positive] ]})
             1%nat [] false [] in
  (_unpack_stores_from_object 2 (VRef 1%positive) false w).1.1
    = Ok (VRef 3%positive, [2%positive]).
Proof. vm_compute. reflexivity. Qed.

(** A dict key that is a tuple holding a Store: [{(storeX, 1): storeY}]
    unpacks to [{(10, 1): 20}], the key's Store coming first. *)
Example unpack_tuple_key :
  let w := mkWorld
             (<[4%positive := ODict [(VRef 3%positive, VRef 2%positive)]]>
                (<[3%positive := OTuple [VRef 1%positive; VScalar (SInt 1)]]>
                   (heap scenario_world)))
             2%nat [] false [] in
  ∃ obj' w',
    _unpack_stores_from_object 5 (VRef 4%positive) false w
      = (Ok (obj', [1%positive; 2%positive]), w', [])
    ∧ read_tree 4 (heap w') obj'
      = Some (TDict [ (TTuple [TScalar (SInt 10); TScalar (SInt 1)],
                       TScalar (SInt 20)) ]).
Proof.
  do 2 eexists. split; [vm_compute; reflexivity|]. vm_compute. reflexivity.
Qed.

(** A key that stopped being hashable: after [storeX.set([])] the key
    [(storeX,)] unpacks to [([],)], and storing it raises [TypeError]. *)
Example unpack_unhashable_key :
  let w := mkWorld
             (<[4%positive := ODict [(VRef 3%positive, VScalar SNone)]]>
                (<[3%positive := OTuple [VRef 1%positive]]>
                   (<[2%positive := OList []]>
                      {[ 1%positive :=
                           OStore (mkStore 0%nat (VRef 2%positive) false) ]})))
             1%nat [] false [] in
  (_unpack_stores_from_object 5 (VRef 4%positive) false w).1.1
    = Raise TypeError.
Proof. vm_compute. reflexivity. Qed.

(** A Store that wraps a Store directly, with [unpack_nested=True]: the
    result is built with [type(obj.value)], that is, it is a new Store
    around the unpacked list, and only the outer Store is collected. *)
Example unpack_Store_in_Store_deep :
  let w := mkWorld
             (<[3%positive := OStore (mkStore 1%nat (VRef 2%positive) false)]>
                (<[2%positive := OStore (mkStore 0%nat (VRef 1%positive) false)]>
                   {[ 1%positive := OList [VScalar (SInt 7)] ]}))
             2%nat [] false [] in
  ∃ w',
    _unpack_stores_from_object 5 (VRef 3%positive) true w
      = (Ok (VRef 5%positive, [3%positive]), w', [])
    ∧ heap w' !! 5%positive
      = Some (OStore (mkStore 2%nat (VRef 4%positive) false))
    ∧ heap w' !! 4%positive = Some (OList [VScalar (SInt 7)]).
Proof.
  eexists. split; [vm_compute; reflexivity|]. split; reflexivity.
Qed.

(** * Further properties *)

(** ** The default mode creates no Store *)

Lemma no_new_Store_refl w : no_new_Store w w.
Proof. by intros a s. Qed.

Lemma no_new_Store_trans w1 w2 w3 :
  no_new_Store w1 w2 → no_new_Store w2 w3 → no_new_Store w1 w3.
Proof. intros H1 H2 a s H. by apply H1, H2. Qed.

Lemma no_new_Store_alloc w o :
  match o with OStore _ => False | _ => True end →
  no_new_Store w (alloc o w).1.2.
Proof.
  intros Ho a s. simpl. intros H.
  destruct (decide (a = fresh (dom (heap w)))) as [->|Hne].
  - rewrite lookup_insert_eq in H. injection H as ->. done.
  - by rewrite lookup_insert_ne in H.
Qed.

Lemma no_react_bind_inv {A B} (m : M A) (k : A → M B) w r w' ws :
  no_react (bind m k) w = (r, w', ws) →
  (∃ a w1 ws1 w2 ws2,
     m (set_reactive false w) = (Ok a, w1, ws1)
     ∧ k a w1 = (r, w2, ws2)
     ∧ w' = set_reactive (reactive w) w2
     ∧ ws = ws1 ++ ws2)
  ∨ (∃ e w1,
       m (set_reactive false w) = (Raise e, w1, ws)
       ∧ r = Raise e
       ∧ w' = set_reactive (reactive w) w1).
Proof.
  rewrite no_react_run. unfold bind.
  destruct (m (set_reactive false w)) as [[[a|e] w1] ws1].
  - destruct (k a w1) as [[r2 w2] ws2] eqn:Ek. simpl. intros [= <- <- <-].
    left. by exists a, w1, ws1, w2, ws2.
  - simpl. intros [= <- <- <-]. right. by exists e, w1.
Qed.

Section KeepLoops.
Variable f : value → M (value * list addr).
Hypothesis f_keeps : ∀ x w, no_new_Store w (f x w).1.2.

Lemma unpack_seq_keeps xs : ∀ acc sacc w,
  no_new_Store w (unpack_seq f xs acc sacc w).1.2.
Proof.
  induction xs as [|x xs IH]; intros acc sacc w.
  - apply no_new_Store_refl.
  - cbn [unpack_seq]. pose proof (f_keeps x w) as Hk.
    destruct (f x w) as [[[[x' si]|e] w1] ws] eqn:E; simpl in Hk.
    + rewrite (bind_Ok _ _ w w1 (x', si) ws) by done. simpl.
      eapply no_new_Store_trans; [exact Hk|apply IH].
    + by rewrite (bind_Raise _ _ w w1 e ws).
Qed.

Lemma unpack_items_keeps limit kvs : ∀ acc sacc w,
  no_new_Store w (unpack_items f limit kvs acc sacc w).1.2.
Proof.
  induction kvs as [|[k v] kvs IH]; intros acc sacc w.
  - apply no_new_Store_refl.
  - cbn [unpack_items]. pose proof (f_keeps k w) as Hk.
    destruct (f k w) as [[[[k' sk]|e] w1] ws] eqn:E; simpl in Hk.
    2:{ by rewrite (bind_Raise _ _ w w1 e ws). }
    rewrite (bind_Ok _ _ w w1 (k', sk) ws) by done. simpl.
    pose proof (f_keeps v w1) as Hv.
    destruct (f v w1) as [[[[v' sv]|e] w2] ws'] eqn:E'; simpl in Hv.
    2:{ rewrite (bind_Raise _ _ w1 w2 e ws') by done. simpl.
        by eapply no_new_Store_trans. }
    rewrite (bind_Ok _ _ w1 w2 (v', sv) ws') by done. simpl.
    rewrite bind_get_heap.
    destruct (dict___setitem__ limit (heap w2) acc k' v') as [d'|e] eqn:Ed.
    + rewrite bind_lift_Ok.
      eapply no_new_Store_trans; [exact Hk|].
      eapply no_new_Store_trans; [exact Hv|apply IH].
    + rewrite bind_lift_Raise. simpl. by eapply no_new_Store_trans.
Qed.
End KeepLoops.

Lemma no_new_Store_no_react_bind {A B} (m : M A) (k : A → M B) w :
  (∀ w0, no_new_Store w0 (m w0).1.2) →
  (∀ a w1, no_new_Store w1 (k a w1).1.2) →
  no_new_Store w (no_react (bind m k) w).1.2.
Proof.
  intros Hm Hk.
  destruct (no_react (bind m k) w) as [[r w'] ws] eqn:E. simpl.
  apply no_react_bind_inv in E
    as [(a & w1 & ws1 & w2 & ws2 & Em & Ek & -> & _)|(e & w1 & Em & _ & ->)].
  - pose proof (Hm (set_reactive false w)) as H1. rewrite Em in H1.
    pose proof (Hk a w1) as H2. rewrite Ek in H2. simpl in *.
    intros b s Hb. by apply H1, H2.
  - pose proof (Hm (set_reactive false w)) as H1. rewrite Em in H1.
    simpl in *. intros b s Hb. by apply H1.
Qed.

Lemma unpack_shallow_keeps limit v w :
  no_new_Store w (_unpack_stores_from_object limit v false w).1.2.
Proof.
  revert v w. induction limit as [|limit IH]; intros v w.
  { apply no_new_Store_refl. }
  destruct v as [c|a]; [rewrite unpack_scalar; apply no_new_Store_refl|].
  destruct (heap w !! a) as [[xs|xs|d|it|s]|] eqn:Ha.
  - rewrite (unpack_list _ _ _ _ _ Ha). apply no_new_Store_no_react_bind.
    + intros w0. by apply unpack_seq_keeps.
    + intros [us ss] w1. by apply (no_new_Store_alloc w1).
  - rewrite (unpack_tuple _ _ _ _ _ Ha). apply no_new_Store_no_react_bind.
    + intros w0. by apply unpack_seq_keeps.
    + intros [us ss] w1. by apply (no_new_Store_alloc w1).
  - rewrite (unpack_dict _ _ _ _ _ Ha). apply no_new_Store_no_react_bind.
    + intros w0. by apply unpack_items_keeps.
    + intros [us ss] w1. by apply (no_new_Store_alloc w1).
  - rewrite (unpack_iterator _ _ _ _ _ Ha). apply no_new_Store_refl.
  - rewrite (unpack_Store_shallow _ _ _ _ Ha). apply no_new_Store_refl.
  - rewrite (unpack_outside _ _ _ _ Ha). apply no_new_Store_refl.
Qed.

(** X1. In the default mode the unpacker is free of side effects on every
    argument and on every outcome, failures included: the objects that
    exist keep their state, no Store is created, no identifier is handed
    out, nothing is queued, the reactive flag is back to what it was, no
    warning is emitted, and nothing but [RecursionError] or [TypeError] is
    raised. *)
Theorem unpack_default_has_no_side_effect (limit : nat) (obj : value)
    (w : world) :
  ∃ r w',
    _unpack_stores_from_object limit obj false w = (r, w', [])
    ∧ heap w ⊆ heap w'
    ∧ no_new_Store w w'
    ∧ next_id w' = next_id w
    ∧ modification_queue w' = modification_queue w
    ∧ reactive w' = reactive w
    ∧ (∀ e, r = Raise e → e = RecursionError ∨ e = TypeError).
Proof.
  destruct (unpack_shallow_quiet limit obj w)
    as ((H1 & H2 & H3 & H4 & _) & Hws & He).
  pose proof (unpack_shallow_keeps limit obj w) as Hk.
  destruct (_unpack_stores_from_object limit obj false w) as [[r w'] ws].
  simpl in *. subst ws. by exists r, w'.
Qed.

(** ** What the default mode collects and returns *)

Lemma is_Store_at_weaken h h' a : h ⊆ h' → is_Store_at h a → is_Store_at h' a.
Proof. intros Hsub [s Hs]. exists s. by eapply lookup_weaken. Qed.

Lemma is_Store_at_old w w' a :
  no_new_Store w w' → is_Store_at (heap w') a → is_Store_at (heap w) a.
Proof. intros Hk [s Hs]. exists s. by apply Hk. Qed.

Section CollectLoops.
Variable f : value → M (value * list addr).
Hypothesis f_quiet : ∀ x w, quiet w (f x w).
Hypothesis f_keeps : ∀ x w, no_new_Store w (f x w).1.2.
Hypothesis f_collects : ∀ x w r ss w' ws,
  f x w = (Ok (r, ss), w', ws) → Forall (is_Store_at (heap w)) ss.

Lemma unpack_seq_collects xs : ∀ acc sacc w us ss w' ws,
  unpack_seq f xs acc sacc w = (Ok (us, ss), w', ws) →
  Forall (is_Store_at (heap w)) sacc → Forall (is_Store_at (heap w)) ss.
Proof.
  induction xs as [|x xs IH]; intros acc sacc w us ss w' ws Hrun Hacc.
  { cbn in Hrun. by injection Hrun as <- <- <- <-. }
  cbn [unpack_seq] in Hrun.
  destruct (f_quiet x w) as ((Hsub & _) & _ & _).
  pose proof (f_keeps x w) as Hk.
  destruct (f x w) as [[[[x' si]|e] w1] ws1] eqn:E.
  2:{ by rewrite (bind_Raise _ _ w w1 e ws1) in Hrun. }
  rewrite (bind_Ok _ _ w w1 (x', si) ws1) in Hrun by done. simpl in *.
  destruct (unpack_seq f xs (acc ++ [x']) (sacc ++ si) w1)
    as [[[[us' ss']|e] w2] ws2] eqn:E2; [|done].
  simpl in Hrun. injection Hrun as <- <- <- <-.
  eapply Forall_impl; [|intros a; apply (is_Store_at_old w w1 a Hk)].
  eapply IH; [exact E2|]. apply Forall_app. split.
  - eapply Forall_impl; [exact Hacc|]. intros a. by apply is_Store_at_weaken.
  - eapply Forall_impl; [by eapply f_collects|].
    intros a. by apply is_Store_at_weaken.
Qed.

Lemma unpack_items_collects limit kvs : ∀ acc sacc w us ss w' ws,
  unpack_items f limit kvs acc sacc w = (Ok (us, ss), w', ws) →
  Forall (is_Store_at (heap w)) sacc → Forall (is_Store_at (heap w)) ss.
Proof.
  induction kvs as [|[k v] kvs IH]; intros acc sacc w us ss w' ws Hrun Hacc.
  { cbn in Hrun. by injection Hrun as <- <- <- <-. }
  cbn [unpack_items] in Hrun.
  destruct (f_quiet k w) as ((Hsub & _) & _ & _).
  pose proof (f_keeps k w) as Hk.
  destruct (f k w) as [[[[k' sk]|e] w1] ws1] eqn:E.
  2:{ by rewrite (bind_Raise _ _ w w1 e ws1) in Hrun. }
  rewrite (bind_Ok _ _ w w1 (k', sk) ws1) in Hrun by done. simpl in *.
  destruct (f_quiet v w1) as ((Hsub' & _) & _ & _).
  pose proof (f_keeps v w1) as Hk'.
  destruct (f v w1) as [[[[v' sv]|e] w2] ws2] eqn:E'.
  2:{ by rewrite (bind_Raise _ _ w1 w2 e ws2) in Hrun. }
  rewrite (bind_Ok _ _ w1 w2 (v', sv) ws2) in Hrun by done. simpl in *.
  rewrite bind_get_heap in Hrun.
  destruct (dict___setitem__ limit (heap w2) acc k' v') as [d'|e] eqn:Ed.
  2:{ by rewrite bind_lift_Raise in Hrun. }
  rewrite bind_lift_Ok in Hrun.
  destruct (unpack_items f limit kvs d' (sacc ++ sk ++ sv) w2)
    as [[[[us' ss']|e] w3] ws3] eqn:E3; [|done].
  simpl in Hrun. injection Hrun as <- <- <- <-.
  eapply Forall_impl; [|intros a; apply (is_Store_at_old w w1 a Hk)].
  eapply Forall_impl; [|intros a; apply (is_Store_at_old w1 w2 a Hk')].
  eapply IH; [exact E3|]. rewrite !Forall_app. split_and!.
  - eapply Forall_impl; [exact Hacc|]. intros a Ha.
    by apply (is_Store_at_weaken (heap w1)), (is_Store_at_weaken (heap w)).
  - eapply Forall_impl; [by eapply f_collects|].
    intros a Ha.
    by apply (is_Store_at_weaken (heap w1)), (is_Store_at_weaken (heap w)).
  - eapply Forall_impl; [by eapply f_collects|].
    intros a. by apply is_Store_at_weaken.
Qed.
End CollectLoops.

Lemma unpack_shallow_collects limit : ∀ v w r ss w' ws,
  _unpack_stores_from_object limit v false w = (Ok (r, ss), w', ws) →
  Forall (is_Store_at (heap w)) ss.
Proof.
  induction limit as [|limit IH]; intros v w r ss w' ws Hrun; [done|].
  pose proof (λ x w, unpack_shallow_quiet limit x w) as Hq.
  pose proof (λ x w, unpack_shallow_keeps limit x w) as Hk.
  destruct v as [c|a].
  { rewrite unpack_scalar in Hrun. by injection Hrun as <- <- <- <-. }
  destruct (heap w !! a) as [[xs|xs|d|it|s]|] eqn:Ha.
  - rewrite (unpack_list _ _ _ _ _ Ha) in Hrun.
    apply no_react_bind_inv in Hrun
      as [([us ss0] & w1 & ws1 & w2 & ws2 & Em & Ek & _)|(e & w1 & _ & ? & _)];
      [|done].
    simpl in Ek. injection Ek as <- <- <- <-. rewrite app_nil_r.
    by apply (unpack_seq_collects _ Hq Hk IH _ _ _ _ _ _ _ _ Em).
  - rewrite (unpack_tuple _ _ _ _ _ Ha) in Hrun.
    apply no_react_bind_inv in Hrun
      as [([us ss0] & w1 & ws1 & w2 & ws2 & Em & Ek & _)|(e & w1 & _ & ? & _)];
      [|done].
    simpl in Ek. injection Ek as <- <- <- <-. rewrite app_nil_r.
    by apply (unpack_seq_collects _ Hq Hk IH _ _ _ _ _ _ _ _ Em).
  - rewrite (unpack_dict _ _ _ _ _ Ha) in Hrun.
    apply no_react_bind_inv in Hrun
      as [([us ss0] & w1 & ws1 & w2 & ws2 & Em & Ek & _)|(e & w1 & _ & ? & _)];
      [|done].
    simpl in Ek. injection Ek as <- <- <- <-. rewrite app_nil_r.
    by apply (unpack_items_collects _ Hq Hk IH _ _ _ _ _ _ _ _ _ Em).
  - rewrite (unpack_iterator _ _ _ _ _ Ha) in Hrun.
    by injection Hrun as <- <- <- <-.
  - rewrite (unpack_Store_shallow _ _ _ _ Ha) in Hrun.
    injection Hrun as <- <- <- <-. apply Forall_singleton. by exists s.
  - rewrite (unpack_outside _ _ _ _ Ha) in Hrun.
    by injection Hrun as <- <- <- <-.
Qed.

(** X2. Whatever the default mode returns as the list of Stores holds
    nothing but Stores that existed when the call was made; the objects
    created by the call never show up in it. *)
Theorem unpack_default_collects_Stores (limit : nat) (obj r : value)
    (ss : list addr) (w w' : world) (ws : list string) :
  _unpack_stores_from_object limit obj false w = (Ok (r, ss), w', ws) →
  Forall (is_Store_at (heap w)) ss
  ∧ Forall (is_Store_at (heap w')) ss
  ∧ Forall (λ a, heap w' !! a = heap w !! a) ss.
Proof.
  intros Hrun. pose proof (unpack_shallow_collects _ _ _ _ _ _ _ Hrun) as Hss.
  destruct (unpack_shallow_quiet limit obj w) as ((Hsub & _) & _).
  rewrite Hrun in Hsub. simpl in Hsub.
  split; [done|]. split.
  - eapply Forall_impl; [exact Hss|]. intros a. by apply is_Store_at_weaken.
  - eapply Forall_impl; [exact Hss|]. intros a [s Hs].
    by rewrite Hs, (lookup_weaken _ _ _ _ Hs Hsub).
Qed.

Lemma unpack_default_collects_Stores_witness :
  Forall (is_Store_at (heap scenario_world)) [1%positive; 2%positive]
  ∧ Forall
      (is_Store_at
         (heap (_unpack_stores_from_object 10 (VRef 4%positive) false
                  scenario_world).1.2))
      [1%positive; 2%positive]
  ∧ Forall
      (λ a, heap (_unpack_stores_from_object 10 (VRef 4%positive) false
                    scenario_world).1.2 !! a
              = heap scenario_world !! a)
      [1%positive; 2%positive].
Proof.
  apply (unpack_default_collects_Stores 10 (VRef 4%positive)
           (VRef 6%positive) [1%positive; 2%positive] scenario_world
           (_unpack_stores_from_object 10 (VRef 4%positive) false
              scenario_world).1.2 []).
  vm_compute. reflexivity.
Defined.

Lemma unpack_seq_length (f : value → M (value * list addr)) xs :
  ∀ acc sacc w us ss w' ws,
  unpack_seq f xs acc sacc w = (Ok (us, ss), w', ws) →
  length us = (length acc + length xs)%nat.
Proof.
  induction xs as [|x xs IH]; intros acc sacc w us ss w' ws Hrun.
  { cbn in Hrun. injection Hrun as <- <- <- <-. simpl. lia. }
  cbn [unpack_seq] in Hrun.
  destruct (f x w) as [[[[x' si]|e] w1] ws1] eqn:E.
  2:{ by rewrite (bind_Raise _ _ w w1 e ws1) in Hrun. }
  rewrite (bind_Ok _ _ w w1 (x', si) ws1) in Hrun by done. simpl in *.
  destruct (unpack_seq f xs (acc ++ [x']) (sacc ++ si) w1)
    as [[[[us' ss']|e] w2] ws2] eqn:E2; [|done].
  simpl in Hrun. injection Hrun as <- <- <- <-.
  rewrite (IH _ _ _ _ _ _ _ E2), length_app. simpl. lia.
Qed.

Lemma dict_insert_length (eq : value → value → res bool) d k v d' :
  dict_insert eq d k v = Ok d' →
  (length d ≤ length d' ≤ S (length d))%nat ∧ (1 ≤ length d')%nat.
Proof.
  revert d'. induction d as [|[k0 v0] d IH]; intros d' H; simpl in H.
  { injection H as <-. simpl. lia. }
  destruct (eq k0 k) as [[|]|e]; simpl in H; [| |done].
  - injection H as <-. simpl. lia.
  - destruct (dict_insert eq d k v) as [r|e]; simpl in H; [|done].
    injection H as <-. specialize (IH r eq_refl). simpl. lia.
Qed.

Lemma unpack_items_length (f : value → M (value * list addr)) limit kvs :
  ∀ acc sacc w us ss w' ws,
  unpack_items f limit kvs acc sacc w = (Ok (us, ss), w', ws) →
  (length acc ≤ length us ≤ length acc + length kvs)%nat
  ∧ (kvs ≠ [] → (1 ≤ length us)%nat).
Proof.
  induction kvs as [|[k v] kvs IH]; intros acc sacc w us ss w' ws Hrun.
  { cbn in Hrun. injection Hrun as <- <- <- <-. simpl. split; [lia|done]. }
  cbn [unpack_items] in Hrun.
  destruct (f k w) as [[[[k' sk]|e] w1] ws1] eqn:E.
  2:{ by rewrite (bind_Raise _ _ w w1 e ws1) in Hrun. }
  rewrite (bind_Ok _ _ w w1 (k', sk) ws1) in Hrun by done. simpl in *.
  destruct (f v w1) as [[[[v' sv]|e] w2] ws2] eqn:E'.
  2:{ by rewrite (bind_Raise _ _ w1 w2 e ws2) in Hrun. }
  rewrite (bind_Ok _ _ w1 w2 (v', sv) ws2) in Hrun by done. simpl in *.
  rewrite bind_get_heap in Hrun.
  destruct (dict___setitem__ limit (heap w2) acc k' v') as [d'|e] eqn:Ed.
  2:{ by rewrite bind_lift_Raise in Hrun. }
  rewrite bind_lift_Ok in Hrun.
  destruct (unpack_items f limit kvs d' (sacc ++ sk ++ sv) w2)
    as [[[[us' ss']|e] w3] ws3] eqn:E3; [|done].
  simpl in Hrun. injection Hrun as <- <- <- <-.
  specialize (IH _ _ _ _ _ _ _ E3).
  unfold dict___setitem__ in Ed.
  destruct (hashable limit (heap w2) k') as [[]|e]; simpl in Ed; [|done].
  apply dict_insert_length in Ed. split; [lia|]. intros _. lia.
Qed.

(** What a container and its unpacked copy have in common. *)
Lemma unpack_default_copy_inv {A} (loop : M (A * list addr)) (mk : A → object)
    w a o r ss w' ws :
  (∀ w0, quiet w0 (loop w0)) →
  heap w !! a = Some o →
  no_react
    (let! (unpacked, stores) := loop in
     let! a' := alloc (mk unpacked) in
     ret (VRef a', stores ++ []))
    w = (Ok (r, ss), w', ws) →
  ∃ us ss0 w1 ws1,
    loop (set_reactive false w) = (Ok (us, ss0), w1, ws1)
    ∧ r = VRef (fresh (dom (heap w1)))
    ∧ heap w !! fresh (dom (heap w1)) = None
    ∧ heap w' !! fresh (dom (heap w1)) = Some (mk us)
    ∧ heap w' !! a = Some o.
Proof.
  intros Hq Ha Hrun.
  apply no_react_bind_inv in Hrun
    as [([us ss0] & w1 & ws1 & w2 & ws2 & Em & Ek & -> & _)|(e & w1 & _ & ? & _)];
    [|done].
  simpl in Ek. injection Ek as <- <- <- <-.
  destruct (Hq (set_reactive false w)) as ((Hsub & _) & _).
  rewrite Em in Hsub. simpl in Hsub.
  assert (Hnew : heap w !! fresh (dom (heap w1)) = None).
  { destruct (heap w !! fresh (dom (heap w1))) as [o0|] eqn:E0; [|done].
    apply (lookup_weaken _ _ _ _ E0) in Hsub.
    by rewrite fresh_addr_unused in Hsub. }
  exists us, ss0, w1, ws1. simpl. split_and!; try done.
  - apply lookup_insert_eq.
  - rewrite lookup_insert_ne by (intros <-; congruence).
    by apply (lookup_weaken _ _ _ _ Ha Hsub).
Qed.

(** X3. Unpacking a list, a dict or a tuple that is not empty, in the
    default mode, never hands the argument back: the result is a new
    object of the same class, at an address unused before; a list or
    tuple keeps its length, a dict gets at most as many entries as it had
    and at least one if it had any; and the argument itself is left as it
    was.  (The empty tuple is left out: the interpreter has one empty
    tuple, so [tuple([])] is the argument again.) *)
Theorem unpack_default_copies_container (limit : nat) (w w' : world)
    (a : addr) (o : object) (r : value) (ss : list addr) (ws : list string) :
  heap w !! a = Some o →
  match o with OList _ | OTuple _ | ODict _ => True | _ => False end →
  o ≠ OTuple [] →
  _unpack_stores_from_object (S limit) (VRef a) false w = (Ok (r, ss), w', ws) →
  ∃ a' o',
    r = VRef a'
    ∧ heap w !! a' = None
    ∧ heap w' !! a' = Some o'
    ∧ heap w' !! a = Some o
    ∧ match o, o' with
      | OList xs, OList us | OTuple xs, OTuple us => length us = length xs
      | ODict d, ODict d' =>
          (length d' ≤ length d)%nat ∧ (d = [] ↔ d' = [])
      | _, _ => False
      end.
Proof.
  intros Ha Ho _ Hrun.
  pose proof (λ x w, unpack_shallow_quiet limit x w) as Hq.
  destruct o as [xs|xs|d|it|s]; try done.
  - rewrite (unpack_list _ _ _ _ _ Ha) in Hrun.
    eapply (unpack_default_copy_inv _ OList) in Hrun
      as (us & ss0 & w1 & ws1 & Em & -> & Hnew & Hcopy & Hold);
      [| |exact Ha].
    2:{ intros w0. by apply unpack_seq_quiet. }
    exists (fresh (dom (heap w1))), (OList us). split_and!; try done.
    by rewrite (unpack_seq_length _ _ _ _ _ _ _ _ _ Em).
  - rewrite (unpack_tuple _ _ _ _ _ Ha) in Hrun.
    eapply (unpack_default_copy_inv _ OTuple) in Hrun
      as (us & ss0 & w1 & ws1 & Em & -> & Hnew & Hcopy & Hold);
      [| |exact Ha].
    2:{ intros w0. by apply unpack_seq_quiet. }
    exists (fresh (dom (heap w1))), (OTuple us). split_and!; try done.
    by rewrite (unpack_seq_length _ _ _ _ _ _ _ _ _ Em).
  - rewrite (unpack_dict _ _ _ _ _ Ha) in Hrun.
    eapply (unpack_default_copy_inv _ ODict) in Hrun
      as (us & ss0 & w1 & ws1 & Em & -> & Hnew & Hcopy & Hold);
      [| |exact Ha].
    2:{ intros w0. by apply unpack_items_quiet. }
    exists (fresh (dom (heap w1))), (ODict us). split_and!; try done.
    + apply unpack_items_length in Em. simpl in Em. lia.
    + apply unpack_items_length in Em as [Hlen Hne]. simpl in Hlen. split.
      * intros ->. destruct us; [done|simpl in Hlen; lia].
      * intros ->. destruct d; [done|]. specialize (Hne ltac:(done)).
        simpl in Hne. lia.
Qed.

Lemma unpack_default_copies_container_witness :
  ∃ a' o',
    VRef 5%positive = VRef a'
    ∧ heap scenario_world !! a' = None
    ∧ heap (_unpack_stores_from_object 3 (VRef 3%positive) false
              scenario_world).1.2 !! a' = Some o'
    ∧ heap (_unpack_stores_from_object 3 (VRef 3%positive) false
              scenario_world).1.2 !! 3%positive
      = Some (OList [VRef 2%positive; VScalar (SInt 5)])
    ∧ match o' with
      | OList us => length us = 2%nat
      | _ => False
      end.
Proof.
  apply (unpack_default_copies_container 2 scenario_world
           (_unpack_stores_from_object 3 (VRef 3%positive) false
              scenario_world).1.2
           3%positive (OList [VRef 2%positive; VScalar (SInt 5)])
           (VRef 5%positive) [2%positive] []).
  - reflexivity.
  - exact I.
  - discriminate.
  - vm_compute. reflexivity.
Defined.

(** ** Nesting and the recursion limit *)

(** X4. The default mode descends one call per level of nesting and does
    not cut a deep argument short: when a chain of [limit] containers,
    each an item, key or value of the one before, starts at the argument,
    the call raises (and, as always in this mode, changes nothing), be the
    argument cyclic or not. *)
Theorem unpack_default_too_deep_raises (limit : nat) (w : world)
    (obj x : value) :
  nsteps (contains (heap w)) limit obj x →
  ∃ e w',
    _unpack_stores_from_object limit obj false w = (Raise e, w', [])
    ∧ (e = RecursionError ∨ e = TypeError)
    ∧ frame w w'.
Proof.
  intros Hwalk.
  destruct (unpack_shallow_quiet limit obj w) as (Hfr & Hws & He).
  destruct (_unpack_stores_from_object limit obj false w)
    as [[[r|e] w'] ws] eqn:E; simpl in *; subst ws.
  - by destruct (unpack_Ok_bounded limit obj w r w' [] x E).
  - exists e, w'. split; [done|]. split; [by apply He|done].
Qed.

Lemma unpack_default_too_deep_raises_witness :
  ∃ e w',
    _unpack_stores_from_object 2 (VRef 4%positive) false scenario_world
      = (Raise e, w', [])
    ∧ (e = RecursionError ∨ e = TypeError)
    ∧ frame scenario_world w'.
Proof.
  apply (unpack_default_too_deep_raises 2 scenario_world (VRef 4%positive)
           (VScalar (SInt 5))).
  apply (nsteps_l _ _ _ (VRef 3%positive)).
  - apply (contains_value _ 4%positive
             [ (VScalar (SStr "a"), VRef 1%positive);
               (VScalar (SStr "b"), VRef 3%positive) ]
             (VScalar (SStr "b"))).
    + reflexivity.
    + apply list_elem_of_further, list_elem_of_here.
  - apply nsteps_once.
    apply (contains_list _ 3%positive [VRef 2%positive; VScalar (SInt 5)]).
    + reflexivity.
    + apply list_elem_of_further, list_elem_of_here.
Defined.

(** ** Unpacking what was unpacked *)

Lemma store_free_flat t : store_free t = true → flat t = true.
Proof.
  induction t as [c|a|a t IH|ts IH|ts IH|kvs IH] using tree_ind'; simpl;
    try done.
  - intros H. induction IH as [|t ts Ht _ IHts]; simpl in *; [done|].
    apply andb_prop in H as [H1 H2]. by rewrite (Ht H1), (IHts H2).
  - intros H. induction IH as [|t ts Ht _ IHts]; simpl in *; [done|].
    apply andb_prop in H as [H1 H2]. by rewrite (Ht H1), (IHts H2).
  - intros H.
    induction IH as [|[k v] kvs [Hk Hv] _ IHkvs]; simpl in *; [done|].
    apply andb_prop in H as [[H1 H1']%andb_prop H2].
    by rewrite (Hk H1), (Hv H1'), (IHkvs H2).
Qed.

Lemma strip_idem t : strip (strip t) = strip t.
Proof. apply store_free_strip, strip_store_free. Qed.

Lemma dicts_ok_strip t : dicts_ok t = true → dicts_ok (strip t) = true.
Proof.
  induction t as [c|a|a t IH|ts IH|ts IH|kvs IH] using tree_ind'; simpl;
    try done.
  - intros H. induction IH as [|t ts Ht _ IHts]; simpl in *; [done|].
    apply andb_prop in H as [H1 H2]. by rewrite (Ht H1), (IHts H2).
  - intros H. induction IH as [|t ts Ht _ IHts]; simpl in *; [done|].
    apply andb_prop in H as [H1 H2]. by rewrite (Ht H1), (IHts H2).
  - intros [[H1 H2]%andb_prop H3]%andb_prop.
    assert (Hk : map (λ kv : tree * tree, strip kv.1)
                   (map (λ kv : tree * tree, (strip kv.1, strip kv.2)) kvs)
                 = map (λ kv : tree * tree, strip kv.1) kvs).
    { clear. induction kvs as [|[k v] kvs IHkvs]; simpl; [done|].
      by rewrite strip_idem, IHkvs. }
    rewrite Hk, H3, andb_true_r. apply andb_true_intro. split.
    + clear H2 H3 Hk.
      induction IH as [|[k v] kvs [Hk Hv] _ IHkvs]; simpl in *; [done|].
      apply andb_prop in H1 as [[H1 H1']%andb_prop H2].
      by rewrite (Hk H1), (Hv H1'), (IHkvs H2).
    + clear IH H1 H3 Hk.
      induction kvs as [|[k v] kvs IHkvs]; simpl in *; [done|].
      apply andb_prop in H2 as [H2 H2'].
      by rewrite strip_idem, H2, (IHkvs H2').
Qed.

Lemma sound_store_free un t :
  store_free t = true → dicts_ok t = true →
  sound un t = true ∧ unpacked_tree un t = t ∧ collected un t = [].
Proof.
  intros Hsf Hd.
  pose proof (store_free_flat _ Hsf) as Hfl.
  unfold sound, unpacked_tree, collected. destruct un.
  - by rewrite (store_free_proper _ Hsf), Hd, (store_free_strip _ Hsf),
      (store_free_stores_deep _ Hsf).
  - by rewrite Hfl, Hd, (flat_raw_strip _ Hfl), (store_free_strip _ Hsf),
      <-(flat_stores_deep _ Hfl), (store_free_stores_deep _ Hsf).
Qed.

(** X5. Unpacking is idempotent on readable arguments: what a call
    returns, unpacked again in either mode, yields no Store, no warning,
    and a value that reads as the same structure, which is the argument
    with every Store replaced by what it wraps; the second call only adds
    objects to the heap. *)
Theorem unpack_again_finds_no_Store (n limit : nat) (un un' : bool)
    (w : world) (obj : value) (t : tree) :
  (n ≤ limit)%nat →
  read_tree n (heap w) obj = Some t →
  sound un t = true →
  ∃ obj' w' obj'' w'',
    _unpack_stores_from_object limit obj un w
      = (Ok (obj', collected un t), w', [])
    ∧ _unpack_stores_from_object limit obj' un' w' = (Ok (obj'', []), w'', [])
    ∧ read_tree n (heap w') obj' = Some (strip t)
    ∧ read_tree n (heap w'') obj'' = Some (strip t)
    ∧ frame w' w''.
Proof.
  intros Hn Hread Hsound.
  destruct (unpack_reads n un limit obj t w Hn Hread Hsound)
    as (obj' & w' & Hrun & Hread' & _).
  rewrite (sound_strip _ _ Hsound) in Hread'.
  assert (Hd : dicts_ok (strip t) = true).
  { apply dicts_ok_strip. unfold sound in Hsound.
    by apply andb_prop in Hsound as [_ ?]. }
  destruct (sound_store_free un' (strip t) (strip_store_free t) Hd)
    as (Hs' & Hu' & Hc').
  destruct (unpack_reads n un' limit obj' (strip t) w' Hn Hread' Hs')
    as (obj'' & w'' & Hrun' & Hread'' & Hfr).
  rewrite Hu' in Hread''. rewrite Hc' in Hrun'.
  by exists obj', w', obj'', w''.
Qed.

Lemma unpack_again_finds_no_Store_witness :
  ∃ obj' w' obj'' w'',
    _unpack_stores_from_object 10 (VRef 4%positive) false scenario_world
      = (Ok (obj', [1%positive; 2%positive]), w', [])
    ∧ _unpack_stores_from_object 10 obj' true w' = (Ok (obj'', []), w'', [])
    ∧ read_tree 4 (heap w') obj'
      = Some (TDict [ (TScalar (SStr "a"), TScalar (SInt 10));
                      (TScalar (SStr "b"),
                       TList [TScalar (SInt 20); TScalar (SInt 5)]) ])
    ∧ read_tree 4 (heap w'') obj''
      = Some (TDict [ (TScalar (SStr "a"), TScalar (SInt 10));
                      (TScalar (SStr "b"),
                       TList [TScalar (SInt 20); TScalar (SInt 5)]) ])
    ∧ frame w' w''.
Proof.
  apply (unpack_again_finds_no_Store 4 10 false true scenario_world
           (VRef 4%positive)
           (TDict [ (TScalar (SStr "a"), TStore 1%positive (TScalar (SInt 10)));
                    (TScalar (SStr "b"),
                     TList [TStore 2%positive (TScalar (SInt 20));
                            TScalar (SInt 5)]) ])).
  - lia.
  - vm_compute. reflexivity.
  - vm_compute. reflexivity.
Defined.

(** ** Store.__bool__: warnings and failures *)

Lemma py_bool_unfold (limit : nat) (v : value) (w : world) :
  py_bool (S limit) v w =
    match v with
    | VScalar c => (Ok (scalar_bool c), w, [])
    | VRef a =>
        match heap w !! a with
        | Some (OStore s) =>
            ((py_bool limit (__wrapped__ s) w).1.1,
             (py_bool limit (__wrapped__ s) w).1.2,
             (if reactive w then [bool_warning] else [])
               ++ (py_bool limit (__wrapped__ s) w).2)
        | Some (OList xs) | Some (OTuple xs) => (Ok (not_empty xs), w, [])
        | Some (ODict kvs) => (Ok (not_empty kvs), w, [])
        | Some (OIterator _) | None => (Ok true, w, [])
        end
    end.
Proof.
  destruct v as [c|a].
  { cbn [py_bool]. by rewrite bind_get_heap. }
  destruct (heap w !! a) as [[xs|xs|d|it|s]|] eqn:Ha.
  5:{ by apply py_bool_Store. }
  all: cbn [py_bool]; rewrite bind_get_heap; cbn beta iota; by rewrite Ha.
Qed.

Lemma py_bool_outcomes (limit : nat) : ∀ (v : value) (w : world),
  (reactive w = false → (py_bool limit v w).2 = [])
  ∧ Forall (eq bool_warning) (py_bool limit v w).2
  ∧ (∀ e, (py_bool limit v w).1.1 = Raise e → e = RecursionError).
Proof.
  induction limit as [|limit IH]; intros v w.
  { simpl. split; [done|]. split; [done|]. by intros e [= <-]. }
  rewrite py_bool_unfold. destruct v as [c|a]; [done|].
  destruct (heap w !! a) as [[xs|xs|d|it|s]|] eqn:Ha; try done.
  cbn [fst snd].
  destruct (IH (__wrapped__ s) w) as (H1 & H2 & H3).
  split; [|split; [|done]].
  - intros Hr. rewrite Hr. simpl. by apply H1.
  - apply Forall_app. split; [|done].
    destruct (reactive w); by repeat constructor.
Qed.

Lemma py_bool_returns (limit : nat) : ∀ (v t : value) (w : world),
  ObjectProxy_target limit (heap w) v = Ok t →
  ∃ b, (py_bool (S limit) v w).1.1 = Ok b.
Proof.
  induction limit as [|limit IH]; intros v t w Ht;
    rewrite py_bool_unfold; (destruct v as [c|a]; [by eexists|]);
    cbn [ObjectProxy_target as_Store] in Ht;
    destruct (heap w !! a) as [[xs|xs|d|it|s]|] eqn:Ha;
    try (eexists; reflexivity); try discriminate.
  cbn [fst snd]. by apply IH with (t := t).
Qed.

(** X7. The truth value of a Store, however many Stores are nested in it:
    outside a reactive scope the call emits no warning at all; inside one
    every warning is the [bool(store)] one; the only way to fail is to run
    out of recursion depth while going through the layers, and a call
    with depth for every layer returns. *)
Theorem Store_bool_warnings (limit : nat) (w : world) (self : addr)
    (s : StoreObj) :
  heap w !! self = Some (OStore s) →
  (reactive w = false → (Store___bool__ limit self w).2 = [])
  ∧ (reactive w = true → head (Store___bool__ limit self w).2 = Some bool_warning)
  ∧ Forall (eq bool_warning) (Store___bool__ limit self w).2
  ∧ (∀ e, (Store___bool__ limit self w).1.1 = Raise e → e = RecursionError)
  ∧ (∀ t, ObjectProxy_target limit (heap w) (__wrapped__ s) = Ok t →
       ∃ b, (Store___bool__ (S limit) self w).1.1 = Ok b).
Proof.
  intros Hs.
  destruct (py_bool_outcomes limit (__wrapped__ s) w) as (H1 & H2 & H3).
  rewrite !(Store___bool___run _ _ _ _ Hs). cbn [fst snd].
  split_and!.
  - intros Hr. rewrite Hr. by apply H1.
  - by intros ->.
  - apply Forall_app. split; [|done].
    destruct (reactive w); by repeat constructor.
  - done.
  - intros t Ht. by apply (py_bool_returns limit _ t).
Qed.

Lemma Store_bool_warnings_witness :
  (reactive nested_world = false → (Store___bool__ 3 5%positive nested_world).2 = [])
  ∧ (reactive nested_world = true →
     head (Store___bool__ 3 5%positive nested_world).2 = Some bool_warning)
  ∧ Forall (eq bool_warning) (Store___bool__ 3 5%positive nested_world).2
  ∧ (∀ e, (Store___bool__ 3 5%positive nested_world).1.1 = Raise e →
       e = RecursionError)
  ∧ (∀ t, ObjectProxy_target 3 (heap nested_world) (VRef 3%positive) = Ok t →
       ∃ b, (Store___bool__ 4 5%positive nested_world).1.1 = Ok b).
Proof.
  apply (Store_bool_warnings 3 nested_world 5%positive
           (mkStore 2%nat (VRef 3%positive) false)).
  reflexivity.
Defined.

(** ** Store.__hash__: unhashable values *)

Lemma py_hash_unhashable bh (n : nat) : ∀ (limit : nat) h v t,
  (n ≤ limit)%nat → read_tree n h v = Some t → hashable_tree t = false →
  py_hash bh limit h v = Raise TypeError.
Proof.
  induction n as [|n IH]; intros limit h v t Hle; [done|].
  destruct limit as [|limit]; [lia|]. assert (n ≤ limit)%nat as Hle' by lia.
  rewrite read_tree_unfold, py_hash_unfold.
  destruct v as [c|a]; [by intros [= <-]|].
  destruct (h !! a) as [[xs|xs|d|it|s]|]; try done.
  - destruct (opt_mapM (read_tree n h) xs) as [ts|] eqn:E; [|done].
    intros [= <-]. simpl. intros Hh.
    assert (res_mapM (py_hash bh limit h) xs = Raise TypeError) as ->;
      [|done].
    revert ts E Hh. induction xs as [|x xs IHxs]; intros ts E Hh.
    { simpl in E. by injection E as <-. }
    apply opt_mapM_cons_Some in E as (t' & ts' & -> & Hx & Hxs).
    simpl in Hh. simpl.
    destruct (hashable_tree t') eqn:Ht.
    + destruct (py_hash_ok bh n limit h x t' Hle' Hx Ht) as [z ->]. simpl.
      by rewrite (IHxs ts' Hxs Hh).
    + by rewrite (IH limit h x t' Hle' Hx Ht).
  - by intros [= <-].
  - destruct (read_tree n h (__wrapped__ s)) as [t'|] eqn:E; [|done].
    intros [= <-]. simpl. intros Hh. by eapply IH.
Qed.

(** X8. A Store is hashable exactly when the value it wraps is: if that
    value, with the tuples and Stores inside it, holds no list and no
    dict, the hash is returned; otherwise [Store.__hash__] raises
    [TypeError].  Either way the call changes nothing and warns of
    nothing. *)
Theorem Store_hash_unhashable (bh : builtin_hash) (n limit : nat) (w : world)
    (self : addr) (s : StoreObj) (t : tree) :
  heap w !! self = Some (OStore s) →
  (n ≤ limit)%nat →
  read_tree n (heap w) (__wrapped__ s) = Some t →
  if hashable_tree t
  then ∃ z, Store___hash__ bh limit self w = (Ok z, w, [])
  else Store___hash__ bh limit self w = (Raise TypeError, w, []).
Proof.
  intros Hs Hle Hread. unfold Store___hash__.
  rewrite (bind_load_Store _ _ self s) by done. rewrite bind_get_heap.
  destruct (hashable_tree t) eqn:Ht.
  - destruct (py_hash_ok bh n limit _ _ _ Hle Hread Ht) as [z Hz].
    exists z. by rewrite Hz.
  - by rewrite (py_hash_unhashable bh n limit _ _ _ Hle Hread Ht).
Qed.

Lemma Store_hash_unhashable_witness :
  Store___hash__ int_hash 5 5%positive nested_world
    = (Raise TypeError, nested_world, []).
Proof.
  apply (Store_hash_unhashable int_hash 3 5 nested_world 5%positive
           (mkStore 2%nat (VRef 3%positive) false)
           (TList [TStore 2%positive (TScalar (SInt 20)); TScalar (SInt 5)])).
  - reflexivity.
  - lia.
  - vm_compute. reflexivity.
Defined.

(** ** make_store and the unpacker *)

(** X15. Wrapping and unpacking are inverse to each other: for a value
    that is not a Store, [make_store] returns a new Store, warning only
    when the value is an iterator, and the unpacker, applied to that Store
    in the default mode, hands back the very value that went in (the same
    object, not a copy) with the new Store as the one dependency, and
    changes nothing; [value] reads the same. *)
Theorem make_store_then_unpack (limit l : nat) (w : world) (v : value) :
  as_Store (heap w) v = None →
  ∃ a w',
    make_store limit v w
      = (Ok (VRef a), w',
         match type_ (heap w) v with
         | Cls_iterator => [iterator_warning]
         | _ => []
         end)
    ∧ heap w !! a = None
    ∧ _unpack_stores_from_object (S l) (VRef a) false w'
      = (Ok (v, [a]), w', [])
    ∧ Store_value a w' = (Ok v, w', []).
Proof.
  intros Hv. set (a := fresh (dom (heap w))).
  set (w' := mkWorld (<[a := OStore (mkStore (next_id w) v false)]> (heap w))
               (S (next_id w)) (modification_queue w) (reactive w) (operations w)).
  assert (Ha : heap w' !! a = Some (OStore (mkStore (next_id w) v false)))
    by apply lookup_insert_eq.
  exists a, w'. split_and!.
  - unfold make_store. rewrite bind_get_heap.
    rewrite (isinstance_Store_false _ _ Hv).
    rewrite (bind_Ok _ _ w w' a _ (Store___init___not_Store limit w v false Hv)).
    simpl. by rewrite app_nil_r.
  - apply fresh_addr_unused.
  - by rewrite (unpack_Store_shallow _ _ _ _ Ha).
  - unfold Store_value. by rewrite (bind_load_Store _ _ a _ Ha).
Qed.

Lemma make_store_then_unpack_witness :
  ∃ a w',
    make_store 5 (VRef 3%positive) scenario_world = (Ok (VRef a), w', [])
    ∧ heap scenario_world !! a = None
    ∧ _unpack_stores_from_object 3 (VRef a) false w'
      = (Ok (VRef 3%positive, [a]), w', [])
    ∧ Store_value a w' = (Ok (VRef 3%positive), w', []).
Proof.
  apply (make_store_then_unpack 5 2 scenario_world (VRef 3%positive)).
  reflexivity.
Defined.

(** ** Either mode: what a call can change *)

Lemma calm_Ok {A} (a : A) w : calm w (Ok a, w, []).
Proof. unfold calm. simpl. split_and!; done. Qed.

Lemma calm_Raise {A} e w :
  e = RecursionError ∨ e = TypeError → calm (A := A) w (Raise e, w, []).
Proof.
  intros He. unfold calm. simpl. split_and!; try done. by intros e' [= <-].
Qed.

Lemma calm_lift {A} (r : res A) w :
  (∀ e, r = Raise e → e = RecursionError ∨ e = TypeError) → calm w (lift r w).
Proof. intros He. unfold calm, lift. simpl. split_and!; done. Qed.

Lemma calm_bind {A B} (m : M A) (k : A → M B) w :
  calm w (m w) → (∀ a w1, calm w1 (k a w1)) → calm w (bind m k w).
Proof.
  intros (H1 & H2 & H3 & H4 & H5 & H6) Hk. unfold bind.
  destruct (m w) as [[[a|e] w1] ws1]; simpl in *; subst ws1.
  - destruct (Hk a w1) as (K1 & K2 & K3 & K4 & K5 & K6).
    destruct (k a w1) as [[r w2] ws2]. simpl in *. unfold calm. simpl.
    split_and!; try done; try congruence; try lia. by etrans.
  - unfold calm. simpl. split_and!; try done.
    intros e' [= <-]. by apply H6.
Qed.

Lemma calm_no_react {A} (m : M A) w :
  calm (set_reactive false w) (m (set_reactive false w)) →
  calm w (no_react m w).
Proof.
  intros (H1 & H2 & H3 & H4 & H5 & H6). rewrite no_react_run.
  unfold calm. simpl in *. split_and!; done.
Qed.

Lemma calm_alloc w o : calm w (alloc o w).
Proof.
  unfold calm. simpl. split_and!; try done. apply alloc_extends.
Qed.

Lemma calm_alloc_Store limit w o :
  match o with OList _ | ODict _ => True | _ => False end →
  calm w ((let! l := alloc o in
           let! a := Store___init__ limit (VRef l) false in
           ret (VRef a)) w).
Proof.
  intros Ho.
  set (l := fresh (dom (heap w))).
  set (w1 := set_heap (<[l := o]> (heap w)) w).
  rewrite (bind_Ok (alloc o) _ w w1 l [] eq_refl). cbn [fst snd app].
  assert (Hinit : as_Store (heap w1) (VRef l) = None
                  ∧ match type_ (heap w1) (VRef l) with
                    | Cls_iterator => [iterator_warning]
                    | _ => []
                    end = []).
  { simpl. rewrite lookup_insert_eq. by destruct o. }
  destruct Hinit as [Hns Hnw].
  rewrite (bind_Ok _ _ w1 _ _ _
             (Store___init___not_Store limit w1 (VRef l) false Hns)).
  rewrite Hnw. unfold calm. simpl. split_and!; try done; try lia.
  etrans; [apply alloc_extends|]. apply (alloc_extends (heap w1)).
Qed.

Lemma calm_construct_seq limit cls us w : calm w (construct_seq limit cls us w).
Proof.
  destruct cls; try (apply calm_Raise; by right).
  - apply calm_bind; [apply calm_alloc|]. intros a w1. apply calm_Ok.
  - apply calm_bind; [apply calm_alloc|]. intros a w1. apply calm_Ok.
  - by apply (calm_alloc_Store limit w (OList us)).
Qed.

Lemma calm_construct_dict limit cls us w :
  calm w (construct_dict limit cls us w).
Proof.
  destruct cls; try (apply calm_Raise; by right).
  - apply calm_bind; [apply calm_alloc|]. intros a w1. apply calm_Ok.
  - by apply (calm_alloc_Store limit w (ODict us)).
Qed.

Lemma ObjectProxy_target_errors limit : ∀ h v e,
  ObjectProxy_target limit h v = Raise e → e = RecursionError.
Proof.
  induction limit as [|limit IH]; intros h v e; simpl.
  - destruct (as_Store h v) as [[a s]|]; [|done]. by intros [= <-].
  - destruct (as_Store h v) as [[a s]|]; [|done]. apply IH.
Qed.

Section CalmLoops.
Variable f : value → M (value * list addr).
Hypothesis f_calm : ∀ x w, calm w (f x w).

Lemma unpack_seq_calm xs : ∀ acc sacc w,
  calm w (unpack_seq f xs acc sacc w).
Proof.
  induction xs as [|x xs IH]; intros acc sacc w.
  - apply calm_Ok.
  - cbn [unpack_seq]. apply calm_bind; [apply f_calm|].
    intros [x' si] w1. apply IH.
Qed.

Lemma unpack_items_calm limit kvs : ∀ acc sacc w,
  calm w (unpack_items f limit kvs acc sacc w).
Proof.
  induction kvs as [|[k v] kvs IH]; intros acc sacc w.
  - apply calm_Ok.
  - cbn [unpack_items]. apply calm_bind; [apply f_calm|].
    intros [k' sk] w1. apply calm_bind; [apply f_calm|].
    intros [v' sv] w2. rewrite bind_get_heap.
    apply calm_bind.
    + apply calm_lift. intros e. apply dict___setitem___errors.
    + intros d w3. apply IH.
Qed.
End CalmLoops.

Lemma unpack_calm limit : ∀ un v w,
  calm w (_unpack_stores_from_object limit v un w).
Proof.
  induction limit as [|limit IH]; intros un v w.
  { apply calm_Raise. by left. }
  cbn [_unpack_stores_from_object]. apply calm_no_react.
  rewrite bind_get_heap.
  set (w0 := set_reactive false w). set (h := heap w0).
  assert (Hbody : ∀ (cls : pyclass) (self : list addr)
            (leaf : M (value * list addr)),
            (∀ w1, calm w1 (leaf w1)) →
            calm w0
              ((let! target := lift (ObjectProxy_target limit h v) in
                match type_ h target with
                | Cls_list | Cls_tuple =>
                    let! (unpacked, stores) :=
                      unpack_seq
                        (λ x, _unpack_stores_from_object limit x un)
                        (seq_items h target) [] [] in
                    let stores := stores ++ self in
                    let! r := construct_seq limit cls unpacked in
                    ret (r, stores)
                | Cls_dict =>
                    let! (unpacked, stores) :=
                      unpack_items
                        (λ x, _unpack_stores_from_object limit x un)
                        limit (dict_items h target) [] [] in
                    let stores := stores ++ self in
                    let! r := construct_dict limit cls unpacked in
                    ret (r, stores)
                | _ => leaf
                end) w0)).
  { intros cls self leaf Hleaf. apply calm_bind.
    { apply calm_lift. intros e He. left.
      by apply (ObjectProxy_target_errors limit h v). }
    intros target w1.
    assert (Hseq : calm w1
              ((let! (unpacked, stores) :=
                  unpack_seq (λ x, _unpack_stores_from_object limit x un)
                    (seq_items h target) [] [] in
                let stores := stores ++ self in
                let! r := construct_seq limit cls unpacked in
                ret (r, stores)) w1)).
    { apply calm_bind; [apply unpack_seq_calm; intros x w2; apply IH|].
      intros [us ss] w2. apply calm_bind; [apply calm_construct_seq|].
      intros r w3. apply calm_Ok. }
    destruct (type_ h target); try apply Hleaf; try exact Hseq.
    apply calm_bind; [apply unpack_items_calm; intros x w2; apply IH|].
    intros [us ss] w2. apply calm_bind; [apply calm_construct_dict|].
    intros r w3. apply calm_Ok. }
  destruct (as_Store h v) as [[self s]|] eqn:Hv; destruct un.
  - apply Hbody. intros w1. apply calm_Ok.
  - apply calm_Ok.
  - apply Hbody. intros w1. apply calm_Ok.
  - apply Hbody. intros w1. apply calm_Ok.
Qed.

(** X16. In either mode, and on every argument and outcome, the unpacker
    leaves the objects that exist as they are, queues nothing, restores
    the reactive flag, emits no warning and raises nothing but
    [RecursionError] or [TypeError].  Unlike the default mode, the nested
    mode may use up identifiers, since it builds a new Store where a Store
    wraps another Store of a container. *)
Theorem unpack_only_allocates (limit : nat) (obj : value)
    (unpack_nested : bool) (w : world) :
  ∃ r w',
    _unpack_stores_from_object limit obj unpack_nested w = (r, w', [])
    ∧ heap w ⊆ heap w'
    ∧ (next_id w ≤ next_id w')%nat
    ∧ modification_queue w' = modification_queue w
    ∧ reactive w' = reactive w
    ∧ (∀ e, r = Raise e → e = RecursionError ∨ e = TypeError).
Proof.
  destruct (unpack_calm limit unpack_nested obj w)
    as (H1 & H2 & H3 & H4 & H5 & H6).
  destruct (_unpack_stores_from_object limit obj unpack_nested w)
    as [[r w'] ws].
  simpl in *. subst ws. by exists r, w'.
Qed.

(** The nested mode does use up an identifier on a Store of a Store of a
    list. *)
Example unpack_nested_makes_a_Store :
  let w := mkWorld
             (<[3%positive := OStore (mkStore 1%nat (VRef 2%positive) false)]>
                (<[2%positive := OStore (mkStore 0%nat (VRef 1%positive) false)]>
                   {[ 1%positive := OList [VScalar (SInt 7)] ]}))
             2%nat [] false [] in
  next_id (_unpack_stores_from_object 5 (VRef 3%positive) true w).1.2 = 3%nat.
Proof. by vm_compute. Qed.

(** Two Stores that are distinct keys of a dict and have come to wrap
    equal values unpack to one key: the copy has fewer entries, the first
    key and the last value. *)
Example unpack_dict_keys_collapse :
  let w := mkWorld
             (<[3%positive := ODict [ (VRef 1%positive, VScalar (SStr "a"));
                                      (VRef 2%positive, VScalar (SStr "b")) ]]>
                (<[2%positive := OStore (mkStore 1%nat (VScalar (SInt 1)) false)]>
                   {[ 1%positive :=
                        OStore (mkStore 0%nat (VScalar (SInt 1)) false) ]}))
             2%nat [] false [] in
  ∃ w',
    _unpack_stores_from_object 5 (VRef 3%positive) false w
      = (Ok (VRef 4%positive, [1%positive; 2%positive]), w', [])
    ∧ heap w' !! 4%positive
      = Some (ODict [ (VScalar (SInt 1), VScalar (SStr "b")) ]).
Proof. eexists. split; [vm_compute; reflexivity|]. by vm_compute. Qed.

(** * Store.set *)

(** ** Formatting *)

Lemma py_format_errors limit : ∀ h active v e,
  py_format limit h active v = Raise e → e = RecursionError.
Proof.
  induction limit as [|limit IH]; intros h active v e; simpl.
  { by intros [= <-]. }
  destruct v as [c|a]; [done|].
  destruct (h !! a) as [[xs|xs|d|it|s]|]; try done.
  - destruct (bool_decide (a ∈ active)); [done|].
    destruct (res_mapM _ xs) as [ys|e'] eqn:E; simpl; [done|].
    intros [= <-]. apply res_mapM_errors in E as (x & _ & Hx). by eapply IH.
  - destruct (bool_decide (a ∈ active)); [done|].
    destruct (res_mapM _ xs) as [ys|e'] eqn:E; simpl; [done|].
    intros [= <-]. apply res_mapM_errors in E as (x & _ & Hx). by eapply IH.
  - destruct (bool_decide (a ∈ active)); [done|].
    destruct (res_mapM _ d) as [ys|e'] eqn:E; simpl; [done|].
    intros [= <-]. apply res_mapM_errors in E as ([k v] & _ & Hx).
    simpl in Hx.
    destruct (py_format limit h (a :: active) k) as [[]|e''] eqn:Ek; simpl in Hx.
    + by eapply IH.
    + injection Hx as <-. by eapply IH.
  - apply IH.
Qed.

(** A Store that wraps itself cannot be formatted at any depth. *)
Lemma py_format_self_wrapping limit : ∀ h active t ts,
  h !! t = Some (OStore ts) → __wrapped__ ts = VRef t →
  py_format limit h active (VRef t) = Raise RecursionError.
Proof.
  induction limit as [|limit IH]; intros h active t ts Ht Hw; [done|].
  simpl. rewrite Ht, Hw. by eapply IH.
Qed.

Lemma py_format_scalar limit h active c :
  py_format (S limit) h active (VScalar c) = Ok tt.
Proof. done. Qed.

(** ** One call *)

Lemma unwrap_Store_not_Store h v : as_Store h v = None → unwrap_Store h v = v.
Proof. unfold unwrap_Store. by intros ->. Qed.

(** What [set] hands to the propagator: the cell already holds the new
    value and the modification is at the end of the queue. *)
Lemma Store_set_run (trigger : M unit) (limit : nat) (self : addr)
    (v : value) (w : world) (s : StoreObj) :
  heap w !! self = Some (OStore s) →
  Store_set trigger limit self v w =
    match py_format limit (heap w) [] (__wrapped__ s),
          py_format limit (heap w) [] (unwrap_Store (heap w) v) with
    | Ok _, Ok _ =>
        trigger
          (mkWorld
             (<[self := OStore (mkStore (Store_id s)
                                  (unwrap_Store (heap w) v)
                                  (_self_backend_only s))]> (heap w))
             (next_id w)
             (modification_queue w
                ++ [mkMod (Store_id s) (unwrap_Store (heap w) v)])
             (reactive w) (operations w))
    | Raise e, _ | Ok _, Raise e => (Raise e, w, [])
    end.
Proof.
  intros Hs. unfold Store_set.
  rewrite (bind_load_Store _ _ self s) by done. rewrite bind_get_heap.
  destruct (py_format limit (heap w) [] (__wrapped__ s)) as [[]|e].
  2:{ by rewrite bind_lift_Raise. }
  rewrite bind_lift_Ok.
  destruct (py_format limit (heap w) [] (unwrap_Store (heap w) v)) as [[]|e].
  2:{ by rewrite bind_lift_Raise. }
  rewrite bind_lift_Ok.
  unfold bind, put_object, add_to_queue, enqueue, bind, set_heap. simpl.
  by destruct (trigger _) as [[[[]|e] w2] ws].
Qed.

Lemma no_operations_contract : propagator_contract no_operations.
Proof.
  unfold propagator_contract, no_operations. simpl. split_and!.
  - intros w a s Hs. by exists s.
  - intros w a s' Hs. by exists s'.
  - done.
Qed.

(** ** A run of calls *)

(** C1. Identity stability.  Let the propagator keep its contract.  In
    any run of [set] calls on a Store, whatever the values and wherever
    the run ends, the Store is afterwards the same object with the same
    id (and [backend_only] flag), no Store has been constructed, and every
    Store has kept its id.  The value is written into that same cell:
    when the run has returned, the cell holds the value of the last call
    (for a value that is not a Store).  A call can only fail by running
    out of recursion depth while formatting the two values for the log,
    before anything is written, or through the propagation pass. *)
Theorem Store_identity_stable (trigger : M unit) (limit : nat)
    (vs : list value) (w : world) (self : addr) (s : StoreObj) :
  propagator_contract trigger →
  heap w !! self = Some (OStore s) →
  ∃ r w' ws s',
    set_calls trigger limit self vs w = (r, w', ws)
    ∧ heap w' !! self = Some (OStore s')
    ∧ Store_id s' = Store_id s
    ∧ _self_backend_only s' = _self_backend_only s
    ∧ (∀ a, is_Store_at (heap w') a → is_Store_at (heap w) a)
    ∧ (∀ a t, heap w !! a = Some (OStore t) →
         ∃ t', heap w' !! a = Some (OStore t') ∧ Store_id t' = Store_id t)
    ∧ (∀ vs0 v, vs = vs0 ++ [v] → r = Ok tt →
         as_Store (heap w') v = None → __wrapped__ s' = v)
    ∧ (∀ e, r = Raise e →
         e = RecursionError ∨ ∃ w0, (trigger w0).1.1 = Raise e).
Proof.
  intros (T1 & T3 & T2). revert w s.
  induction vs as [|v vs IH]; intros w s Hs.
  { exists (Ok tt), w, [], s. split_and!; try done.
    - intros a t Ht. by exists t.
    - intros vs0 v0 Hvs. by destruct vs0. }
  cbn [set_calls]. unfold bind at 1.
  rewrite (Store_set_run trigger limit self v w s Hs).
  assert (Hstop : ∀ e, e = RecursionError →
            ∃ r w' ws s',
              (Raise e : res unit, w, @nil string) = (r, w', ws)
              ∧ heap w' !! self = Some (OStore s')
              ∧ Store_id s' = Store_id s
              ∧ _self_backend_only s' = _self_backend_only s
              ∧ (∀ a, is_Store_at (heap w') a → is_Store_at (heap w) a)
              ∧ (∀ a t, heap w !! a = Some (OStore t) →
                   ∃ t', heap w' !! a = Some (OStore t')
                         ∧ Store_id t' = Store_id t)
              ∧ (∀ vs0 v0, v :: vs = vs0 ++ [v0] → r = Ok tt →
                   as_Store (heap w') v0 = None → __wrapped__ s' = v0)
              ∧ (∀ e', r = Raise e' →
                   e' = RecursionError ∨ ∃ w0, (trigger w0).1.1 = Raise e')).
  { intros e ->. exists (Raise RecursionError), w, [], s.
    split_and!; try done.
    - intros a t Ht. by exists t.
    - intros e' [= <-]. by left. }
  destruct (py_format limit (heap w) [] (__wrapped__ s)) as [[]|e] eqn:F1.
  2:{ apply Hstop. by eapply py_format_errors. }
  destruct (py_format limit (heap w) [] (unwrap_Store (heap w) v))
    as [[]|e] eqn:F2.
  2:{ apply Hstop. by eapply py_format_errors. }
  clear Hstop.
  set (v' := unwrap_Store (heap w) v) in *.
  set (s1 := mkStore (Store_id s) v' (_self_backend_only s)).
  set (w1 := mkWorld (<[self := OStore s1]> (heap w)) (next_id w)
               (modification_queue w ++ [mkMod (Store_id s) v'])
               (reactive w) (operations w)).
  assert (Hs1 : heap w1 !! self = Some (OStore s1)) by apply lookup_insert_eq.
  assert (Hold : ∀ a, is_Store_at (heap w1) a → is_Store_at (heap w) a).
  { intros a [t Ht]. simpl in Ht.
    destruct (decide (a = self)) as [->|Hne]; [by exists s|].
    rewrite lookup_insert_ne in Ht by done. by exists t. }
  assert (Hkeep : ∀ a t, heap w !! a = Some (OStore t) →
            ∃ t', heap w1 !! a = Some (OStore t') ∧ Store_id t' = Store_id t).
  { intros a t Ht. simpl. destruct (decide (a = self)) as [->|Hne].
    - rewrite lookup_insert_eq. exists s1. split; [done|].
      rewrite Hs in Ht. by injection Ht as <-.
    - rewrite lookup_insert_ne by done. by exists t. }
  assert (Hself2 : heap (trigger w1).1.2 !! self = Some (OStore s1)).
  { apply (T2 w1 self s1 (mkMod (Store_id s) v')); [done| |done].
    simpl. apply elem_of_app. right. apply list_elem_of_here. }
  assert (Hold2 : ∀ a, is_Store_at (heap (trigger w1).1.2) a →
            is_Store_at (heap w) a).
  { intros a [t Ht]. apply Hold. destruct (T3 w1 a t Ht) as [t0 Ht0].
    by exists t0. }
  assert (Hkeep2 : ∀ a t, heap w !! a = Some (OStore t) →
            ∃ t', heap (trigger w1).1.2 !! a = Some (OStore t')
                  ∧ Store_id t' = Store_id t).
  { intros a t Ht. destruct (Hkeep a t Ht) as (t1 & Ht1 & Hid1).
    destruct (T1 w1 a t1 Ht1) as (t2 & Ht2 & Hid2 & _).
    exists t2. split; [done|congruence]. }
  destruct (trigger w1) as [[[[]|e] w2] ws1] eqn:Et; simpl in *.
  2:{ exists (Raise e), w2, ws1, s1. split_and!; try done.
      intros e' [= <-]. right. exists w1. by rewrite Et. }
  destruct (IH w2 s1 Hself2)
    as (r & w' & ws & s' & Hrun & Hs' & Hid & Hb & Hnew & Hids & Hlast & Herr).
  rewrite Hrun. exists r, w', (ws1 ++ ws), s'. split_and!; try done.
  - intros a Ha. by apply Hold2, Hnew.
  - intros a t Ht. destruct (Hkeep2 a t Ht) as (t2 & Ht2 & Hid2).
    destruct (Hids a t2 Ht2) as (t3 & Ht3 & Hid3).
    exists t3. split; [done|congruence].
  - intros vs0 v0 Hvs Hr Hv0. destruct vs0 as [|u vs0].
    + simpl in Hvs. injection Hvs as -> ->.
      simpl in Hrun. injection Hrun as <- <- <-.
      rewrite Hself2 in Hs'. injection Hs' as <-. simpl.
      apply unwrap_Store_not_Store.
      destruct (as_Store (heap w) v0) as [[a t]|] eqn:Ev; [|done].
      destruct v0 as [c|b]; [done|]. simpl in Ev.
      destruct (heap w !! b) as [[xs|xs|d|it|t0]|] eqn:Eb; try done.
      destruct (Hkeep2 b t0 Eb) as (t2 & Ht2 & _).
      simpl in Hv0. by rewrite Ht2 in Hv0.
    + simpl in Hvs. injection Hvs as -> ->. by eapply Hlast.
Qed.

Lemma Store_identity_stable_witness :
  ∃ w' s',
    set_calls no_operations 5 1%positive [VRef 2%positive; VScalar (SInt 7)]
      scenario_world = (Ok tt, w', [])
    ∧ heap w' !! 1%positive = Some (OStore s')
    ∧ Store_id s' = 0%nat
    ∧ _self_backend_only s' = false
    ∧ __wrapped__ s' = VScalar (SInt 7).
Proof.
  destruct (Store_identity_stable no_operations 5
              [VRef 2%positive; VScalar (SInt 7)] scenario_world 1%positive
              (mkStore 0%nat (VScalar (SInt 10)) false)
              no_operations_contract eq_refl)
    as (r & w' & ws & s' & Hrun & Hs' & Hid & Hb & _ & _ & Hlast & _).
  assert (Hr : r = Ok tt ∧ ws = []).
  { vm_compute in Hrun. by injection Hrun as <- _ <-. }
  destruct Hr as [-> ->]. exists w', s'. split_and!; try done.
  apply (Hlast [VRef 2%positive] (VScalar (SInt 7))); done.
Defined.

(** s = Store(1); s.set(2); s.set(3) with no operation registered: both
    calls return, and the one cell holds 3. *)
Example set_calls_example :
  ∃ w',
    set_calls no_operations 5 1%positive
      [VScalar (SInt 2); VScalar (SInt 3)] one_store_world = (Ok tt, w', [])
    ∧ heap w' !! 1%positive
      = Some (OStore (mkStore 7%nat (VScalar (SInt 3)) false))
    ∧ modification_queue w' = [].
Proof. eexists. split; [vm_compute; reflexivity|]. by vm_compute. Qed.

(** ** Setting a Store to a Store *)

(** C8. [s.set(t)] with a Store [t], the propagator keeping its
    contract.  [set] first formats the old value of [s] and the value
    that [t] wraps, for the log.  If that runs out of recursion depth, as
    it does at any depth when [t] wraps itself, the call raises
    [RecursionError] and nothing is written.  Otherwise the value that
    [t] wraps is not [t] itself; the propagation pass is started with
    that value in the cell of [s] and with one more modification at the
    end of the queue, under [s]'s id and carrying that value; and when
    the pass is over, whether it returned or raised, [s] holds that
    value. *)
Theorem Store_set_Store_unwraps (trigger : M unit) (limit : nat) (w : world)
    (self t : addr) (s ts : StoreObj) :
  propagator_contract trigger →
  heap w !! self = Some (OStore s) →
  heap w !! t = Some (OStore ts) →
  match py_format limit (heap w) [] (__wrapped__ s),
        py_format limit (heap w) [] (__wrapped__ ts) with
  | Ok _, Ok _ =>
      ∃ r w' ws,
        Store_set trigger limit self (VRef t) w = (r, w', ws)
        ∧ (r, w', ws) =
            trigger
              (mkWorld
                 (<[self := OStore (mkStore (Store_id s) (__wrapped__ ts)
                                      (_self_backend_only s))]> (heap w))
                 (next_id w)
                 (modification_queue w
                    ++ [mkMod (Store_id s) (__wrapped__ ts)])
                 (reactive w) (operations w))
        ∧ heap w' !! self
          = Some (OStore (mkStore (Store_id s) (__wrapped__ ts)
                            (_self_backend_only s)))
        ∧ Store_value self w' = (Ok (__wrapped__ ts), w', [])
        ∧ __wrapped__ ts ≠ VRef t
        ∧ Store_value self w' ≠ (Ok (VRef t), w', [])
  | _, _ =>
      Store_set trigger limit self (VRef t) w = (Raise RecursionError, w, [])
  end.
Proof.
  intros (T1 & T3 & T2) Hs Ht.
  rewrite (Store_set_run trigger limit self (VRef t) w s Hs).
  assert (Hu : unwrap_Store (heap w) (VRef t) = __wrapped__ ts).
  { unfold unwrap_Store. by rewrite (as_Store_Some _ _ _ Ht). }
  rewrite Hu.
  destruct (py_format limit (heap w) [] (__wrapped__ s)) as [[]|e] eqn:F1.
  2:{ by rewrite (py_format_errors _ _ _ _ _ F1). }
  destruct (py_format limit (heap w) [] (__wrapped__ ts)) as [[]|e] eqn:F2.
  2:{ by rewrite (py_format_errors _ _ _ _ _ F2). }
  set (s1 := mkStore (Store_id s) (__wrapped__ ts) (_self_backend_only s)).
  set (w1 := mkWorld (<[self := OStore s1]> (heap w)) (next_id w)
               (modification_queue w ++ [mkMod (Store_id s) (__wrapped__ ts)])
               (reactive w) (operations w)).
  assert (Hself2 : heap (trigger w1).1.2 !! self = Some (OStore s1)).
  { apply (T2 w1 self s1 (mkMod (Store_id s) (__wrapped__ ts))); [| |done].
    - apply lookup_insert_eq.
    - simpl. apply elem_of_app. right. apply list_elem_of_here. }
  assert (Hne : __wrapped__ ts ≠ VRef t).
  { intros Heq. rewrite Heq in F2.
    by rewrite (py_format_self_wrapping limit (heap w) [] t ts Ht Heq) in F2. }
  destruct (trigger w1) as [[r w'] ws] eqn:Et. simpl in Hself2.
  exists r, w', ws.
  assert (Hval : Store_value self w' = (Ok (__wrapped__ ts), w', [])).
  { unfold Store_value. by rewrite (bind_load_Store _ _ self s1). }
  split_and!; try done. rewrite Hval. by intros [= Heq].
Qed.

Lemma Store_set_Store_unwraps_witness :
  ∃ r w' ws,
    Store_set no_operations 5 1%positive (VRef 2%positive) scenario_world
      = (r, w', ws)
    ∧ (r, w', ws) =
        no_operations
          (mkWorld
             (<[1%positive := OStore (mkStore 0%nat (VScalar (SInt 20))
                                        false)]> (heap scenario_world))
             2%nat [mkMod 0%nat (VScalar (SInt 20))] true [])
    ∧ heap w' !! 1%positive
      = Some (OStore (mkStore 0%nat (VScalar (SInt 20)) false))
    ∧ Store_value 1%positive w' = (Ok (VScalar (SInt 20)), w', [])
    ∧ VScalar (SInt 20) ≠ VRef 2%positive
    ∧ Store_value 1%positive w' ≠ (Ok (VRef 2%positive), w', []).
Proof.
  apply (Store_set_Store_unwraps no_operations 5 scenario_world 1%positive
           2%positive (mkStore 0%nat (VScalar (SInt 10)) false)
           (mkStore 1%nat (VScalar (SInt 20)) false)).
  - apply no_operations_contract.
  - reflexivity.
  - reflexivity.
Defined.

(** t = Store(0); t.set(Store(t)) leaves [t] wrapping itself; after that
    s.set(t) raises while formatting and [s] keeps its value. *)
Example set_to_self_wrapping_Store :
  let w := mkWorld
             (<[2%positive := OStore (mkStore 1%nat (VRef 2%positive) false)]>
                {[ 1%positive :=
                     OStore (mkStore 0%nat (VScalar (SInt 10)) false) ]})
             2%nat [] false [] in
  Store_set no_operations 1000 1%positive (VRef 2%positive) w
    = (Raise RecursionError, w, []).
Proof. by vm_compute. Qed.

(** * Store.__hash__ and set *)

Lemma Store___hash___run (bh : builtin_hash) (limit : nat) (w : world)
    (a : addr) (t : StoreObj) :
  heap w !! a = Some (OStore t) →
  Store___hash__ bh limit a w =
    (py_hash bh limit (heap w) (__wrapped__ t), w, []).
Proof.
  intros Ha. unfold Store___hash__, bind, load_Store, get_heap, lift.
  by rewrite Ha.
Qed.

(** C5, as stated, fails: the same Store, with the same id, hashes
    differently before and after a [set]. *)
Lemma Store_hash_not_identity_based :
  ∃ w' s s',
    Store_set no_operations 3 1%positive (VScalar (SInt 2)) one_store_world
      = (Ok tt, w', [])
    ∧ heap one_store_world !! 1%positive = Some (OStore s)
    ∧ heap w' !! 1%positive = Some (OStore s')
    ∧ Store_id s = Store_id s'
    ∧ (Store___hash__ int_hash 3 1%positive one_store_world).1.1 = Ok 1%Z
    ∧ (Store___hash__ int_hash 3 1%positive w').1.1 = Ok 2%Z.
Proof. do 3 eexists. repeat split; reflexivity. Qed.

(** C5, amended.  [hash(s)] is the hash of the wrapped value, computed
    without looking at the id: two Stores that wrap the same value hash
    alike whatever their ids.  After [s.set(v)], for any [v] and a
    propagator that keeps its contract, the hash of [s] is the hash of the
    value that [s] was given, which is [v], or what [v] wraps when [v] is
    a Store, hashed in the state that the call leaves; for a scalar [v]
    that is the builtin hash of [v].  (A [set] that cannot format the two
    values for the log raises before it writes.) *)
Theorem Store_hash_is_value_hash (trigger : M unit) (bh : builtin_hash)
    (limit flimit : nat) (w : world) (self : addr) (s : StoreObj) (v : value) :
  propagator_contract trigger →
  heap w !! self = Some (OStore s) →
  Store___hash__ bh limit self w =
    (py_hash bh limit (heap w) (__wrapped__ s), w, [])
  ∧ (∀ other t, heap w !! other = Some (OStore t) →
       __wrapped__ t = __wrapped__ s →
       Store___hash__ bh limit other w = Store___hash__ bh limit self w)
  ∧ match py_format flimit (heap w) [] (__wrapped__ s),
          py_format flimit (heap w) [] (unwrap_Store (heap w) v) with
    | Ok _, Ok _ =>
        ∃ r w' ws s',
          Store_set trigger flimit self v w = (r, w', ws)
          ∧ heap w' !! self = Some (OStore s')
          ∧ Store_id s' = Store_id s
          ∧ Store___hash__ bh limit self w' =
              (py_hash bh limit (heap w') (unwrap_Store (heap w) v), w', [])
          ∧ (as_Store (heap w) v = None →
             Store___hash__ bh limit self w' =
               (py_hash bh limit (heap w') v, w', []))
          ∧ (∀ c, v = VScalar c →
             Store___hash__ bh (S limit) self w' =
               (Ok (hash_scalar bh c), w', []))
    | _, _ =>
        Store_set trigger flimit self v w = (Raise RecursionError, w, [])
    end.
Proof.
  intros (T1 & T3 & T2) Hs. split; [by apply Store___hash___run|]. split.
  { intros other t Ho Heq.
    rewrite (Store___hash___run _ _ _ _ _ Ho), (Store___hash___run _ _ _ _ _ Hs).
    by rewrite Heq. }
  rewrite (Store_set_run trigger flimit self v w s Hs).
  destruct (py_format flimit (heap w) [] (__wrapped__ s)) as [[]|e] eqn:F1.
  2:{ by rewrite (py_format_errors _ _ _ _ _ F1). }
  destruct (py_format flimit (heap w) [] (unwrap_Store (heap w) v))
    as [[]|e] eqn:F2.
  2:{ by rewrite (py_format_errors _ _ _ _ _ F2). }
  set (s1 := mkStore (Store_id s) (unwrap_Store (heap w) v)
               (_self_backend_only s)).
  set (w1 := mkWorld (<[self := OStore s1]> (heap w)) (next_id w)
               (modification_queue w
                  ++ [mkMod (Store_id s) (unwrap_Store (heap w) v)])
               (reactive w) (operations w)).
  assert (Hself : heap (trigger w1).1.2 !! self = Some (OStore s1)).
  { apply (T2 w1 self s1 (mkMod (Store_id s) (unwrap_Store (heap w) v)));
      [| |done].
    - apply lookup_insert_eq.
    - simpl. apply elem_of_app. right. apply list_elem_of_here. }
  destruct (trigger w1) as [[r w'] ws] eqn:Et. simpl in Hself.
  exists r, w', ws, s1.
  assert (Hh : ∀ n, Store___hash__ bh n self w' =
            (py_hash bh n (heap w') (unwrap_Store (heap w) v), w', [])).
  { intros n. by rewrite (Store___hash___run _ _ _ _ _ Hself). }
  split_and!; try done.
  - intros Hn. rewrite Hh. by rewrite (unwrap_Store_not_Store _ _ Hn).
  - intros c ->. by rewrite Hh.
Qed.

Lemma Store_hash_is_value_hash_witness :
  ∃ w' s',
    Store_set no_operations 3 1%positive (VScalar (SInt 2)) one_store_world
      = (Ok tt, w', [])
    ∧ heap w' !! 1%positive = Some (OStore s')
    ∧ Store_id s' = 7%nat
    ∧ Store___hash__ int_hash 3 1%positive one_store_world
      = (Ok 1%Z, one_store_world, [])
    ∧ Store___hash__ int_hash 3 1%positive w' = (Ok 2%Z, w', []).
Proof.
  destruct (Store_hash_is_value_hash no_operations int_hash 2 3 one_store_world
              1%positive (mkStore 7%nat (VScalar (SInt 1)) false)
              (VScalar (SInt 2)) no_operations_contract eq_refl)
    as (Hbefore & _ & Hafter).
  simpl in Hafter.
  destruct Hafter as (r & w' & ws & s' & Hrun & Hs' & Hid & _ & _ & Hc).
  assert (Hr : r = Ok tt ∧ ws = []).
  { vm_compute in Hrun. by injection Hrun as <- _ <-. }
  destruct Hr as [-> ->]. exists w', s'. split_and!; try done.
  apply (Hc (SInt 2) eq_refl).
Defined.

(** * The interceptor and the methods it decorates *)

(** ** The packer on the arguments of a call *)

Lemma pack_args_quiet limit args w : quiet w (pack_args limit args w).
Proof.
  unfold pack_args. apply unpack_seq_quiet.
  intros x w0. apply unpack_shallow_quiet.
Qed.

Lemma unpack_seq_scalars limit (cs : list scalar) : ∀ acc sacc w,
  unpack_seq (λ x, _unpack_stores_from_object (S limit) x false)
    (map VScalar cs) acc sacc w
  = (Ok (acc ++ map VScalar cs, sacc), w, []).
Proof.
  induction cs as [|c cs IH]; intros acc sacc w.
  - simpl. unfold ret. by rewrite app_nil_r.
  - cbn [map unpack_seq].
    rewrite (bind_Ok _ _ w w (VScalar c, []) [] (unpack_scalar limit c false w)).
    cbn [fst snd app]. rewrite IH. by rewrite <-app_assoc, app_nil_r.
Qed.

(** Scalar arguments reach the function as they are. *)
Lemma pack_args_scalars limit (cs : list scalar) w :
  pack_args (S limit) (map VScalar cs) w = (Ok (map VScalar cs, []), w, []).
Proof. unfold pack_args. by rewrite unpack_seq_scalars. Qed.

(** ** The two branches of the interceptor *)

Lemma _reactive_plain limit fn self args body w :
  reactive w = false →
  _reactive limit fn self args body w =
    (let! (raw_args, _) := pack_args limit args in body raw_args) w.
Proof. intros H. unfold _reactive. by rewrite bind_is_reactive, H. Qed.

Lemma _reactive_recorded limit fn self args body w :
  reactive w = true →
  _reactive limit fn self args body w =
    (let! (raw_args, stores) := pack_args limit args in
     let! result := no_react (body raw_args) in
     let! out := Store___init__ limit result false in
     let! h := get_heap in
     register_operation fn (Store_ids h (self :: stores)) (Store_ids h [out]) ;;;
     ret (VRef out)) w.
Proof. intros H. unfold _reactive. by rewrite bind_is_reactive, H. Qed.

(** Outside a reactive scope, with scalar arguments, the call is the call
    of the function. *)
Lemma _reactive_plain_scalars limit fn self (cs : list scalar) body w :
  reactive w = false →
  _reactive (S limit) fn self (map VScalar cs) body w
  = body (map VScalar cs) w.
Proof.
  intros H. rewrite _reactive_plain by done.
  rewrite (bind_Ok _ _ w w (map VScalar cs, []) [] (pack_args_scalars _ _ _)).
  cbn [fst snd app]. by destruct (body (map VScalar cs) w) as [[r w'] ws].
Qed.

(** ** What a call may change *)

Lemma grows_refl {A} (r : res A) w ws : grows w (r, w, ws).
Proof. by repeat split. Qed.

Lemma grows_bind {A B} (m : M A) (k : A → M B) w :
  grows w (m w) → (∀ a w1, grows w1 (k a w1)) → grows w (bind m k w).
Proof.
  intros (H1 & H2 & H3 & H4) Hk. unfold bind.
  destruct (m w) as [[[a|e] w1] ws]; simpl in *; [|done].
  destruct (Hk a w1) as (K1 & K2 & K3 & K4).
  destruct (k a w1) as [[r w2] ws2]; simpl in *.
  repeat split; try congruence; by etrans.
Qed.

Lemma grows_no_react {A} (m : M A) w :
  (∀ w0, grows w0 (m w0)) → grows w (no_react m w).
Proof.
  intros Hm. rewrite no_react_run.
  destruct (Hm (set_reactive false w)) as (H1 & H2 & H3 & H4).
  by repeat split.
Qed.

Lemma grows_quiet {A} w (r : res A * world * list string) :
  quiet w r → grows w r.
Proof.
  intros ((H1 & H2 & H3 & H4 & _) & _). repeat split; try done. by rewrite H2.
Qed.

Lemma grows_lift {A} (r : res A) w : grows w (lift r w).
Proof. apply grows_refl. Qed.

Lemma grows_alloc w o : grows w (alloc o w).
Proof. repeat split; simpl; try done. apply alloc_extends. Qed.

Lemma grows_new_id w : grows w (new_id w).
Proof. repeat split; simpl; try done. lia. Qed.

Lemma grows_load_Store self w : grows w (load_Store self w).
Proof.
  unfold load_Store. destruct (heap w !! self) as [[| | | |s]|];
    apply grows_refl.
Qed.

Lemma grows_Store___init__ limit v b w : grows w (Store___init__ limit v b w).
Proof.
  unfold Store___init__. apply grows_bind; [apply grows_refl|]. intros h w1.
  apply grows_bind; [apply grows_lift|]. intros cls w2.
  apply grows_bind; [destruct cls; apply grows_refl|]. intros _ w3.
  apply grows_bind; [apply grows_new_id|]. intros i w4. apply grows_alloc.
Qed.

Lemma grows_register_operation fn ins outs w :
  grows w (register_operation fn ins outs w).
Proof.
  unfold register_operation. apply grows_bind; [apply grows_new_id|].
  intros i w1. by repeat split.
Qed.

(** The interceptor keeps what its function keeps. *)
Lemma grows__reactive limit fn self args body w :
  (∀ raw w0, grows w0 (body raw w0)) →
  grows w (_reactive limit fn self args body w).
Proof.
  intros Hbody. unfold _reactive. apply grows_bind; [apply grows_refl|].
  intros r w1. destruct r.
  - apply grows_bind; [apply grows_quiet, pack_args_quiet|].
    intros [raw stores] w2.
    apply grows_bind; [by apply grows_no_react|]. intros result w3.
    apply grows_bind; [apply grows_Store___init__|]. intros out w4.
    apply grows_bind; [apply grows_refl|]. intros h w5.
    apply grows_bind; [apply grows_register_operation|]. intros _ w6.
    apply grows_refl.
  - apply grows_bind; [apply grows_quiet, pack_args_quiet|].
    intros [raw stores] w2. apply Hbody.
Qed.

(** ** Operators *)

Lemma grows_builtin_binop bo limit op x y w :
  grows w (builtin_binop bo limit op x y w).
Proof.
  unfold builtin_binop. apply grows_bind; [apply grows_refl|]. intros h w1.
  destruct (container_binop bo limit op h x y) as [r|].
  - apply grows_bind; [apply grows_lift|]. intros [v|o] w2.
    + apply grows_refl.
    + apply grows_bind; [apply grows_alloc|]. intros a w3. apply grows_refl.
  - apply grows_bind; [apply grows_lift|]. intros c w2. apply grows_refl.
Qed.

Lemma grows_Store___op__ bo limit : ∀ op reflected self other w,
  grows w (Store___op__ bo limit op reflected self other w).
Proof.
  induction limit as [|limit IH]; intros op reflected self other w.
  { apply grows_refl. }
  cbn [Store___op__]. apply grows__reactive. intros raw w0.
  destruct raw as [|x [|y raw]]; try apply grows_refl.
  apply grows_bind; [apply grows_load_Store|]. intros s w1.
  apply grows_bind; [apply grows_refl|]. intros h w2.
  destruct (as_Store h _) as [[a sa]|]; [apply IH|].
  destruct (as_Store h _) as [[b sb]|]; [apply IH|].
  apply grows_builtin_binop.
Qed.

(** C7. Each of the thirteen in-place methods of a Store [s], on any
    operand and in either context, emits its warning and then does what
    the out-of-place operator does on the same operands: the same result
    or exception, the same final world and the same further warnings.
    The call leaves [s] as it was, wrapped value included, and with it
    every object that existed before, so a wrapped list or dict is not
    mutated either; nothing is queued (no [set] took place) and the
    reactive flag is as before. *)
Theorem Store_inplace_is_out_of_place (bo : builtin_ops) (limit : nat)
    (op : binop) (self : addr) (other : value) (w : world) (s : StoreObj) :
  heap w !! self = Some (OStore s) →
  ∃ r w' ws,
    Store___op__ bo limit op false self other w = (r, w', ws)
    ∧ inplace_method op bo limit self other w
      = (r, w', inplace_warning s op :: ws)
    ∧ heap w' !! self = Some (OStore s)
    ∧ (∀ a o, heap w !! a = Some o → heap w' !! a = Some o)
    ∧ modification_queue w' = modification_queue w
    ∧ reactive w' = reactive w.
Proof.
  intros Hs.
  pose proof (grows_Store___op__ bo limit op false self other w) as Hg.
  destruct (Store___op__ bo limit op false self other w) as [[r w'] ws] eqn:E.
  destruct Hg as (H1 & H2 & H3 & H4). simpl in *.
  exists r, w', ws. split_and!; try done.
  - assert (Hm : inplace_method op bo limit = Store___iop__ bo limit op)
      by (by destruct op).
    rewrite Hm. unfold Store___iop__.
    rewrite (bind_load_Store _ _ self s) by done.
    rewrite bind_warn. by rewrite E.
  - by apply (lookup_weaken _ _ _ _ Hs).
  - intros a o Ha. by apply (lookup_weaken _ _ _ _ Ha).
Qed.

Lemma Store_inplace_is_out_of_place_witness :
  ∃ w' out,
    Store___op__ int_ops 5 Op_add false 1%positive (VScalar (SInt 5))
      scenario_world = (Ok (VRef out), w', [])
    ∧ Store___iadd__ int_ops 5 1%positive (VScalar (SInt 5)) scenario_world
      = (Ok (VRef out), w',
         ["Store.__iadd__ is out-of-place. Use __add__ instead."])
    ∧ heap w' !! out = Some (OStore (mkStore 2%nat (VScalar (SInt 15)) false))
    ∧ heap w' !! 1%positive
      = Some (OStore (mkStore 0%nat (VScalar (SInt 10)) false))
    ∧ modification_queue w' = []
    ∧ reactive w' = true.
Proof.
  destruct (Store_inplace_is_out_of_place int_ops 5 Op_add 1%positive
              (VScalar (SInt 5)) scenario_world
              (mkStore 0%nat (VScalar (SInt 10)) false) eq_refl)
    as (r & w' & ws & Hop & Hiop & Hself & _ & Hq & Hr).
  assert (Hrun : ∃ out, r = Ok (VRef out) ∧ ws = []
                 ∧ heap w' !! out
                   = Some (OStore (mkStore 2%nat (VScalar (SInt 15)) false))).
  { vm_compute in Hop. injection Hop as <- <- <-. eexists. split; [done|].
    split; [done|]. by vm_compute. }
  destruct Hrun as (out & -> & -> & Hout).
  exists w', out. split_and!; done.
Defined.

(** Outside a reactive scope the same call returns the plain sum. *)
Example iadd_outside_reactive_scope :
  Store___iadd__ int_ops 5 1%positive (VScalar (SInt 1)) one_store_world
  = (Ok (VScalar (SInt 2)), one_store_world,
     ["Store.__iadd__ is out-of-place. Use __add__ instead."]).
Proof. by vm_compute. Qed.

(** [l = Store([1]); l += [2]] outside a reactive scope: the result is a
    new list and the wrapped one still has one item. *)
Example iadd_list_is_a_new_list :
  let w :=
    mkWorld
      (<[3%positive := OList [VScalar (SInt 2)]]>
         (<[2%positive := OStore (mkStore 0%nat (VRef 1%positive) false)]>
            {[ 1%positive := OList [VScalar (SInt 1)] ]}))
      1%nat [] false [] in
  ∃ new w',
    Store___iadd__ int_ops 5 2%positive (VRef 3%positive) w
      = (Ok (VRef new), w',
         ["Store.__iadd__ is out-of-place. Use __add__ instead."])
    ∧ heap w' !! new = Some (OList [VScalar (SInt 1); VScalar (SInt 2)])
    ∧ heap w' !! 1%positive = Some (OList [VScalar (SInt 1)])
    ∧ new ≠ 1%positive.
Proof.
  eexists _, _. split; [by vm_compute|]. split_and!; by vm_compute.
Qed.

(** ** The out-of-place container methods: the function under the decorator *)

Lemma as_Store_weaken h h' v a s :
  h ⊆ h' → as_Store h v = Some (a, s) → as_Store h' v = Some (a, s).
Proof.
  intros Hsub. destruct v as [c|b]; [done|]. simpl.
  destruct (h !! b) as [o|] eqn:Hb; [|done].
  rewrite (lookup_weaken _ _ _ _ Hb Hsub). by destruct o.
Qed.

Lemma ObjectProxy_target_weaken limit : ∀ h h' v d o,
  h ⊆ h' → h !! d = Some o →
  ObjectProxy_target limit h v = Ok (VRef d) →
  ObjectProxy_target limit h' v = Ok (VRef d).
Proof.
  induction limit as [|limit IH]; intros h h' v d o Hsub Hd Ht.
  - simpl in *. destruct (as_Store h v) as [[a s]|] eqn:E; [done|].
    injection Ht as ->. simpl in *. rewrite Hd in E.
    rewrite (lookup_weaken _ _ _ _ Hd Hsub). by destruct o.
  - simpl in *. destruct (as_Store h v) as [[a s]|] eqn:E.
    + rewrite (as_Store_weaken _ _ _ _ _ Hsub E). by apply (IH h h' _ d o).
    + injection Ht as ->. simpl in *. rewrite Hd in E.
      rewrite (lookup_weaken _ _ _ _ Hd Hsub). by destruct o.
Qed.


Lemma object_delitem_kind limit h o key o' :
  object_delitem limit h o key = Ok o' →
  (∃ xs xs', o = OList xs ∧ o' = OList xs')
  ∨ (∃ d d', o = ODict d ∧ o' = ODict d').
Proof.
  destruct o as [xs|xs|d|it|s]; simpl; try done.
  - destruct (py_index limit h key) as [i|]; simpl; [|done].
    destruct (list___delitem__ xs i) as [xs'|]; simpl; [|done].
    intros [= <-]. left. eauto.
  - destruct (dict___delitem__ limit h d key) as [d'|]; simpl; [|done].
    intros [= <-]. right. eauto.
Qed.

Lemma py_copy_spec limit v w d o :
  ObjectProxy_target limit (heap w) v = Ok (VRef d) →
  heap w !! d = Some o →
  match o with OList _ | ODict _ => True | _ => False end →
  py_copy limit v w =
    (Ok (fresh (dom (heap w))),
     set_heap (<[fresh (dom (heap w)) := o]> (heap w)) w, []).
Proof.
  intros Ht Hd Ho. unfold py_copy. rewrite bind_get_heap, Ht, bind_lift_Ok, Hd.
  by destruct o.
Qed.

Lemma py_delitem_spec limit c key w o o' :
  heap w !! c = Some o →
  object_delitem limit (heap w) o key = Ok o' →
  py_delitem limit c key w
    = (Ok tt, set_heap (<[c := o']> (heap w)) w, []).
Proof.
  intros Hc Hdel. unfold py_delitem.
  by rewrite bind_get_heap, Hc, Hdel, bind_lift_Ok.
Qed.

(** The three methods have one shape: copy, change the copy, warn, wrap
    the copy. *)
Section OutOfPlace.
Variable limit : nat.
Variable mutate : addr → M unit.
Variable msg : StoreObj → string.
Variables (self a : addr) (s : StoreObj) (o : object) (w : world).
Hypothesis Hself : heap w !! self = Some (OStore s).
Hypothesis Htarget :
  ObjectProxy_target limit (heap w) (__wrapped__ s) = Ok (VRef a).
Hypothesis Ha : heap w !! a = Some o.
Hypothesis Ho : match o with OList _ | ODict _ => True | _ => False end.

Let c := fresh (dom (heap w)).
Let w1 := set_heap (<[c := o]> (heap w)) w.
Let run :=
  let! s := load_Store self in
  let! obj := py_copy limit (__wrapped__ s) in
  mutate obj ;;;
  warn (msg s) ;;;
  let! new := Store___init__ limit (VRef obj) (_self_backend_only s) in
  ret (VRef new).

Lemma out_of_place_Raise e :
  mutate c w1 = (Raise e, w1, []) →
  run w = (Raise e, set_heap (<[c := o]> (heap w)) w, []).
Proof.
  intros Hm. unfold run.
  rewrite (bind_load_Store _ _ self s) by done.
  rewrite (bind_Ok _ _ w w1 c [])
    by (by apply (py_copy_spec limit _ w a o)).
  by rewrite (bind_Raise _ _ _ _ _ _ Hm).
Qed.

Lemma out_of_place_Ok o' :
  mutate c w1 = (Ok tt, set_heap (<[c := o']> (heap w1)) w1, []) →
  match o' with OList _ | ODict _ => True | _ => False end →
  let h2 := <[c := o']> (heap w) in
  run w =
    (Ok (VRef (fresh (dom h2))),
     mkWorld
       (<[fresh (dom h2) := OStore (mkStore (next_id w) (VRef c)
                                      (_self_backend_only s))]> h2)
       (S (next_id w)) (modification_queue w) (reactive w) (operations w),
     [msg s]).
Proof.
  intros Hm Ho' h2.
  set (w2 := set_heap h2 w).
  assert (Hw2 : set_heap (<[c := o']> (heap w1)) w1 = w2).
  { unfold w2, set_heap. simpl. f_equal. apply insert_insert_eq. }
  rewrite Hw2 in Hm.
  assert (Hinit : Store___init__ limit (VRef c) (_self_backend_only s) w2 =
            (Ok (fresh (dom h2)),
             mkWorld
               (<[fresh (dom h2) := OStore (mkStore (next_id w) (VRef c)
                                              (_self_backend_only s))]> h2)
               (S (next_id w)) (modification_queue w) (reactive w)
               (operations w),
             [])).
  { rewrite (Store___init___not_Store limit w2 (VRef c)).
    - simpl. unfold h2 at 4. rewrite lookup_insert_eq. by destruct o'.
    - simpl. unfold h2. rewrite lookup_insert_eq. by destruct o'. }
  unfold run.
  rewrite (bind_load_Store _ _ self s) by done.
  rewrite (bind_Ok _ _ w w1 c [])
    by (by apply (py_copy_spec limit _ w a o)).
  rewrite (bind_Ok _ _ w1 w2 tt [] Hm).
  rewrite bind_warn.
  by rewrite (bind_Ok _ _ w2 _ _ _ Hinit).
Qed.

(** Where things are after a successful call. *)
Lemma out_of_place_heap o' :
  let h2 := <[c := o']> (heap w) in
  let new := fresh (dom h2) in
  let h3 := <[new := OStore (mkStore (next_id w) (VRef c)
                               (_self_backend_only s))]> h2 in
  heap w !! c = None
  ∧ heap w !! new = None
  ∧ c ≠ new
  ∧ h3 !! new = Some (OStore (mkStore (next_id w) (VRef c)
                             (_self_backend_only s)))
  ∧ h3 !! c = Some o'
  ∧ h3 !! a = Some o
  ∧ h3 !! self = Some (OStore s)
  ∧ heap w ⊆ h3.
Proof.
  intros h2 new h3.
  assert (Hc : heap w !! c = None) by apply fresh_addr_unused.
  assert (Hn2 : h2 !! new = None) by apply fresh_addr_unused.
  assert (Hsub2 : heap w ⊆ h2) by (by apply insert_subseteq).
  assert (Hsub3 : heap w ⊆ h3).
  { etrans; [exact Hsub2|]. by apply insert_subseteq. }
  assert (Hn : heap w !! new = None).
  { destruct (heap w !! new) as [x|] eqn:E; [|done].
    apply (lookup_weaken _ _ _ _ E) in Hsub2. congruence. }
  assert (Hne : c ≠ new).
  { intros Heq. unfold h2 in Hn2. rewrite <-Heq, lookup_insert_eq in Hn2.
    done. }
  split_and!; try done.
  - apply lookup_insert_eq.
  - unfold h3, h2. by rewrite lookup_insert_ne, lookup_insert_eq.
  - by apply (lookup_weaken _ _ _ _ Ha).
  - by apply (lookup_weaken _ _ _ _ Hself).
Qed.
End OutOfPlace.

(** ** A call through the interceptor *)

Lemma pack_args_Ok limit args w raw stores w1 ws :
  pack_args limit args w = (Ok (raw, stores), w1, ws) →
  frame w w1 ∧ ws = [] ∧ length raw = length args
  ∧ Forall (is_Store_at (heap w)) stores.
Proof.
  intros Hpack. pose proof (pack_args_quiet limit args w) as (Hfr & Hws & _).
  rewrite Hpack in Hfr, Hws. simpl in *. split_and!; try done.
  - unfold pack_args in Hpack.
    by rewrite (unpack_seq_length _ _ _ _ _ _ _ _ _ Hpack).
  - unfold pack_args in Hpack.
    apply (unpack_seq_collects
             (λ x, _unpack_stores_from_object limit x false)
             (λ x w, unpack_shallow_quiet limit x w)
             (λ x w, unpack_shallow_keeps limit x w)
             (unpack_shallow_collects limit)
             args [] [] w raw stores w1 ws Hpack).
    constructor.
Qed.




(** In a reactive scope a failure of the function is the failure of the
    call, and nothing is wrapped or recorded. *)
Lemma _reactive_recorded_Raise limit fn self args body w raw stores w1 e w2
    ws2 :
  reactive w = true →
  pack_args limit args w = (Ok (raw, stores), w1, []) →
  no_react (body raw) w1 = (Raise e, w2, ws2) →
  _reactive limit fn self args body w = (Raise e, w2, ws2).
Proof.
  intros Hr Hpack Hbody. rewrite _reactive_recorded by done.
  rewrite (bind_Ok _ _ w w1 (raw, stores) [] Hpack). cbn [fst snd app].
  by rewrite (bind_Raise _ _ w1 w2 e ws2 Hbody).
Qed.

Lemma _reactive_plain_run limit fn self args body w raw stores w1 :
  reactive w = false →
  pack_args limit args w = (Ok (raw, stores), w1, []) →
  _reactive limit fn self args body w = body raw w1.
Proof.
  intros Hr Hpack. rewrite _reactive_plain by done.
  rewrite (bind_Ok _ _ w w1 (raw, stores) [] Hpack). cbn [fst snd app].
  by destruct (body raw w1) as [[r w2] ws2].
Qed.

(** ** Store.__delitem__ *)





(** ** The out-of-place methods need [copy] *)

Lemma ObjectProxy_target_grows limit : ∀ h h' v t,
  h ⊆ h' →
  ObjectProxy_target limit h v = Ok t →
  (∀ d, t = VRef d → is_Some (h !! d)) →
  ObjectProxy_target limit h' v = Ok t ∧ type_ h' t = type_ h t.
Proof.
  assert (Hend : ∀ h h' t, h ⊆ h' → as_Store h t = None →
            (∀ d, t = VRef d → is_Some (h !! d)) →
            as_Store h' t = None ∧ type_ h' t = type_ h t).
  { intros h h' [c|d] Hsub E Hal; [done|].
    destruct (Hal d eq_refl) as [o Hd]. simpl in *. rewrite Hd in *.
    by rewrite (lookup_weaken _ _ _ _ Hd Hsub). }
  induction limit as [|limit IH]; intros h h' v t Hsub Ht Hal.
  - simpl in *. destruct (as_Store h v) as [[a s]|] eqn:E; [done|].
    injection Ht as ->. destruct (Hend h h' t Hsub E Hal) as [E' Hty].
    by rewrite E'.
  - simpl in *. destruct (as_Store h v) as [[a s]|] eqn:E.
    + rewrite (as_Store_weaken _ _ _ _ _ Hsub E). by apply IH.
    + injection Ht as ->. destruct (Hend h h' t Hsub E Hal) as [E' Hty].
      by rewrite E'.
Qed.

Lemma py_copy_AttributeError limit v w t :
  ObjectProxy_target limit (heap w) v = Ok t →
  match type_ (heap w) t with Cls_list | Cls_dict => False | _ => True end →
  py_copy limit v w = (Raise AttributeError, w, []).
Proof.
  intros Ht Hcls. unfold py_copy. rewrite bind_get_heap, Ht, bind_lift_Ok.
  destruct t as [c|a]; [done|]. simpl in Hcls.
  by destruct (heap w !! a) as [[xs|xs|d|it|s]|].
Qed.

(** A function that begins with [self.__wrapped__.copy()] fails there,
    alone or under the interceptor, in either context. *)
Section NeedsCopy.
Variables (limit : nat) (fn : string) (self : addr) (s : StoreObj).
Variables (args : list value) (body : list value → M value).
Variable rest : list value → StoreObj → addr → M value.
Hypothesis body_copies : ∀ raw, length raw = length args →
  body raw =
    (let! s := load_Store self in
     let! obj := py_copy limit (__wrapped__ s) in
     rest raw s obj).

Lemma needs_copy_body raw w t :
  length raw = length args →
  heap w !! self = Some (OStore s) →
  ObjectProxy_target limit (heap w) (__wrapped__ s) = Ok t →
  match type_ (heap w) t with Cls_list | Cls_dict => False | _ => True end →
  body raw w = (Raise AttributeError, w, []).
Proof.
  intros Hlen Hs Ht Hcls. rewrite body_copies by done.
  rewrite (bind_load_Store _ _ self s) by done.
  by rewrite (bind_Raise _ _ _ _ _ _
                (py_copy_AttributeError limit _ w t Ht Hcls)).
Qed.

Lemma needs_copy_call w t :
  heap w !! self = Some (OStore s) →
  ObjectProxy_target limit (heap w) (__wrapped__ s) = Ok t →
  match type_ (heap w) t with Cls_list | Cls_dict => False | _ => True end →
  (∀ d, t = VRef d → is_Some (heap w !! d)) →
  _reactive limit fn self args body w =
    (match (pack_args limit args w).1.1 with
     | Ok _ => Raise AttributeError
     | Raise e => Raise e
     end,
     (pack_args limit args w).1.2, []).
Proof.
  intros Hs Ht Hcls Hal.
  destruct (pack_args limit args w) as [[[[raw stores]|e] w1] ws] eqn:Hpack.
  2:{ pose proof (pack_args_quiet limit args w) as (_ & Hws & _).
      rewrite Hpack in Hws. simpl in Hws. subst ws. simpl.
      unfold _reactive. rewrite bind_is_reactive.
      by destruct (reactive w);
        rewrite (bind_Raise _ _ w w1 e [] Hpack). }
  destruct (pack_args_Ok _ _ _ _ _ _ _ Hpack)
    as ((Hsub & Hid & Hq & Hr & Hops) & -> & Hlen & Hst).
  destruct (ObjectProxy_target_grows limit (heap w) (heap w1) _ t Hsub Ht Hal)
    as [Ht1 Hty].
  assert (Hs1 : heap w1 !! self = Some (OStore s))
    by (by apply (lookup_weaken _ _ _ _ Hs)).
  simpl. destruct (reactive w) eqn:Hrw.
  - apply (_reactive_recorded_Raise limit fn self args body w raw stores w1);
      [done|done|].
    rewrite no_react_run.
    rewrite (needs_copy_body raw (set_reactive false w1) t); try done.
    + simpl. by rewrite set_reactive_restore.
    + simpl. by rewrite Hty.
  - rewrite (_reactive_plain_run limit fn self args body w raw stores w1)
      by done.
    apply (needs_copy_body raw w1 t); try done. by rewrite Hty.
Qed.
End NeedsCopy.

(** X10. The three out-of-place container methods start with
    [self.__wrapped__.copy()], so on a Store whose value (behind any
    further proxies) is not a list or a dict, a tuple, a str, a number,
    [None] or an iterator, they raise [AttributeError] as soon as the
    interceptor has packed the arguments, in a reactive scope or outside
    one: no warning is emitted, nothing is wrapped or registered, and the
    world is the one the packer leaves (which can only raise
    [RecursionError] or [TypeError] itself).  With scalar arguments the
    packer has nothing to do and the world is exactly as before. *)
Theorem Store_out_of_place_needs_copy (limit : nat) (w : world) (self : addr)
    (s : StoreObj) (t key i j v : value) :
  heap w !! self = Some (OStore s) →
  ObjectProxy_target limit (heap w) (__wrapped__ s) = Ok t →
  match type_ (heap w) t with Cls_list | Cls_dict => False | _ => True end →
  (∀ d, t = VRef d → is_Some (heap w !! d)) →
  let outcome (args : list value) : res value * world * list string :=
    (match (pack_args limit args w).1.1 with
     | Ok _ => Raise AttributeError
     | Raise e => Raise e
     end,
     (pack_args limit args w).1.2, []) in
  Store___delitem__ limit self key w = outcome [key]
  ∧ Store___delslice__ limit self i j w = outcome [i; j]
  ∧ Store___setslice__ limit self i j v w = outcome [i; j; v]
  ∧ (∀ args, quiet w (pack_args limit args w))
  ∧ ((0 < limit)%nat → ∀ ck ci cj cv : scalar,
       Store___delitem__ limit self (VScalar ck) w
         = (Raise AttributeError, w, [])
       ∧ Store___delslice__ limit self (VScalar ci) (VScalar cj) w
         = (Raise AttributeError, w, [])
       ∧ Store___setslice__ limit self (VScalar ci) (VScalar cj) (VScalar cv) w
         = (Raise AttributeError, w, [])).
Proof.
  intros Hs Ht Hcls Hal outcome.
  assert (Hdi : ∀ key, Store___delitem__ limit self key w = outcome [key]).
  { intros k.
    apply (needs_copy_call limit "__delitem__" self s [k] _
             (λ raw s obj,
                match raw with
                | [key] =>
                    py_delitem limit obj key ;;;
                    warn (delitem_warning s) ;;;
                    let! new := Store___init__ limit (VRef obj)
                                  (_self_backend_only s) in
                    ret (VRef new)
                | _ => raise TypeError
                end)) with (t := t); try done.
    by intros [|x [|y raw]]. }
  assert (Hds : ∀ i j, Store___delslice__ limit self i j w = outcome [i; j]).
  { intros a b.
    apply (needs_copy_call limit "__delslice__" self s [a; b] _
             (λ raw s obj,
                match raw with
                | [i; j] =>
                    py_delslice limit obj i j ;;;
                    warn (delslice_warning s) ;;;
                    let! new := Store___init__ limit (VRef obj)
                                  (_self_backend_only s) in
                    ret (VRef new)
                | _ => raise TypeError
                end)) with (t := t); try done.
    by intros [|x [|y [|z raw]]]. }
  assert (Hss : ∀ i j v,
            Store___setslice__ limit self i j v w = outcome [i; j; v]).
  { intros a b c.
    apply (needs_copy_call limit "__setslice__" self s [a; b; c] _
             (λ raw s obj,
                match raw with
                | [i; j; v] =>
                    py_setslice limit obj i j v ;;;
                    warn (setslice_warning s) ;;;
                    let! new := Store___init__ limit (VRef obj)
                                  (_self_backend_only s) in
                    ret (VRef new)
                | _ => raise TypeError
                end)) with (t := t); try done.
    by intros [|x [|y [|z [|u raw]]]]. }
  split_and!; try done.
  - intros args. apply pack_args_quiet.
  - intros Hl ck ci cj cv. destruct limit as [|limit]; [lia|].
    rewrite Hdi, Hds, Hss. unfold outcome.
    rewrite (pack_args_scalars limit [ck]), (pack_args_scalars limit [ci; cj]),
      (pack_args_scalars limit [ci; cj; cv]). done.
Qed.

Lemma Store_out_of_place_needs_copy_witness :
  Store___delitem__ 3 1%positive (VScalar (SInt 0)) scenario_world
    = (Raise AttributeError, scenario_world, [])
  ∧ Store___delslice__ 3 1%positive (VScalar (SInt 0)) (VScalar (SInt 1))
      scenario_world
    = (Raise AttributeError, scenario_world, [])
  ∧ Store___setslice__ 3 1%positive (VScalar (SInt 0)) (VScalar (SInt 1))
      (VScalar (SStr "ab")) scenario_world
    = (Raise AttributeError, scenario_world, [])
  ∧ Store___setslice__ 3 1%positive (VScalar (SInt 0)) (VScalar (SInt 1))
      (VRef 3%positive) scenario_world
    = (Raise AttributeError,
       set_heap (<[5%positive := OList [VScalar (SInt 20); VScalar (SInt 5)]]>
                   (heap scenario_world)) scenario_world,
       []).
Proof.
  assert (Hal : ∀ d, VScalar (SInt 10) = VRef d →
            is_Some (heap scenario_world !! d)) by done.
  destruct (Store_out_of_place_needs_copy 3 scenario_world 1%positive
              (mkStore 0%nat (VScalar (SInt 10)) false) (VScalar (SInt 10))
              (VScalar (SInt 0)) (VScalar (SInt 0)) (VScalar (SInt 1))
              (VRef 3%positive) eq_refl eq_refl I Hal)
    as (_ & _ & Hlist & _ & Hscalars).
  destruct (Hscalars ltac:(lia) (SInt 0) (SInt 0) (SInt 1) (SStr "ab"))
    as (H1 & H2 & H3).
  split; [exact H1|]. split; [exact H2|]. split; [exact H3|].
  rewrite Hlist. by vm_compute.
Defined.

(** ** The out-of-place methods outside a reactive scope: every outcome *)

Lemma pack_args_keeps limit args w :
  no_new_Store w (pack_args limit args w).1.2.
Proof.
  unfold pack_args. apply unpack_seq_keeps.
  intros x w0. apply unpack_shallow_keeps.
Qed.

Lemma py_copy_cases limit v w :
  (∃ e, py_copy limit v w = (Raise e, w, []))
  ∨ (∃ o,
       py_copy limit v w =
         (Ok (fresh (dom (heap w))),
          set_heap (<[fresh (dom (heap w)) := o]> (heap w)) w, [])
       ∧ match o with OList _ | ODict _ => True | _ => False end).
Proof.
  unfold py_copy. rewrite bind_get_heap.
  destruct (ObjectProxy_target limit (heap w) v) as [t|e].
  2:{ rewrite bind_lift_Raise. left. by exists e. }
  rewrite bind_lift_Ok. destruct t as [c|a]; [left; by eexists|].
  destruct (heap w !! a) as [[xs|xs|d|it|s]|]; try (left; by eexists).
  - right. by exists (OList xs).
  - right. by exists (ODict d).
Qed.

Lemma py_delitem_mutates_copy limit key :
  mutates_copy (λ obj, py_delitem limit obj key).
Proof.
  intros c w1. unfold py_delitem. rewrite bind_get_heap.
  destruct (heap w1 !! c) as [o|]; [|left; by eexists].
  destruct (object_delitem limit (heap w1) o key) as [o'|e] eqn:E.
  - rewrite bind_lift_Ok. right. exists o'. split; [done|].
    by destruct (object_delitem_kind _ _ _ _ _ E)
      as [(xs & xs' & -> & ->)|(dd & dd' & -> & ->)].
  - rewrite bind_lift_Raise. left. by exists e.
Qed.

Lemma py_delslice_mutates_copy limit i j :
  mutates_copy (λ obj, py_delslice limit obj i j).
Proof.
  intros c w1. unfold py_delslice. rewrite bind_get_heap.
  destruct (heap w1 !! c) as [[xs|xs|d|it|s]|]; try (left; by eexists).
  destruct (slice_arg limit (heap w1) 0 i) as [lo|e].
  2:{ rewrite bind_lift_Raise. left. by exists e. }
  rewrite bind_lift_Ok.
  destruct (slice_arg limit (heap w1) (Z.of_nat (length xs)) j) as [hi|e].
  2:{ rewrite bind_lift_Raise. left. by exists e. }
  rewrite bind_lift_Ok. right. by eexists.
Qed.

(** The function under the decorator. *)
Lemma out_of_place_outcomes (limit : nat) (mutate : addr → M unit)
    (msg : string) (self : addr) (s : StoreObj) (w : world) :
  heap w !! self = Some (OStore s) →
  mutates_copy mutate →
  out_of_place_outcome msg s w
    ((let! s := load_Store self in
      let! obj := py_copy limit (__wrapped__ s) in
      mutate obj ;;;
      warn msg ;;;
      let! new := Store___init__ limit (VRef obj) (_self_backend_only s) in
      ret (VRef new)) w).
Proof.
  intros Hs Hmut. unfold out_of_place_outcome.
  rewrite (bind_load_Store _ _ self s) by done.
  destruct (py_copy_cases limit (__wrapped__ s) w) as [[e Hc]|[o [Hc Ho]]].
  { rewrite (bind_Raise _ _ _ _ _ _ Hc). simpl.
    split_and!; try done. by intros a st. }
  set (c := fresh (dom (heap w))) in *.
  set (w1 := set_heap (<[c := o]> (heap w)) w) in *.
  assert (Hc0 : heap w !! c = None) by apply fresh_addr_unused.
  rewrite (bind_Ok _ _ w w1 c [] Hc). cbn [fst snd].
  destruct (Hmut c w1) as [[e Hm]|[o' [Hm Ho']]].
  { rewrite (bind_Raise _ _ _ _ _ _ Hm). simpl.
    split_and!; try done.
    - by apply insert_subseteq.
    - intros a st. simpl. destruct (decide (a = c)) as [->|Hne].
      + rewrite lookup_insert_eq. intros [= ->]. done.
      + by rewrite lookup_insert_ne. }
  set (w2 := set_heap (<[c := o']> (heap w1)) w1) in *.
  rewrite (bind_Ok _ _ w1 w2 tt [] Hm). cbn [fst snd].
  rewrite bind_warn. cbn [fst snd].
  assert (Hh2 : heap w2 = <[c := o']> (heap w)).
  { simpl. apply insert_insert_eq. }
  assert (Hinit : as_Store (heap w2) (VRef c) = None
                  ∧ match type_ (heap w2) (VRef c) with
                    | Cls_iterator => [iterator_warning]
                    | _ => []
                    end = []).
  { simpl. rewrite lookup_insert_eq. by destruct o'. }
  destruct Hinit as [Hns Hnw].
  set (new := fresh (dom (heap w2))).
  rewrite (bind_Ok _ _ w2 _ new _
             (Store___init___not_Store limit w2 (VRef c)
                (_self_backend_only s) Hns)).
  rewrite Hnw. cbn [fst snd ret app].
  assert (Hsub2 : heap w ⊆ heap w2).
  { rewrite Hh2. by apply insert_subseteq. }
  assert (Hn2 : heap w2 !! new = None) by apply fresh_addr_unused.
  assert (Hn0 : heap w !! new = None).
  { destruct (heap w !! new) as [x|] eqn:E; [|done].
    apply (lookup_weaken _ _ _ _ E) in Hsub2. congruence. }
  assert (Hc2 : heap w2 !! c = Some o').
  { rewrite Hh2. apply lookup_insert_eq. }
  cbn [heap set_reactive modification_queue reactive next_id operations].
  split_and!; try done.
  - etrans; [exact Hsub2|]. by apply insert_subseteq.
  - exists c, new, o'. split_and!; try done.
    + intros Heq. rewrite Heq in Hc2. congruence.
    + apply lookup_insert_eq.
    + rewrite lookup_insert_ne; [done|]. intros Heq. fold new in Heq.
      rewrite Heq in Hn2. congruence.
Qed.

(** An outcome seen from the world before the arguments were packed. *)
Lemma out_of_place_outcome_framed msg s w w1 r :
  frame w w1 → no_new_Store w w1 →
  out_of_place_outcome msg s w1 r → out_of_place_outcome msg s w r.
Proof.
  intros (Hsub & Hid & Hq & Hr & Hops) Hkeep (H1 & H2 & H3 & H4 & H5).
  assert (Hfresh : ∀ x, heap w1 !! x = None → heap w !! x = None).
  { intros x Hx. destruct (heap w !! x) as [y|] eqn:E; [|done].
    apply (lookup_weaken _ _ _ _ E) in Hsub. congruence. }
  split_and!; try congruence; [by etrans|].
  destruct r.1.1 as [v|e].
  - destruct H5
      as (copy & new & o' & K1 & K2 & K3 & K4 & K5 & K6 & K7 & K8 & K9).
    exists copy, new, o'. rewrite <-Hid.
    split_and!; try done; by apply Hfresh.
  - destruct H5 as (K1 & K2 & K3). split_and!; try congruence.
    by eapply no_new_Store_trans.
Qed.

(** The decorated method, outside a reactive scope. *)
Lemma out_of_place_call (limit : nat) (fn : string) (self : addr)
    (s : StoreObj) (args : list value) (body : list value → M value)
    (mutate : list value → addr → M unit) (msg : string) (w : world) :
  reactive w = false →
  heap w !! self = Some (OStore s) →
  (∀ raw, length raw = length args →
     body raw =
       (let! s := load_Store self in
        let! obj := py_copy limit (__wrapped__ s) in
        mutate raw obj ;;;
        warn msg ;;;
        let! new := Store___init__ limit (VRef obj) (_self_backend_only s) in
        ret (VRef new))) →
  (∀ raw, mutates_copy (mutate raw)) →
  out_of_place_outcome msg s w (_reactive limit fn self args body w).
Proof.
  intros Hrw Hs Hbody Hmut.
  pose proof (pack_args_quiet limit args w) as (Hfr & Hws & _).
  pose proof (pack_args_keeps limit args w) as Hkeep.
  destruct (pack_args limit args w) as [[[[raw stores]|e] w1] ws] eqn:Hpack;
    simpl in Hfr, Hws, Hkeep; subst ws.
  - rewrite (_reactive_plain_run limit fn self args body w raw stores w1)
      by done.
    destruct (pack_args_Ok _ _ _ _ _ _ _ Hpack) as (_ & _ & Hlen & _).
    rewrite (Hbody raw Hlen).
    apply (out_of_place_outcome_framed msg s w w1); [done|done|].
    apply out_of_place_outcomes; [|done].
    destruct Hfr as (Hsub & _). by apply (lookup_weaken _ _ _ _ Hs).
  - rewrite _reactive_plain by done.
    rewrite (bind_Raise _ _ w w1 e [] Hpack).
    destruct Hfr as (Hsub & Hid & Hq & Hr & Hops).
    unfold out_of_place_outcome. simpl. split_and!; done.
Qed.

(** X9. [Store.__delitem__(key)] and [Store.__delslice__(i, j)], called
    outside a reactive scope, never touch what exists, whatever the
    wrapped value, the key or the bounds, and whether they succeed or
    fail: the objects present before the call are as they were, nothing
    is queued, no operation is registered and the reactive flag is as
    before.  A call that returns has made exactly one Store, around a new
    list or dict, with the next identifier and the [backend_only] flag of
    the original, and has warned once that it is out-of-place; a call
    that raises has made no Store, used no identifier and emitted no
    warning. *)
Theorem Store_deletion_outcomes (limit : nat) (w : world) (self : addr)
    (s : StoreObj) (key i j : value) :
  reactive w = false →
  heap w !! self = Some (OStore s) →
  out_of_place_outcome (delitem_warning s) s w
    (Store___delitem__ limit self key w)
  ∧ out_of_place_outcome (delslice_warning s) s w
      (Store___delslice__ limit self i j w).
Proof.
  intros Hrw Hs. split.
  - apply (out_of_place_call limit "__delitem__" self s [key] _
             (λ raw obj,
                match raw with
                | [key] => py_delitem limit obj key
                | _ => raise TypeError
                end)); try done.
    + by intros [|x [|y raw]].
    + intros [|x [|y raw]] c w1; try (left; by eexists).
      apply py_delitem_mutates_copy.
  - apply (out_of_place_call limit "__delslice__" self s [i; j] _
             (λ raw obj,
                match raw with
                | [i; j] => py_delslice limit obj i j
                | _ => raise TypeError
                end)); try done.
    + by intros [|x [|y [|z raw]]].
    + intros [|x [|y [|z raw]]] c w1; try (left; by eexists).
      apply py_delslice_mutates_copy.
Qed.

Lemma Store_deletion_outcomes_witness :
  out_of_place_outcome "Store.__delitem__ is out-of-place."
    (mkStore 0%nat (VRef 1%positive) true)
    (set_reactive false dict_store_world)
    (Store___delitem__ 5 2%positive (VScalar (SStr "a"))
       (set_reactive false dict_store_world))
  ∧ out_of_place_outcome "Store.__delslice__ is out-of-place."
      (mkStore 0%nat (VRef 1%positive) true)
      (set_reactive false dict_store_world)
      (Store___delslice__ 5 2%positive (VScalar (SInt 0)) (VScalar (SInt 1))
         (set_reactive false dict_store_world)).
Proof.
  apply (Store_deletion_outcomes 5 (set_reactive false dict_store_world)
           2%positive (mkStore 0%nat (VRef 1%positive) true)).
  - reflexivity.
  - reflexivity.
Defined.

(** Deleting a missing key fails with [KeyError] and leaves only the
    discarded copy behind, also in a reactive scope. *)
Example delitem_missing_key :
  ∃ w',
    Store___delitem__ 5 2%positive (VScalar (SStr "c")) dict_store_world
      = (Raise KeyError, w', [])
    ∧ next_id w' = 1%nat
    ∧ operations w' = []
    ∧ heap w' !! 2%positive
      = Some (OStore (mkStore 0%nat (VRef 1%positive) true)).
Proof. eexists. split; [vm_compute; reflexivity|]. by vm_compute. Qed.

(** ** The out-of-place methods on a Store of a list, outside a reactive scope *)

Section OutOfPlaceListCall.
Variables (limit : nat) (fn : string) (self a : addr) (s : StoreObj).
Variables (xs : list value) (cs : list scalar) (w : world).
Variable body : list value → M value.
Variable mutate : addr → M unit.
Variable msg : StoreObj → string.
Hypothesis Hplain : reactive w = false.
Hypothesis Hself : heap w !! self = Some (OStore s).
Hypothesis Htarget :
  ObjectProxy_target (S limit) (heap w) (__wrapped__ s) = Ok (VRef a).
Hypothesis Ha : heap w !! a = Some (OList xs).
Hypothesis Hbody :
  body (map VScalar cs) =
    (let! s := load_Store self in
     let! obj := py_copy (S limit) (__wrapped__ s) in
     mutate obj ;;;
     warn (msg s) ;;;
     let! new := Store___init__ (S limit) (VRef obj) (_self_backend_only s) in
     ret (VRef new)).

Let c := fresh (dom (heap w)).
Let w1 := set_heap (<[c := OList xs]> (heap w)) w.

Lemma out_of_place_list_call_Ok xs' :
  mutate c w1 = (Ok tt, set_heap (<[c := OList xs']> (heap w1)) w1, []) →
  ∃ copy new w',
    _reactive (S limit) fn self (map VScalar cs) body w
      = (Ok (VRef new), w', [msg s])
    ∧ heap w' !! new
      = Some (OStore (mkStore (next_id w) (VRef copy) (_self_backend_only s)))
    ∧ heap w' !! copy = Some (OList xs')
    ∧ heap w !! copy = None
    ∧ heap w !! new = None
    ∧ heap w' !! a = Some (OList xs)
    ∧ heap w' !! self = Some (OStore s)
    ∧ next_id w' = S (next_id w)
    ∧ modification_queue w' = modification_queue w
    ∧ reactive w' = reactive w
    ∧ operations w' = operations w.
Proof.
  intros Hm.
  rewrite _reactive_plain_scalars by done. rewrite Hbody.
  pose proof (out_of_place_Ok (S limit) mutate msg self a s (OList xs) w
                Hself Htarget Ha I (OList xs') Hm I) as Hrun.
  destruct (out_of_place_heap self a s (OList xs) w Hself Ha (OList xs'))
    as (H1 & H2 & H3 & H4 & H5 & H6 & H7 & H8).
  exists c. eexists _, _. split; [exact Hrun|]. simpl.
  split_and!; done.
Qed.

Lemma out_of_place_list_call_Raise e :
  mutate c w1 = (Raise e, w1, []) →
  ∃ w',
    _reactive (S limit) fn self (map VScalar cs) body w = (Raise e, w', [])
    ∧ next_id w' = next_id w
    ∧ no_new_Store w w'
    ∧ heap w' !! a = Some (OList xs)
    ∧ heap w' !! self = Some (OStore s)
    ∧ modification_queue w' = modification_queue w
    ∧ reactive w' = reactive w
    ∧ operations w' = operations w.
Proof.
  intros Hm.
  rewrite _reactive_plain_scalars by done. rewrite Hbody.
  pose proof (out_of_place_Raise (S limit) mutate msg self a s (OList xs) w
                Hself Htarget Ha I e Hm) as Hrun.
  assert (Hc0 : heap w !! c = None) by apply fresh_addr_unused.
  eexists. split; [exact Hrun|]. simpl. split_and!; try done.
  - by apply (no_new_Store_alloc w (OList xs)).
  - fold c. rewrite lookup_insert_ne; [done|]. intros <-. congruence.
  - fold c. rewrite lookup_insert_ne; [done|]. intros <-. congruence.
Qed.
End OutOfPlaceListCall.

Lemma py_index_int limit h (i : Z) : py_index limit h (VScalar (SInt i)) = Ok i.
Proof.
  unfold py_index. by rewrite ObjectProxy_target_not_Store.
Qed.

Lemma list___delitem___in_range (xs : list value) (i : Z) :
  (- Z.of_nat (length xs) ≤ i < Z.of_nat (length xs))%Z →
  list___delitem__ xs i
    = Ok (delete (Z.to_nat (i mod Z.of_nat (length xs))) xs).
Proof.
  intros Hi. unfold list___delitem__. cbv zeta.
  set (n := Z.of_nat (length xs)) in *.
  destruct (Z.ltb_spec i 0) as [Hneg|Hpos].
  - replace (i mod n)%Z with (i + n)%Z.
    2:{ rewrite <-(Z.mod_add i 1 n) by lia.
        rewrite Z.mul_1_l. symmetry. apply Z.mod_small. lia. }
    assert ((i + n <? 0)%Z = false) as -> by lia.
    by assert ((n <=? i + n)%Z = false) as -> by lia.
  - rewrite Z.mod_small by lia.
    assert ((i <? 0)%Z = false) as -> by lia.
    by assert ((n <=? i)%Z = false) as -> by lia.
Qed.

Lemma list___delitem___out_of_range (xs : list value) (i : Z) :
  ¬ (- Z.of_nat (length xs) ≤ i < Z.of_nat (length xs))%Z →
  list___delitem__ xs i = Raise IndexError.
Proof.
  intros Hi. unfold list___delitem__. cbv zeta.
  set (n := Z.of_nat (length xs)) in *.
  destruct (Z.ltb_spec i 0) as [Hneg|Hpos].
  - by assert ((i + n <? 0)%Z = true) as -> by lia.
  - assert ((i <? 0)%Z = false) as -> by lia.
    by assert ((n <=? i)%Z = true) as -> by lia.
Qed.

(** X11. [Store.__delitem__(i)] outside a reactive scope, on a Store of a
    list, with an int index from [-len] up to [len - 1].  The index
    selects one item, negative ones counting from the end: the call warns
    and returns a new Store, with the next id and the same [backend_only]
    flag, around a new list without that item, one shorter, while the
    wrapped list and the Store are as they were and no operation is
    registered. *)
Theorem Store_delitem_list_index (limit : nat) (w : world) (self a : addr)
    (s : StoreObj) (xs : list value) (i : Z) :
  (0 < limit)%nat →
  reactive w = false →
  heap w !! self = Some (OStore s) →
  ObjectProxy_target limit (heap w) (__wrapped__ s) = Ok (VRef a) →
  heap w !! a = Some (OList xs) →
  (- Z.of_nat (length xs) ≤ i < Z.of_nat (length xs))%Z →
  ∃ copy new w',
    Store___delitem__ limit self (VScalar (SInt i)) w
      = (Ok (VRef new), w', [delitem_warning s])
    ∧ heap w' !! new
      = Some (OStore (mkStore (next_id w) (VRef copy) (_self_backend_only s)))
    ∧ heap w' !! copy
      = Some (OList (delete (Z.to_nat (i mod Z.of_nat (length xs))) xs))
    ∧ S (length (delete (Z.to_nat (i mod Z.of_nat (length xs))) xs))
      = length xs
    ∧ heap w !! copy = None
    ∧ heap w !! new = None
    ∧ heap w' !! a = Some (OList xs)
    ∧ heap w' !! self = Some (OStore s)
    ∧ operations w' = operations w.
Proof.
  intros Hl Hrw Hs Ht Ha Hi. destruct limit as [|limit]; [lia|].
  set (xs' := delete (Z.to_nat (i mod Z.of_nat (length xs))) xs).
  destruct (out_of_place_list_call_Ok limit "__delitem__" self a s xs
              [SInt i] w
              (λ raw_args,
                 match raw_args with
                 | [key] => Store___delitem___body (S limit) self key
                 | _ => raise TypeError
                 end)
              (λ obj, py_delitem (S limit) obj (VScalar (SInt i)))
              delitem_warning Hrw Hs Ht Ha eq_refl xs')
    as (copy & new & w' & Hrun & H1 & H2 & H3 & H4 & H5 & H6 & H7 & H8 & H9
        & H10).
  { apply (py_delitem_spec (S limit) _ _ _ (OList xs)).
    - apply lookup_insert_eq.
    - cbn [object_delitem]. rewrite py_index_int. cbn [res_bind].
      by rewrite list___delitem___in_range. }
  exists copy, new, w'. split_and!; try done.
  unfold xs'. rewrite length_delete.
  - destruct xs; simpl in *; lia.
  - apply lookup_lt_is_Some.
    pose proof (Z.mod_pos_bound i (Z.of_nat (length xs))). lia.
Qed.

Lemma Store_delitem_list_index_witness :
  ∃ copy new w',
    Store___delitem__ 5 5%positive (VScalar (SInt (-1)))
      (set_reactive false nested_world)
      = (Ok (VRef new), w', ["Store.__delitem__ is out-of-place."])
    ∧ heap w' !! new = Some (OStore (mkStore 3%nat (VRef copy) false))
    ∧ heap w' !! copy = Some (OList [VRef 2%positive])
    ∧ 2%nat = 2%nat
    ∧ heap (set_reactive false nested_world) !! copy = None
    ∧ heap (set_reactive false nested_world) !! new = None
    ∧ heap w' !! 3%positive
      = Some (OList [VRef 2%positive; VScalar (SInt 5)])
    ∧ heap w' !! 5%positive
      = Some (OStore (mkStore 2%nat (VRef 3%positive) false))
    ∧ operations w' = [].
Proof.
  apply (Store_delitem_list_index 5 (set_reactive false nested_world)
           5%positive 3%positive (mkStore 2%nat (VRef 3%positive) false)
           [VRef 2%positive; VScalar (SInt 5)] (-1)%Z).
  - lia.
  - reflexivity.
  - reflexivity.
  - reflexivity.
  - reflexivity.
  - simpl. lia.
Defined.

(** X17. [Store.__delitem__(i)] outside a reactive scope, on a Store of a
    list, with an int index below [-len] or from [len] on, and so with
    every index on an empty list: the call raises [IndexError], with no
    warning, no Store made, no identifier used and no operation
    registered; the wrapped list and the Store are as they were. *)
Theorem Store_delitem_list_index_out_of_range (limit : nat) (w : world)
    (self a : addr) (s : StoreObj) (xs : list value) (i : Z) :
  (0 < limit)%nat →
  reactive w = false →
  heap w !! self = Some (OStore s) →
  ObjectProxy_target limit (heap w) (__wrapped__ s) = Ok (VRef a) →
  heap w !! a = Some (OList xs) →
  ¬ (- Z.of_nat (length xs) ≤ i < Z.of_nat (length xs))%Z →
  ∃ w',
    Store___delitem__ limit self (VScalar (SInt i)) w
      = (Raise IndexError, w', [])
    ∧ next_id w' = next_id w
    ∧ no_new_Store w w'
    ∧ heap w' !! a = Some (OList xs)
    ∧ heap w' !! self = Some (OStore s)
    ∧ operations w' = operations w.
Proof.
  intros Hl Hrw Hs Ht Ha Hi. destruct limit as [|limit]; [lia|].
  destruct (out_of_place_list_call_Raise limit "__delitem__" self a s xs
              [SInt i] w
              (λ raw_args,
                 match raw_args with
                 | [key] => Store___delitem___body (S limit) self key
                 | _ => raise TypeError
                 end)
              (λ obj, py_delitem (S limit) obj (VScalar (SInt i)))
              delitem_warning Hrw Hs Ht Ha eq_refl IndexError)
    as (w' & Hrun & H1 & H2 & H3 & H4 & H5 & H6 & H7).
  { unfold py_delitem. rewrite bind_get_heap. cbn [heap set_heap].
    rewrite lookup_insert_eq. cbn [object_delitem].
    rewrite py_index_int. cbn [res_bind].
    by rewrite list___delitem___out_of_range. }
  exists w'. split_and!; done.
Qed.

Lemma Store_delitem_list_index_out_of_range_witness :
  ∃ w',
    Store___delitem__ 5 5%positive (VScalar (SInt 2))
      (set_reactive false nested_world)
      = (Raise IndexError, w', [])
    ∧ next_id w' = 3%nat
    ∧ no_new_Store (set_reactive false nested_world) w'
    ∧ heap w' !! 3%positive
      = Some (OList [VRef 2%positive; VScalar (SInt 5)])
    ∧ heap w' !! 5%positive
      = Some (OStore (mkStore 2%nat (VRef 3%positive) false))
    ∧ operations w' = [].
Proof.
  apply (Store_delitem_list_index_out_of_range 5
           (set_reactive false nested_world)
           5%positive 3%positive (mkStore 2%nat (VRef 3%positive) false)
           [VRef 2%positive; VScalar (SInt 5)] 2%Z).
  - lia.
  - reflexivity.
  - reflexivity.
  - reflexivity.
  - reflexivity.
  - simpl. lia.
Defined.

(** ** Slices *)

Lemma slice_bound_range (n i : Z) :
  (0 ≤ n)%Z → (0 ≤ slice_bound n i ≤ n)%Z.
Proof.
  intros Hn. unfold slice_bound. cbv zeta.
  destruct (Z.ltb_spec i 0).
  - destruct (Z.ltb_spec (i + n) 0); [lia|].
    destruct (Z.ltb_spec n (i + n)); lia.
  - destruct (Z.ltb_spec i 0); [lia|].
    destruct (Z.ltb_spec n i); lia.
Qed.

Lemma slice_bound_in_range (n i : Z) :
  (0 ≤ i ≤ n)%Z → slice_bound n i = i.
Proof.
  intros Hi. unfold slice_bound. cbv zeta.
  assert ((i <? 0)%Z = false) as -> by lia.
  assert ((i <? 0)%Z = false) as -> by lia.
  by assert ((n <? i)%Z = false) as -> by lia.
Qed.

Lemma list___setslice___length xs i j vs :
  length (list___setslice__ xs i j vs)
    = (length (list___delslice__ xs i j) + length vs)%nat.
Proof.
  unfold list___setslice__, list___delslice__. cbv zeta.
  rewrite !length_app. lia.
Qed.

Lemma list___delslice___length xs i j :
  let n := Z.of_nat (length xs) in
  let lo := slice_bound n i in
  let hi := Z.max lo (slice_bound n j) in
  Z.of_nat (length (list___delslice__ xs i j)) = (n - (hi - lo))%Z.
Proof.
  intros n lo hi. unfold list___delslice__. cbv zeta. fold n. fold lo. fold hi.
  pose proof (slice_bound_range n i ltac:(lia)).
  pose proof (slice_bound_range n j ltac:(lia)).
  rewrite length_app, length_take, length_drop. unfold n in *. lia.
Qed.

Lemma list___delslice___in_range xs i j :
  (0 ≤ i ≤ j)%Z → (j ≤ Z.of_nat (length xs))%Z →
  list___delslice__ xs i j = take (Z.to_nat i) xs ++ drop (Z.to_nat j) xs.
Proof.
  intros Hi Hj. unfold list___delslice__. cbv zeta.
  rewrite !slice_bound_in_range by lia. by rewrite Z.max_r by lia.
Qed.

Lemma list___setslice___in_range xs i j vs :
  (0 ≤ i ≤ j)%Z → (j ≤ Z.of_nat (length xs))%Z →
  list___setslice__ xs i j vs
    = take (Z.to_nat i) xs ++ vs ++ drop (Z.to_nat j) xs.
Proof.
  intros Hi Hj. unfold list___setslice__. cbv zeta.
  rewrite !slice_bound_in_range by lia. by rewrite Z.max_r by lia.
Qed.

Lemma slice_arg_int limit h d (i : Z) :
  slice_arg limit h d (VScalar (SInt i)) = Ok i.
Proof. unfold slice_arg. apply py_index_int. Qed.

Lemma py_delslice_list limit c xs (i j : Z) w :
  heap w !! c = Some (OList xs) →
  py_delslice limit c (VScalar (SInt i)) (VScalar (SInt j)) w
  = (Ok tt, set_heap (<[c := OList (list___delslice__ xs i j)]> (heap w)) w,
     []).
Proof.
  intros Hc. unfold py_delslice. rewrite bind_get_heap, Hc. cbv zeta.
  by rewrite !slice_arg_int, !bind_lift_Ok.
Qed.

(** X18. [Store.__delslice__(i, j)], called by name outside a reactive
    scope on a Store of a list with int bounds, cannot fail: bounds
    outside the list are clamped rather than rejected.  The call warns
    and returns a new Store, with the next id and the same
    [backend_only] flag, around a new list without the slice; that list
    is shorter than the old one by the width of the clamped slice, and
    the wrapped list and the Store are as they were. *)
Theorem Store_delslice_list_clamps (limit : nat) (w : world) (self a : addr)
    (s : StoreObj) (xs : list value) (i j : Z) :
  (0 < limit)%nat →
  reactive w = false →
  heap w !! self = Some (OStore s) →
  ObjectProxy_target limit (heap w) (__wrapped__ s) = Ok (VRef a) →
  heap w !! a = Some (OList xs) →
  ∃ copy new w',
    Store___delslice__ limit self (VScalar (SInt i)) (VScalar (SInt j)) w
      = (Ok (VRef new), w', [delslice_warning s])
    ∧ heap w' !! new
      = Some (OStore (mkStore (next_id w) (VRef copy) (_self_backend_only s)))
    ∧ heap w' !! copy = Some (OList (list___delslice__ xs i j))
    ∧ heap w !! copy = None
    ∧ heap w !! new = None
    ∧ heap w' !! a = Some (OList xs)
    ∧ heap w' !! self = Some (OStore s)
    ∧ operations w' = operations w
    ∧ (length (list___delslice__ xs i j) ≤ length xs)%nat
    ∧ Z.of_nat (length (list___delslice__ xs i j))
      = (Z.of_nat (length xs)
         - (Z.max (slice_bound (Z.of_nat (length xs)) i)
              (slice_bound (Z.of_nat (length xs)) j)
            - slice_bound (Z.of_nat (length xs)) i))%Z.
Proof.
  intros Hl Hrw Hs Ht Ha. destruct limit as [|limit]; [lia|].
  destruct (out_of_place_list_call_Ok limit "__delslice__" self a s xs
              [SInt i; SInt j] w
              (λ raw_args,
                 match raw_args with
                 | [i; j] => Store___delslice___body (S limit) self i j
                 | _ => raise TypeError
                 end)
              (λ obj, py_delslice (S limit) obj (VScalar (SInt i))
                        (VScalar (SInt j)))
              delslice_warning Hrw Hs Ht Ha eq_refl
              (list___delslice__ xs i j))
    as (copy & new & w' & Hrun & H1 & H2 & H3 & H4 & H5 & H6 & H7 & H8 & H9
        & H10).
  { apply py_delslice_list. apply lookup_insert_eq. }
  pose proof (list___delslice___length xs i j) as Hlen. cbv zeta in Hlen.
  exists copy, new, w'. split_and!; try done.
  pose proof (slice_bound_range (Z.of_nat (length xs)) i ltac:(lia)).
  pose proof (slice_bound_range (Z.of_nat (length xs)) j ltac:(lia)).
  lia.
Qed.

Lemma Store_delslice_list_clamps_witness :
  ∃ copy new w',
    Store___delslice__ 5 5%positive (VScalar (SInt (-1))) (VScalar (SInt 7))
      (set_reactive false nested_world)
      = (Ok (VRef new), w', ["Store.__delslice__ is out-of-place."])
    ∧ heap w' !! new = Some (OStore (mkStore 3%nat (VRef copy) false))
    ∧ heap w' !! copy = Some (OList [VRef 2%positive])
    ∧ heap (set_reactive false nested_world) !! copy = None
    ∧ heap (set_reactive false nested_world) !! new = None
    ∧ heap w' !! 3%positive = Some (OList [VRef 2%positive; VScalar (SInt 5)])
    ∧ heap w' !! 5%positive
      = Some (OStore (mkStore 2%nat (VRef 3%positive) false))
    ∧ operations w' = []
    ∧ (1 ≤ 2)%nat
    ∧ 1%Z = (2 - (2 - 1))%Z.
Proof.
  apply (Store_delslice_list_clamps 5 (set_reactive false nested_world)
           5%positive 3%positive (mkStore 2%nat (VRef 3%positive) false)
           [VRef 2%positive; VScalar (SInt 5)] (-1)%Z 7%Z).
  - lia.
  - reflexivity.
  - reflexivity.
  - reflexivity.
  - reflexivity.
Defined.

(** X12. [Store.__delslice__(i, j)], called by name outside a reactive
    scope on a Store of a list, with [0 <= i <= j <= len]: the new Store
    wraps a new list made of the items before [i] and the items from [j]
    on, and the wrapped list and the Store are as they were. *)
Theorem Store_delslice_list (limit : nat) (w : world) (self a : addr)
    (s : StoreObj) (xs : list value) (i j : Z) :
  (0 < limit)%nat →
  reactive w = false →
  heap w !! self = Some (OStore s) →
  ObjectProxy_target limit (heap w) (__wrapped__ s) = Ok (VRef a) →
  heap w !! a = Some (OList xs) →
  (0 ≤ i ≤ j)%Z → (j ≤ Z.of_nat (length xs))%Z →
  ∃ copy new w',
    Store___delslice__ limit self (VScalar (SInt i)) (VScalar (SInt j)) w
      = (Ok (VRef new), w', [delslice_warning s])
    ∧ heap w' !! new
      = Some (OStore (mkStore (next_id w) (VRef copy) (_self_backend_only s)))
    ∧ heap w' !! copy
      = Some (OList (take (Z.to_nat i) xs ++ drop (Z.to_nat j) xs))
    ∧ heap w !! copy = None
    ∧ heap w !! new = None
    ∧ heap w' !! a = Some (OList xs)
    ∧ heap w' !! self = Some (OStore s)
    ∧ operations w' = operations w.
Proof.
  intros Hl Hrw Hs Ht Ha Hi Hj. destruct limit as [|limit]; [lia|].
  destruct (out_of_place_list_call_Ok limit "__delslice__" self a s xs
              [SInt i; SInt j] w
              (λ raw_args,
                 match raw_args with
                 | [i; j] => Store___delslice___body (S limit) self i j
                 | _ => raise TypeError
                 end)
              (λ obj, py_delslice (S limit) obj (VScalar (SInt i))
                        (VScalar (SInt j)))
              delslice_warning Hrw Hs Ht Ha eq_refl
              (take (Z.to_nat i) xs ++ drop (Z.to_nat j) xs))
    as (copy & new & w' & Hrun & H1 & H2 & H3 & H4 & H5 & H6 & H7 & H8 & H9
        & H10).
  { rewrite <-(list___delslice___in_range xs i j) by done.
    apply py_delslice_list. apply lookup_insert_eq. }
  exists copy, new, w'. split_and!; done.
Qed.

Lemma Store_delslice_list_witness :
  ∃ copy new w',
    Store___delslice__ 5 5%positive (VScalar (SInt 0)) (VScalar (SInt 1))
      (set_reactive false nested_world)
      = (Ok (VRef new), w', ["Store.__delslice__ is out-of-place."])
    ∧ heap w' !! new = Some (OStore (mkStore 3%nat (VRef copy) false))
    ∧ heap w' !! copy = Some (OList [VScalar (SInt 5)])
    ∧ heap (set_reactive false nested_world) !! copy = None
    ∧ heap (set_reactive false nested_world) !! new = None
    ∧ heap w' !! 3%positive = Some (OList [VRef 2%positive; VScalar (SInt 5)])
    ∧ heap w' !! 5%positive
      = Some (OStore (mkStore 2%nat (VRef 3%positive) false))
    ∧ operations w' = [].
Proof.
  apply (Store_delslice_list 5 (set_reactive false nested_world)
           5%positive 3%positive (mkStore 2%nat (VRef 3%positive) false)
           [VRef 2%positive; VScalar (SInt 5)] 0%Z 1%Z).
  - lia.
  - reflexivity.
  - reflexivity.
  - reflexivity.
  - reflexivity.
  - lia.
  - simpl. lia.
Defined.

Lemma py_list_of_list limit b vs w :
  heap w !! b = Some (OList vs) →
  py_list_of limit (VRef b) w = (Ok vs, w, []).
Proof.
  intros Hb. unfold py_list_of. rewrite bind_get_heap.
  rewrite ObjectProxy_target_not_Store by (simpl; by rewrite Hb).
  rewrite bind_lift_Ok. by rewrite Hb.
Qed.

(** X13. [Store.__setslice__(i, j, value)], called by name outside a
    reactive scope on a Store of a list, with int bounds and a value that
    the interceptor's packer hands over as a list (a list is handed over
    as a new list, in which the Stores among the items have given way to
    their values).  The call warns and returns a new Store, with the next
    id and the same [backend_only] flag, around a new list in which the
    items handed over stand where the slice was; its length is that of
    the old list without the slice plus that of the value.  The wrapped
    list, the Store and every object that existed before are as they
    were, and no operation is registered. *)
Theorem Store_setslice_list (limit : nat) (w w1 : world) (self a b : addr)
    (s : StoreObj) (xs vs : list value) (i j : Z) (v : value)
    (stores : list addr) :
  reactive w = false →
  heap w !! self = Some (OStore s) →
  ObjectProxy_target limit (heap w) (__wrapped__ s) = Ok (VRef a) →
  heap w !! a = Some (OList xs) →
  pack_args limit [VScalar (SInt i); VScalar (SInt j); v] w
    = (Ok ([VScalar (SInt i); VScalar (SInt j); VRef b], stores), w1, []) →
  heap w1 !! b = Some (OList vs) →
  ∃ copy new w',
    Store___setslice__ limit self (VScalar (SInt i)) (VScalar (SInt j)) v w
      = (Ok (VRef new), w', [setslice_warning s])
    ∧ heap w' !! new
      = Some (OStore (mkStore (next_id w) (VRef copy) (_self_backend_only s)))
    ∧ heap w' !! copy = Some (OList (list___setslice__ xs i j vs))
    ∧ heap w !! copy = None
    ∧ heap w !! new = None
    ∧ heap w' !! a = Some (OList xs)
    ∧ heap w' !! self = Some (OStore s)
    ∧ heap w ⊆ heap w'
    ∧ operations w' = operations w
    ∧ length (list___setslice__ xs i j vs)
      = (length (list___delslice__ xs i j) + length vs)%nat.
Proof.
  intros Hrw Hs Ht Ha Hpack Hb.
  destruct (pack_args_Ok _ _ _ _ _ _ _ Hpack)
    as ((Hsub & Hid & Hq & Hr & Hops) & _ & _ & Hst).
  assert (Hs1 : heap w1 !! self = Some (OStore s))
    by (by apply (lookup_weaken _ _ _ _ Hs)).
  assert (Ha1 : heap w1 !! a = Some (OList xs))
    by (by apply (lookup_weaken _ _ _ _ Ha)).
  assert (Ht1 : ObjectProxy_target limit (heap w1) (__wrapped__ s)
                = Ok (VRef a))
    by (by apply (ObjectProxy_target_weaken _ (heap w) _ _ _ (OList xs))).
  assert (Hfresh : ∀ x, heap w1 !! x = None → heap w !! x = None).
  { intros x Hx. destruct (heap w !! x) as [y|] eqn:E; [|done].
    apply (lookup_weaken _ _ _ _ E) in Hsub. congruence. }
  set (c := fresh (dom (heap w1))).
  set (w1' := set_heap (<[c := OList xs]> (heap w1)) w1).
  assert (Hc1 : heap w1 !! c = None) by apply fresh_addr_unused.
  assert (Hb1 : heap w1' !! b = Some (OList vs)).
  { simpl. rewrite lookup_insert_ne; [done|]. intros Heq.
    rewrite Heq in Hc1. congruence. }
  set (xs' := list___setslice__ xs i j vs).
  assert (Hm : py_setslice limit c (VScalar (SInt i)) (VScalar (SInt j))
                 (VRef b) w1'
               = (Ok tt, set_heap (<[c := OList xs']> (heap w1')) w1', [])).
  { unfold py_setslice. rewrite bind_get_heap. cbn [heap w1' set_heap].
    rewrite lookup_insert_eq. cbv zeta.
    rewrite !slice_arg_int, !bind_lift_Ok.
    by rewrite (bind_pure _ _ w1' vs (py_list_of_list limit b vs w1' Hb1)). }
  pose proof (out_of_place_Ok limit
                (λ obj, py_setslice limit obj (VScalar (SInt i))
                          (VScalar (SInt j)) (VRef b))
                setslice_warning self a s (OList xs) w1 Hs1 Ht1 Ha1 I
                (OList xs') Hm I) as Hrun.
  destruct (out_of_place_heap self a s (OList xs) w1 Hs1 Ha1 (OList xs'))
    as (H1 & H2 & H3 & H4 & H5 & H6 & H7 & H8).
  exists c. eexists _, _. split.
  { unfold Store___setslice__.
    rewrite (_reactive_plain_run limit "__setslice__" self _ _ w _ stores w1
               Hrw Hpack).
    exact Hrun. }
  cbn [heap next_id operations]. rewrite <-Hid.
  split_and!; try done.
  - by apply Hfresh.
  - by apply Hfresh.
  - by etrans.
  - apply list___setslice___length.
Qed.

Lemma Store_setslice_list_witness :
  ∃ copy new w',
    Store___setslice__ 5 5%positive (VScalar (SInt 1)) (VScalar (SInt 1))
      (VRef 3%positive) (set_reactive false nested_world)
      = (Ok (VRef new), w', ["Store.__setslice__ is out-of-place."])
    ∧ heap w' !! new = Some (OStore (mkStore 3%nat (VRef copy) false))
    ∧ heap w' !! copy
      = Some (OList [VRef 2%positive; VScalar (SInt 20); VScalar (SInt 5);
                     VScalar (SInt 5)])
    ∧ heap (set_reactive false nested_world) !! copy = None
    ∧ heap (set_reactive false nested_world) !! new = None
    ∧ heap w' !! 3%positive = Some (OList [VRef 2%positive; VScalar (SInt 5)])
    ∧ heap w' !! 5%positive
      = Some (OStore (mkStore 2%nat (VRef 3%positive) false))
    ∧ heap (set_reactive false nested_world) ⊆ heap w'
    ∧ operations w' = []
    ∧ 4%nat = (2 + 2)%nat.
Proof.
  apply (Store_setslice_list 5 (set_reactive false nested_world)
           (set_heap (<[6%positive := OList [VScalar (SInt 20);
                                             VScalar (SInt 5)]]>
                        (heap nested_world))
              (set_reactive false nested_world))
           5%positive 3%positive 6%positive
           (mkStore 2%nat (VRef 3%positive) false)
           [VRef 2%positive; VScalar (SInt 5)]
           [VScalar (SInt 20); VScalar (SInt 5)] 1%Z 1%Z (VRef 3%positive)
           [2%positive]).
  - reflexivity.
  - reflexivity.
  - reflexivity.
  - reflexivity.
  - by vm_compute.
  - reflexivity.
Defined.
